(** * Sparta provisioning workflow: a shallow embedding of [provision_build.go]

    The development follows the source file top-down: the Go library
    functions the workflow leans on (string helpers, SHA-1, hex), the data
    model ([workflowContext] and friends), the helper functions, the
    workflow steps, and [Provision].  The properties come last.

    The workflow context is threaded through a state monad whose second
    component is the history of the run.  Calls into other packages (S3,
    IAM, CloudFormation, the zip writer, the file system, the user's hooks)
    and into files of the package other than [provision_build.go] are
    recorded in that history, and what they answer is read from a [World].
    A nil dereference, an assignment to a nil map or an index out of
    range is a [Panics] outcome.  The descriptors the source reaches
    through pointers (the lambda functions and their custom resources)
    are values of the user data, addressed by their position.
    Logging (apart from the one warning of [Provision]), the measured
    durations, the hooks' context map and the contents of archives and
    files are left out; the rollback functions and rollback hooks, which
    the source runs concurrently and waits for, are run in order. *)

From Stdlib Require Import ZArith Lia Ascii String DecimalString DecimalZ.
From stdpp Require Import base option list strings gmap.

Local Open Scope Z_scope.
Local Open Scope string_scope.
Local Open Scope list_scope.

(** ** Go library functions used by the naming policy *)

(** Go strings are byte sequences; [string] (a list of [ascii]) is used for
    both [string] and [[]byte]. *)

(** [path.Ext]: the suffix beginning at the final dot in the final
    slash-separated element of the path; empty if there is no dot.
<<
    for i := len(path) - 1; i >= 0 && path[i] != '/'; i-- {
        if path[i] == '.' { return path[i:] }
    }
    return ""
>>
    [path_Ext_loop p n] is the loop entered with [i = n - 1]. *)
Fixpoint path_Ext_loop (p : string) (n : nat) : string :=
  match n with
  | O => EmptyString
  | S i =>
      match String.get i p with
      | Some c =>
          if Ascii.eqb c "/"%char then EmptyString
          else if Ascii.eqb c "."%char
               then String.substring i (String.length p - i) p
               else path_Ext_loop p i
      | None => EmptyString
      end
  end.

Definition path_Ext (p : string) : string := path_Ext_loop p (String.length p).

(** [strings.HasSuffix] and [strings.TrimSuffix]. *)
Definition strings_HasSuffix (s suffix : string) : bool :=
  (String.length suffix <=? String.length s)%nat
  && String.eqb (String.substring (String.length s - String.length suffix)
                                  (String.length suffix) s) suffix.

Definition strings_TrimSuffix (s suffix : string) : string :=
  if strings_HasSuffix s suffix
  then String.substring 0 (String.length s - String.length suffix) s
  else s.

(** [fmt.Sprintf("%d", n)] for an [int64]: an optional minus sign and the
    decimal digits without leading zeros. *)
Definition fmt_d (n : Z) : string := NilEmpty.string_of_int (Z.to_int n).

(** [hex.EncodeToString]: two lower-case hexadecimal digits per byte. *)
Definition hex_digit (n : N) : ascii :=
  match n with
  | 0%N => "0" | 1%N => "1" | 2%N => "2" | 3%N => "3"
  | 4%N => "4" | 5%N => "5" | 6%N => "6" | 7%N => "7"
  | 8%N => "8" | 9%N => "9" | 10%N => "a" | 11%N => "b"
  | 12%N => "c" | 13%N => "d" | 14%N => "e" | _ => "f"
  end%char.

(** The value of a hexadecimal digit ([fromHexChar] of [encoding/hex]). *)
Definition hex_value (c : ascii) : N :=
  match c with
  | "0" => 0 | "1" => 1 | "2" => 2 | "3" => 3 | "4" => 4 | "5" => 5 | "6" => 6
  | "7" => 7 | "8" => 8 | "9" => 9 | "a" => 10 | "b" => 11 | "c" => 12
  | "d" => 13 | "e" => 14 | "f" => 15 | _ => 0
  end%char%N.

Fixpoint hex_EncodeToString (src : string) : string :=
  match src with
  | EmptyString => EmptyString
  | String b rest =>
      let v := N_of_ascii b in
      String (hex_digit (v / 16)) (String (hex_digit (v mod 16)) (hex_EncodeToString rest))
  end.

(** [crypto/sha1] (FIPS 180-4).  The package is part of the Go standard
    library, not of this repository; it is written out so that the naming
    policy computes. *)
Module sha1.

Definition mask32 (x : Z) : Z := Z.land x 4294967295.
Definition add32 (x y : Z) : Z := mask32 (x + y).
Definition rotl32 (n x : Z) : Z :=
  mask32 (Z.lor (Z.shiftl x n) (Z.shiftr x (32 - n))).

Definition bytes_of_string (s : string) : list Z :=
  (λ c, Z.of_N (N_of_ascii c)) <$> String.list_ascii_of_string s.

Definition string_of_bytes (l : list Z) : string :=
  String.string_of_list_ascii ((λ b, ascii_of_N (Z.to_N (b mod 256))) <$> l).

Definition be_bytes (width : nat) (x : Z) : list Z :=
  (λ i, Z.land (Z.shiftr x (8 * Z.of_nat i)) 255) <$> rev (seq 0 width).

Definition pad (msg : list Z) : list Z :=
  let l := Z.of_nat (length msg) in
  msg ++ [128] ++ replicate (Z.to_nat ((55 - l) mod 64)) 0 ++ be_bytes 8 (8 * l).

Fixpoint words (fuel : nat) (bs : list Z) : list Z :=
  match fuel, bs with
  | S fuel', b0 :: b1 :: b2 :: b3 :: rest =>
      (Z.shiftl b0 24 + Z.shiftl b1 16 + Z.shiftl b2 8 + b3) :: words fuel' rest
  | _, _ => []
  end.

Fixpoint blocks (fuel : nat) (ws : list Z) : list (list Z) :=
  match fuel, ws with
  | S fuel', _ :: _ => take 16 ws :: blocks fuel' (drop 16 ws)
  | _, _ => []
  end.

(** Message schedule, kept newest-first while it is extended. *)
Fixpoint schedule (n : nat) (rev_w : list Z) : list Z :=
  match n with
  | O => rev rev_w
  | S n' =>
      let at_ i := nth i rev_w 0 in
      let w := rotl32 1 (Z.lxor (Z.lxor (at_ 2%nat) (at_ 7%nat))
                                (Z.lxor (at_ 13%nat) (at_ 15%nat))) in
      schedule n' (w :: rev_w)
  end.

Definition state : Type := Z * Z * Z * Z * Z.

Definition round (st : state) (tw : nat * Z) : state :=
  let '(a, b, c, d, e) := st in
  let '(t, w) := tw in
  let '(f, k) :=
    if (t <? 20)%nat then
      (Z.lor (Z.land b c) (Z.land (Z.lxor b 4294967295) d), 1518500249)
    else if (t <? 40)%nat then
      (Z.lxor (Z.lxor b c) d, 1859775393)
    else if (t <? 60)%nat then
      (Z.lor (Z.lor (Z.land b c) (Z.land b d)) (Z.land c d), 2400959708)
    else
      (Z.lxor (Z.lxor b c) d, 3395469782) in
  let temp := add32 (add32 (add32 (add32 (rotl32 5 a) f) e) k) w in
  (temp, a, rotl32 30 b, c, d).

Definition block (h : state) (blk : list Z) : state :=
  let w := schedule 64 (rev blk) in
  let '(a, b, c, d, e) := fold_left round (zip (seq 0 80) w) h in
  let '(h0, h1, h2, h3, h4) := h in
  (add32 h0 a, add32 h1 b, add32 h2 c, add32 h3 d, add32 h4 e).

Definition init : state :=
  (1732584193, 4023233417, 2562383102, 271733878, 3285377520).

(** [h := sha1.New(); h.Write(data); h.Sum(nil)] *)
Definition Sum (data : string) : string :=
  let padded := pad (bytes_of_string data) in
  let ws := words (length padded) padded in
  let '(h0, h1, h2, h3, h4) := fold_left block (blocks (length ws) ws) init in
  string_of_bytes (be_bytes 4 h0 ++ be_bytes 4 h1 ++ be_bytes 4 h2
                   ++ be_bytes 4 h3 ++ be_bytes 4 h4).

End sha1.

(** ** Errors and panics *)

(** Go [error] values: [errors.New] / [fmt.Errorf] / [errors.Errorf] build a
    message, [errors.Wrapf] puts a message in front of a cause. *)
Inductive error : Type :=
| errorString (msg : string)
| withMessage (cause : error) (msg : string).

Fixpoint Error (e : error) : string :=
  match e with
  | errorString msg => msg
  | withMessage cause msg => msg +:+ ": " +:+ Error cause
  end.

Definition errors_New (msg : string) : error := errorString msg.
Definition errors_Wrapf (cause : error) (msg : string) : error := withMessage cause msg.

(** [strings.Join] *)
Fixpoint strings_Join (elems : list string) (sep : string) : string :=
  match elems with
  | [] => ""
  | [e] => e
  | e :: rest => e +:+ sep +:+ strings_Join rest sep
  end.

(** [%v] of a [[]error]: the messages between brackets, separated by
    spaces. *)
Definition fmt_v_errors (errs : list error) : string :=
  "[" +:+ strings_Join (Error <$> errs) " " +:+ "]".

(** A Go call either returns or panics (nil dereference). *)
Inductive outcome (A : Type) : Type :=
| Returns (a : A)
| Panics (reason : string).
Arguments Returns {A} a.
Arguments Panics {A} reason.

(** ** Data model *)

(** [s3UploadURL] *)
Record s3UploadURL := {
  location : string;
  path : string;
  version : string;
}.

(** [IAMRoleDefinition] is declared in another file of the package; the
    workflow only calls its [logicalName] and [toResource] methods.  A
    definition is identified by an opaque tag. *)
Record IAMRoleDefinition := { roleTag : nat }.

(** [gocf.StringExpr]: the two ways the workflow builds one. *)
Inductive StringExpr : Type :=
| gocf_GetAtt (resource attribute : string)
| gocf_String (literal : string).

(** The fields of [customResourceInfo] and [LambdaAWSInfo] (declared in
    another file) that the workflow reads or writes.  [functionName]
    stands for the result of the method [lambdaFunctionName()], and
    [options_Environment] for the Go map [options.Environment], which the
    last step assigns to: [None] is a map that was never allocated. *)
Record customResourceInfo := {
  roleName : string;
  roleDefinition : option IAMRoleDefinition;
  userFunctionName : string;
  options_Environment : option (gmap string StringExpr);
}.

Record LambdaAWSInfo := {
  functionName : string;
  RoleName : string;
  RoleDefinition : option IAMRoleDefinition;
  customResources : list customResourceInfo;
}.

(** [gocf.LambdaFunctionEnvironment.Variables] is an [interface{}]; the
    post-condition check distinguishes [map[string]interface{}] from every
    other dynamic type. *)
Inductive EnvironmentVariables : Type :=
| VariablesMap (vars : gmap string string)      (* map[string]interface{} *)
| VariablesStringMap (vars : gmap string string) (* map[string]string *)
| VariablesNil.                                  (* nil interface *)

Record LambdaFunctionEnvironment := { Variables : EnvironmentVariables }.

(** [gocf.Resource.Properties], by dynamic type. *)
Inductive ResourceProperties : Type :=
| LambdaFunction (Environment : option LambdaFunctionEnvironment)
| IAMRole (definition : IAMRoleDefinition)
| OtherResource (cfnResourceType : string).

Definition CfnResourceType (p : ResourceProperties) : string :=
  match p with
  | LambdaFunction _ => "AWS::Lambda::Function"
  | IAMRole _ => "AWS::IAM::Role"
  | OtherResource t => t
  end.

(** [gocf.Template]: only [Resources] is inspected by the workflow. *)
Record Template := { Resources : gmap string ResourceProperties }.

Definition gocf_NewTemplate : Template := {| Resources := ∅ |}.

(** [Template.AddResource]: assignment into the resource map. *)
Definition AddResource (name : string) (r : ResourceProperties) (t : Template) : Template :=
  {| Resources := <[name := r]> (Resources t) |}.

(** [WorkflowHooks] (declared in another file): each hook handler is an
    opaque name; what a handler does is decided by the environment. *)
Definition handler : Type := string.

Record WorkflowHooks := {
  PreBuild : option handler;         PreBuilds : list handler;
  PostBuild : option handler;        PostBuilds : list handler;
  Archive : option handler;          Archives : list handler;
  ServiceDecorator : option handler; ServiceDecorators : list handler;
  Rollback : option handler;         Rollbacks : list handler;
  PreMarshall : option handler;      PreMarshalls : list handler;
  PostMarshall : option handler;     PostMarshalls : list handler;
  Validators : list handler;
}.

(** [s3SiteContext]; the site itself is an opaque descriptor. *)
Record S3Site := { resources : string }.

Record s3SiteContext := {
  s3Site : option S3Site;
  s3UploadURL_ : option s3UploadURL;
}.

(** [userdata] *)
Record userdata := {
  noop : bool;
  useCGO : bool;
  inPlace : bool;
  buildID : string;
  buildTags : string;
  linkFlags : string;
  serviceName : string;
  serviceDescription : string;
  lambdaAWSInfos : list LambdaAWSInfo;
  workflowHooks : option WorkflowHooks;
  codePipelineTrigger : string;
  api : option string;
  siteContext : s3SiteContext;
  s3Bucket : string;
}.

(** [session.Session], reduced to its configured region. *)
Record Session := { Region : string }.

(** [provisionContext] *)
Record provisionContext := {
  s3CodeZipURL : option s3UploadURL;
  awsSession : Session;
  lambdaIAMRoleNameMap : gmap string StringExpr;
  templateWriter : bool;   (* is an [io.Writer] supplied? *)
  cfTemplate : Template;
  s3BucketVersioningEnabled : bool;
  binaryName : string;
}.

(** The closures pushed on the two transaction lists.  The only rollback
    function the workflow registers is [spartaS3.CreateS3RollbackFunc] for
    an uploaded object, the only finalizer the one built by
    [registerFileCleanupFinalizer]. *)
Inductive RollbackFunction : Type :=
| S3RollbackFunc (uploadLocation : string).

Inductive finalizerFunction : Type :=
| fileCleanup (localPath : string).

(** [transaction].  A Go slice that was never assigned is [nil]; that is
    [None] for [finalizerFunctions], which [Provision] compares with [nil]. *)
Record transaction := {
  rollbackFunctions : list RollbackFunction;
  finalizerFunctions : option (list finalizerFunction);
  stepDurations : list string;
}.

(** [workflowContext] *)
Record workflowContext := {
  user : userdata;
  context : provisionContext;
  txn : transaction;
}.

(** [cloudformation.ResourceChange], [lambda.UpdateFunctionCodeInput] and
    [cloudformation.Stack], reduced to the fields the workflow touches. *)
Record ResourceChange := {
  Action : string;
  ResourceType : string;
  LogicalResourceId : string;
  PhysicalResourceId : string;
}.

Record UpdateFunctionCodeInput := {
  FunctionName : string;
  S3Bucket : string;
  S3Key : string;
  S3ObjectVersion : option string;
}.

Record Stack := { StackName : string; StackId : string }.

(** ** The environment of a run *)

(** Every call that leaves [provision_build.go]: AWS services, the local
    file system and build tool chain, user hooks, and functions of the
    package that live in other files. *)
Inductive call : Type :=
(* AWS *)
| GetRole (roleName : string)
| BucketVersioningEnabled (bucket : string)
| BucketRegion (bucket : string)
| UploadLocalFileToS3 (localPath bucket key : string)
| S3DeleteObject (uploadLocation : string)
| CreateStackChangeSet (changeSetName stackName templateURL : string)
| UpdateFunctionCode (request : UpdateFunctionCodeInput)
| DeleteChangeSet (stackName changeSetName : string)
| DescribeStacks (stackName : string)
| ConvergeStackState (stackName templateURL : string) (timeoutMinutes : Z)
(* user hooks *)
| DecorateWorkflow (phase : string) (h : handler)
| DecorateArchive (h : handler)
| DecorateService (h : handler)
| ValidateService (h : handler)
| RollbackHook (h : handler)
| ProfileDecorator (lambdaName : string)
(* build tool chain and local files *)
| BuildGoBinary (service binary : string)
| TemporaryFile (name : string)
| OsRemove (localPath : string)
| AnnotateAddToZip (source : string)
| AddToZip (source : string)
| ArchiveClose (file : string)
| FileClose (file : string)
| FileWrite (file : string)
| FilepathAbs (p : string)
| OsStat (p : string)
| JSONMarshalTemplate
| JSONUnmarshalTemplate
(* template export, in other files of the package *)
| LambdaExport (lambdaName : string)
| APIMarshal
| SafeMerge (what : string)
| AnnotateDiscoveryInfo (lambdaName : string)
| AnnotateBuildInformation (lambdaName : string)
| DiscoveryInfoForResource (resource : string)
| S3SiteExport
| AnnotateMaterializedTemplate
| CreateCodePipelineTriggerPackage.

(** The calls that reach a remote service. *)
Definition is_remote (c : call) : bool :=
  match c with
  | GetRole _ | BucketVersioningEnabled _ | BucketRegion _
  | UploadLocalFileToS3 _ _ _ | S3DeleteObject _ | CreateStackChangeSet _ _ _
  | UpdateFunctionCode _ | DeleteChangeSet _ _ | DescribeStacks _
  | ConvergeStackState _ _ _ => true
  | _ => false
  end.

(** What the collaborators answer.  [fails c] is the error of call [c]
    ([None]: the call succeeds); the other fields give the value of a
    successful call. *)
Record World := {
  fails : call → option error;
  roleArn : string → string;
  versioningEnabled : string → bool;
  bucketRegion : string → string;
  uploadedLocation : string → string → string → string;
  temporaryFileName : string → string;
  (* the value of a successful [discoveryInfoForResource] *)
  discoveryInfo : string → StringExpr;
  changeSet : option (list ResourceChange);
  describedStacks : list Stack;
  convergedStack : Stack;
  (* a collaborator that edits the template in place *)
  templateAfter : call → Template → Template;
  (* [url.Parse] and [url.ParseQuery]: the path and the [versionId] values,
     [None] when either fails *)
  urlParse : string → option (string * list string);
  (* [time.Now().UnixNano()] when read as the [n]-th action of the run *)
  UnixNano : nat → Z;
  (* functions and variables of the package declared in other files *)
  validateSpartaPreconditions : list LambdaAWSInfo → option error;
  profileDecorator : bool;
  sanitizedName : string → string;
  CloudFormationResourceName : string → string;
  codePipelineEnvironments : option (list string);
  envVarDiscoveryInformation : string;
  envVarLogLevel : string;
  SpartaBinaryName : string;
  NewSession : Session;
  logicalName : IAMRoleDefinition → string → string → string;
}.

(** What a run does, in order. *)
Inductive event : Type :=
| evCall (c : call)                      (* a collaborator is called *)
| evClock                                (* [time.Now()] is read for a key *)
| evStep                                 (* the loop invokes a step *)
| evAddResource (logicalName : string)   (* [cfTemplate.AddResource] *)
| evRollback                             (* [ctx.rollback()] is entered *)
| evFinalizer (f : finalizerFunction)    (* a finalizer is invoked *)
| evWarn (msg : string).                 (* [logger.Warn] in [Provision] *)

(** The state threaded through the workflow: the Go [workflowContext] and
    the history of the run. *)
Record machine := {
  ctx : workflowContext;
  trace : list event;
}.

(** ** A state monad with panics *)

Definition M (A : Type) : Type := machine → outcome A * machine.

Definition M_ret {A} (a : A) : M A := λ m, (Returns a, m).

Definition M_bind {A B} (f : A → M B) (x : M A) : M B :=
  λ m, match x m with
       | (Returns a, m') => f a m'
       | (Panics reason, m') => (Panics reason, m')
       end.

#[global] Instance M_MRet : MRet M := @M_ret.
#[global] Instance M_MBind : MBind M := @M_bind.

Definition panic {A} (reason : string) : M A := λ m, (Panics reason, m).

Definition emit (e : event) : M unit :=
  λ m, (Returns (), {| ctx := ctx m; trace := trace m ++ [e] |}).

Definition get : M workflowContext := λ m, (Returns (ctx m), m).

Definition modify (f : workflowContext → workflowContext) : M unit :=
  λ m, (Returns (), {| ctx := f (ctx m); trace := trace m |}).

(** Field updates. *)
Definition with_context (f : provisionContext → provisionContext)
    (c : workflowContext) : workflowContext :=
  {| user := user c; context := f (context c); txn := txn c |}.

Definition with_txn (f : transaction → transaction)
    (c : workflowContext) : workflowContext :=
  {| user := user c; context := context c; txn := f (txn c) |}.

Definition set_s3CodeZipURL (u : option s3UploadURL) : workflowContext → workflowContext :=
  with_context (λ p,
    {| s3CodeZipURL := u; awsSession := awsSession p;
       lambdaIAMRoleNameMap := lambdaIAMRoleNameMap p;
       templateWriter := templateWriter p; cfTemplate := cfTemplate p;
       s3BucketVersioningEnabled := s3BucketVersioningEnabled p;
       binaryName := binaryName p |}).

Definition set_lambdaIAMRoleNameMap (r : gmap string StringExpr) : workflowContext → workflowContext :=
  with_context (λ p,
    {| s3CodeZipURL := s3CodeZipURL p; awsSession := awsSession p;
       lambdaIAMRoleNameMap := r; templateWriter := templateWriter p;
       cfTemplate := cfTemplate p;
       s3BucketVersioningEnabled := s3BucketVersioningEnabled p;
       binaryName := binaryName p |}).

Definition set_cfTemplate (t : Template) : workflowContext → workflowContext :=
  with_context (λ p,
    {| s3CodeZipURL := s3CodeZipURL p; awsSession := awsSession p;
       lambdaIAMRoleNameMap := lambdaIAMRoleNameMap p;
       templateWriter := templateWriter p; cfTemplate := t;
       s3BucketVersioningEnabled := s3BucketVersioningEnabled p;
       binaryName := binaryName p |}).

Definition set_s3BucketVersioningEnabled (b : bool) : workflowContext → workflowContext :=
  with_context (λ p,
    {| s3CodeZipURL := s3CodeZipURL p; awsSession := awsSession p;
       lambdaIAMRoleNameMap := lambdaIAMRoleNameMap p;
       templateWriter := templateWriter p; cfTemplate := cfTemplate p;
       s3BucketVersioningEnabled := b;
       binaryName := binaryName p |}).

Definition set_siteUploadURL (u : option s3UploadURL) (c : workflowContext) : workflowContext :=
  let d := user c in
  {| user := {| noop := noop d; useCGO := useCGO d; inPlace := inPlace d;
                buildID := buildID d; buildTags := buildTags d;
                linkFlags := linkFlags d; serviceName := serviceName d;
                serviceDescription := serviceDescription d;
                lambdaAWSInfos := lambdaAWSInfos d;
                workflowHooks := workflowHooks d;
                codePipelineTrigger := codePipelineTrigger d; api := api d;
                siteContext := {| s3Site := s3Site (siteContext d);
                                  s3UploadURL_ := u |};
                s3Bucket := s3Bucket d |};
     context := context c; txn := txn c |}.

(** [eachCustomResource.options.Environment[key] = value], where
    [eachCustomResource] is the [j]th custom resource of the [i]th entry
    of [ctx.userdata.lambdaAWSInfos].  The descriptors are reached through
    pointers: the assignment lands in the user data.  Descriptors at
    different positions are taken to be different objects. *)
Definition set_Environment (key : string) (value : StringExpr)
    (r : customResourceInfo) : customResourceInfo :=
  {| roleName := roleName r; roleDefinition := roleDefinition r;
     userFunctionName := userFunctionName r;
     options_Environment := insert key value <$> options_Environment r |}.

Definition set_customResources (f : list customResourceInfo → list customResourceInfo)
    (info : LambdaAWSInfo) : LambdaAWSInfo :=
  {| functionName := functionName info; RoleName := RoleName info;
     RoleDefinition := RoleDefinition info;
     customResources := f (customResources info) |}.

Definition set_lambdaAWSInfos (f : list LambdaAWSInfo → list LambdaAWSInfo)
    (c : workflowContext) : workflowContext :=
  let d := user c in
  {| user := {| noop := noop d; useCGO := useCGO d; inPlace := inPlace d;
                buildID := buildID d; buildTags := buildTags d;
                linkFlags := linkFlags d; serviceName := serviceName d;
                serviceDescription := serviceDescription d;
                lambdaAWSInfos := f (lambdaAWSInfos d);
                workflowHooks := workflowHooks d;
                codePipelineTrigger := codePipelineTrigger d; api := api d;
                siteContext := siteContext d;
                s3Bucket := s3Bucket d |};
     context := context c; txn := txn c |}.

Definition set_customResourceEnvironment (i j : nat) (key : string) (value : StringExpr) :
    workflowContext → workflowContext :=
  set_lambdaAWSInfos (alter (set_customResources (alter (set_Environment key value) j)) i).

(** [workflowStep]: a step returns the next step or an error. *)
#[warnings="-register-all"]
Inductive workflowStep : Type :=
| WorkflowStep (run : M (option workflowStep * option error)).

Definition runStep (s : workflowStep) : M (option workflowStep * option error) :=
  match s with WorkflowStep run => run end.

(** Statement-level helpers: run [x]; on a non-nil error leave the
    function with [onErr], otherwise go on. *)
Definition orReturn {R} (x : M (option error)) (onErr : error → R) (k : M R) : M R :=
  r ← x; match r with Some e => mret (onErr e) | None => k end.

Definition orReturnV {A R} (x : M (A * option error)) (onErr : error → R)
    (k : A → M R) : M R :=
  r ← x; match r.2 with Some e => mret (onErr e) | None => k r.1 end.

(** [defer d] in front of [body]: [d] runs when [body] is left. *)
Definition defer {A} (d : M unit) (body : M A) : M A :=
  λ m, match body m with
       | (r, m') => (r, (d m').2)
       end.

(** The elements of a slice with their positions. *)
Definition indexed {A} (l : list A) : list (nat * A) := imap pair l.

(** A [for ... range] loop whose body may leave the function with an
    error. *)
Fixpoint forRange {A} (l : list A) (body : A → M (option error)) : M (option error) :=
  match l with
  | [] => mret None
  | x :: rest => orReturn (body x) Some (forRange rest body)
  end.

(** [filepath.Base] on a Unix path: trailing slashes are stripped, the last
    element is kept; the empty path gives ["."], a path of slashes ["/"]. *)
Definition is_slash (c : ascii) : bool := Ascii.eqb c "/"%char.

Fixpoint dropSlashes (r : list ascii) : list ascii :=
  match r with
  | c :: rest => if is_slash c then dropSlashes rest else r
  | [] => []
  end.

Fixpoint takeElement (r : list ascii) : list ascii :=
  match r with
  | c :: rest => if is_slash c then [] else c :: takeElement rest
  | [] => []
  end.

Definition filepath_Base (p : string) : string :=
  match p with
  | EmptyString => "."
  | _ =>
      match dropSlashes (rev (list_ascii_of_string p)) with
      | [] => "/"
      | r => string_of_list_ascii (rev (takeElement r))
      end
  end.

(** The salt the policy hashes: the default key and the clock reading. *)
Definition keySalt (s3DefaultKey : string) (now : Z) : string :=
  s3DefaultKey +:+ "-" +:+ fmt_d now.

(** [hash.Write] of a SHA-1 digest never reports an error. *)
Definition sha1_Write (data : string) : option error := None.

(** [versionAwareS3KeyName].  [now] is the value of
    [time.Now().UnixNano()] read by the call. *)
Definition versionAwareS3KeyName (s3DefaultKey : string) (s3VersioningEnabled : bool)
    (now : Z) : string * option error :=
  if negb s3VersioningEnabled then
    let extension := path_Ext s3DefaultKey in
    let prefixString := strings_TrimSuffix s3DefaultKey extension in
    let salt := keySalt s3DefaultKey now in
    match sha1_Write salt with
    | Some writeErr => ("", Some (errors_Wrapf writeErr "Failed to update hash digest"))
    | None =>
        (prefixString +:+ "-" +:+ hex_EncodeToString (sha1.Sum salt) +:+ extension, None)
    end
  else (s3DefaultKey, None).

Section Workflow.

Variable W : World.

(** A collaborator call: recorded, answered by the environment. *)
Definition ext (c : call) : M (option error) :=
  emit (evCall c);; mret (fails W c).

(** [newS3UploadURL] *)
Definition strings_TrimPrefix (s pfx : string) : string :=
  if String.prefix pfx s
  then String.substring (String.length pfx) (String.length s - String.length pfx) s
  else s.

Definition newS3UploadURL (s3URL : string) : option s3UploadURL :=
  match urlParse W s3URL with
  | None => None
  | Some (urlPath, versionIDValues) =>
      let version := match versionIDValues with
                     | [v] => v
                     | _ => ""
                     end in
      Some {| location := s3URL;
              path := strings_TrimPrefix urlPath "/";
              version := version |}
  end.

(** [(s3URL *s3UploadURL) keyName()]: reading [path] through a nil
    receiver panics. *)
Definition keyName (s3URL : option s3UploadURL) : M string :=
  match s3URL with
  | Some u => mret (path u)
  | None => panic "invalid memory address or nil pointer dereference"
  end.

Definition codeZipKey (url : option s3UploadURL) : string :=
  match url with
  | None => ""
  | Some u => path u
  end.

Definition codeZipVersion (url : option s3UploadURL) : string :=
  match url with
  | None => ""
  | Some u => version u
  end.

(** [recordDuration]: the elapsed time itself is not kept. *)
Definition recordDuration (name : string) : M unit :=
  modify (with_txn (λ t,
    {| rollbackFunctions := rollbackFunctions t;
       finalizerFunctions := finalizerFunctions t;
       stepDurations := stepDurations t ++ [name] |})).

(** [registerRollback] *)
Definition registerRollback (userFunction : RollbackFunction) : M unit :=
  modify (with_txn (λ t,
    {| rollbackFunctions := rollbackFunctions t ++ [userFunction];
       finalizerFunctions := finalizerFunctions t;
       stepDurations := stepDurations t |})).

(** [registerFinalizer]: a nil or empty list is replaced by a fresh
    empty one before the append. *)
Definition registerFinalizer (userFunction : finalizerFunction) : M unit :=
  modify (with_txn (λ t,
    {| rollbackFunctions := rollbackFunctions t;
       finalizerFunctions := Some (default [] (finalizerFunctions t) ++ [userFunction]);
       stepDurations := stepDurations t |})).

(** [registerFileCleanupFinalizer] *)
Definition registerFileCleanupFinalizer (localPath : string) : M unit :=
  registerFinalizer (fileCleanup localPath).

(** Running the closures: the S3 rollback deletes the uploaded object,
    the cleanup finalizer removes the local file; a failure is only
    logged. *)
Definition runRollbackFunction (f : RollbackFunction) : M unit :=
  match f with
  | S3RollbackFunc uploadLocation => ext (S3DeleteObject uploadLocation);; mret ()
  end.

Definition runFinalizer (f : finalizerFunction) : M unit :=
  emit (evFinalizer f);;
  match f with
  | fileCleanup localPath => ext (OsRemove localPath);; mret ()
  end.

(** A hook field pair: the deprecated single hook is appended to the
    slice. *)
Definition allHooks (hook : option handler) (hooks : list handler) : list handler :=
  match hook with
  | Some h => hooks ++ [h]
  | None => hooks
  end.

(** [callRollbackHook]: every hook is started; none of their results is
    consulted. *)
Definition callRollbackHook : M (option error) :=
  c ← get;
  match workflowHooks (user c) with
  | None => mret None
  | Some hooks =>
      forRange (allHooks (Rollback hooks) (Rollbacks hooks))
               (λ h, ext (RollbackHook h);; mret None)
  end.

(** [rollback].  The hooks and the rollback functions run concurrently
    and the method waits for all of them; the trace lists them in the
    order in which they are started. *)
Definition rollback : M unit :=
  defer (recordDuration "Rollback")
    (emit evRollback;;
     callRollbackHook;;
     c ← get;
     forRange (rollbackFunctions (txn c))
              (λ f, runRollbackFunction f;; mret None);;
     mret ()).

(** [callServiceDecoratorHook]: a hook fills a fresh template, which is
    then merged into the main one. *)
Definition callServiceDecoratorHook : M (option error) :=
  c ← get;
  match workflowHooks (user c) with
  | None => mret None
  | Some hooks =>
      forRange (allHooks (ServiceDecorator hooks) (ServiceDecorators hooks))
        (λ h,
           orReturn (ext (DecorateService h)) Some
             (orReturn (ext (SafeMerge h))
                (λ e, Some (errorString ("Failed to merge templates: " +:+ Error e)))
                (c ← get;
                 modify (set_cfTemplate
                           (templateAfter W (DecorateService h) (cfTemplate (context c))));;
                 mret None)))
  end.

(** [callArchiveHook] *)
Definition callArchiveHook : M (option error) :=
  c ← get;
  match workflowHooks (user c) with
  | None => mret None
  | Some hooks =>
      forRange (allHooks (Archive hooks) (Archives hooks))
        (λ h, orReturn (ext (DecorateArchive h))
                (λ e, Some (errors_Wrapf e "DecorateArchive returned an error"))
                (mret None))
  end.

(** [callWorkflowHook] *)
Definition callWorkflowHook (hookPhase : string) (hook : option handler)
    (hooks : list handler) : M (option error) :=
  forRange (allHooks hook hooks)
    (λ h, orReturn (ext (DecorateWorkflow hookPhase h))
            (λ e, Some (errors_Wrapf e "DecorateWorkflow returned an error"))
            (mret None)).

(** [callValidationHooks]: every hook receives its own copy of the
    template, rebuilt from the marshalled form. *)
Definition callValidationHooks (validationHooks : list handler) : M (option error) :=
  orReturn (match validationHooks with
            | [] => mret None
            | _ => ext JSONMarshalTemplate
            end)
    (λ e, Some (errors_Wrapf e "Failed to marshal template for validation"))
    (forRange validationHooks
       (λ h,
          orReturn (ext JSONUnmarshalTemplate)
            (λ e, Some (errors_Wrapf e
                          "Failed to unmarshal read-only copy of template for Validation"))
            (orReturn (ext (ValidateService h))
               (λ e, Some (errors_Wrapf e "Service failed to pass validation"))
               (mret None)))).

(** Reading the clock for a key name. *)
Definition timeNow : M Z :=
  λ m, (Returns (UnixNano W (length (trace m))),
        {| ctx := ctx m; trace := trace m ++ [evClock] |}).

(** [uploadLocalFileToS3] *)
Definition uploadLocalFileToS3 (localPath s3ObjectKey : string) : M (string * option error) :=
  c ← get;
  orReturnV
    (if String.eqb s3ObjectKey "" then
       let defaultS3KeyName := serviceName (user c) +:+ "/" +:+ filepath_Base localPath in
       (* the clock is read only when the bucket is not versioned *)
       now ← (if s3BucketVersioningEnabled (context c) then mret 0 else timeNow);
       let '(s3KeyName, s3KeyNameErr) :=
         versionAwareS3KeyName defaultS3KeyName
                               (s3BucketVersioningEnabled (context c)) now in
       mret (s3KeyName, s3KeyNameErr)
     else mret (s3ObjectKey, None))
    (λ e, ("", Some (errors_Wrapf e "Failed to create version aware S3 keyname")))
    (λ s3ObjectKey,
       if noop (user c) then
         mret ("https://" +:+ s3Bucket (user c) +:+ "-s3.amazonaws.com/" +:+ s3ObjectKey,
               None)
       else
         (* Make sure we mark things for cleanup in case there's a problem *)
         registerFileCleanupFinalizer localPath;;
         orReturn (ext (UploadLocalFileToS3 localPath (s3Bucket (user c)) s3ObjectKey))
           (λ e, ("", Some (errors_Wrapf e "Failed to upload local file to S3")))
           (let uploadLocation :=
              uploadedLocation W localPath (s3Bucket (user c)) s3ObjectKey in
            registerRollback (S3RollbackFunc uploadLocation);;
            mret (uploadLocation, None))).

(** Modelled from the spec: the worker pool ([newWorkerPool], [Run]) is
    declared in another file.  It runs every task, waits for all of
    them, and returns the results in task order next to the errors of
    the failing tasks.  The tasks are run here in task order. *)
Fixpoint workerPool_Run {A} (tasks : list (M (option A * option error)))
    : M (list (option A) * list error) :=
  match tasks with
  | [] => mret ([], [])
  | task :: rest =>
      r ← task;
      rs ← workerPool_Run rest;
      mret (r.1 :: rs.1, match r.2 with
                         | Some e => e :: rs.2
                         | None => rs.2
                         end)
  end.

Definition newline : string := String (ascii_of_nat 10) "".
Definition tab : string := String (ascii_of_nat 9) "".

(** The loop of [applyInPlaceFunctionUpdates] over the change set, with
    its two accumulators. *)
Fixpoint classifyChanges (changes : list ResourceChange)
    (updateCodeRequests : list UpdateFunctionCodeInput)
    (invalidInPlaceRequests : list string)
    : M (list UpdateFunctionCodeInput * list string) :=
  match changes with
  | [] => mret (updateCodeRequests, invalidInPlaceRequests)
  | resourceChange :: rest =>
      if String.eqb (Action resourceChange) "Modify"
         && String.eqb (ResourceType resourceChange) "AWS::Lambda::Function"
      then
        c ← get;
        key ← keyName (s3CodeZipURL (context c));
        let updateCodeRequest :=
          {| FunctionName := PhysicalResourceId resourceChange;
             S3Bucket := s3Bucket (user c);
             S3Key := key;
             S3ObjectVersion :=
               match s3CodeZipURL (context c) with
               | Some u => if String.eqb (version u) "" then None else Some (version u)
               | None => None
               end |} in
        classifyChanges rest (updateCodeRequests ++ [updateCodeRequest])
                        invalidInPlaceRequests
      else
        classifyChanges rest updateCodeRequests
          (invalidInPlaceRequests ++
             [Action resourceChange +:+ " for " +:+ LogicalResourceId resourceChange
              +:+ " (ResourceType: " +:+ ResourceType resourceChange +:+ ")"])
  end.

(** [applyInPlaceFunctionUpdates] *)
Definition applyInPlaceFunctionUpdates (templateURL : string)
    : M (option Stack * option error) :=
  c ← get;
  let changeSetRequestName :=
    CloudFormationResourceName W (serviceName (user c) +:+ "InPlaceChangeSet") in
  orReturn (ext (CreateStackChangeSet changeSetRequestName (serviceName (user c)) templateURL))
    (λ e, (None, Some e))
    (match changeSet W with
     | None | Some [] => mret (None, Some (errorString "no changes detected"))
     | Some changes =>
         '(updateCodeRequests, invalidInPlaceRequests) ← classifyChanges changes [] [];
         match invalidInPlaceRequests with
         | _ :: _ =>
             mret (None, Some (errorString
               ("unsupported in-place operations detected:" +:+ newline +:+ tab +:+
                strings_Join invalidInPlaceRequests ("," +:+ newline +:+ tab))))
         | [] =>
             let inPlaceUpdateTasks : list (M (option string * option error)) :=
               ((λ request, e ← ext (UpdateFunctionCode request); mret (Some "", e))
                  <$> updateCodeRequests)
               ++ [e ← ext (DeleteChangeSet (serviceName (user c)) changeSetRequestName);
                   mret (Some "", e)] in
             '(_, asyncErrors) ← workerPool_Run inPlaceUpdateTasks;
             match asyncErrors with
             | _ :: _ =>
                 mret (None, Some (errorString ("failed to update function code: "
                                                +:+ fmt_v_errors asyncErrors)))
             | [] =>
                 orReturn (ext (DescribeStacks (serviceName (user c))))
                   (λ e, (None, Some e))
                   (match describedStacks W with
                    | stack :: _ => mret (Some stack, None)
                    | [] => panic "index out of range [0] with length 0"
                    end)
             end
         end
     end).

(** [maximumStackOperationTimeout], in minutes. *)
Definition maximumStackOperationTimeout (template : Template) : Z :=
  if existsb (λ r, String.eqb (CfnResourceType r.2) "AWS::CloudFront::Distribution")
             (map_to_list (Resources template))
  then 60 else 20.

(** [createCodePipelineTriggerPackage] *)
Definition createCodePipelineTriggerPackage : M (string * option error) :=
  c ← get;
  let tmpFile := temporaryFileName W (codePipelineTrigger (user c)) in
  orReturn (ext (TemporaryFile (codePipelineTrigger (user c))))
    (λ e, ("", Some (errors_Wrapf e "Failed to create temporary file for CodePipeline")))
    (orReturn (ext (AddToZip "cloudformation.json")) (λ e, ("", Some e))
       (orReturn
          (forRange (default [] (codePipelineEnvironments W))
                    (λ eachEnvironment, ext (AddToZip (eachEnvironment +:+ ".json"))))
          (λ e, ("", Some e))
          (orReturn (ext (ArchiveClose tmpFile)) (λ e, ("", Some e))
             (orReturn (ext (FileClose tmpFile)) (λ e, ("", Some e))
                (mret (tmpFile, None)))))).

(** [applyCloudFormationOperation] *)
Definition applyCloudFormationOperation : M (option workflowStep * option error) :=
  c ← get;
  let fail := λ e : error, (@None workflowStep, Some e) in
  orReturn (ext JSONMarshalTemplate) fail
    (let templateName := sanitizedName W (serviceName (user c)) +:+ "-cftemplate.json" in
     let templateFile := temporaryFileName W templateName in
     orReturn (ext (TemporaryFile templateName)) fail
       (orReturn (ext (FileWrite templateFile)) fail
          (orReturn (ext (FileClose templateFile)) fail
             (orReturn (if templateWriter (context c)
                        then ext (FileWrite "templateWriter")
                        else mret None)
                (λ e, fail (errors_Wrapf e "Failed to write template"))
                (if String.eqb (codePipelineTrigger (user c)) "" then
                   if noop (user c) then mret (None, None)
                   else
                     orReturnV (uploadLocalFileToS3 templateFile "") fail
                       (λ uploadURL,
                          orReturnV
                            (if inPlace (user c) then applyInPlaceFunctionUpdates uploadURL
                             else
                               let operationTimeout :=
                                 maximumStackOperationTimeout (cfTemplate (context c)) in
                               e ← ext (ConvergeStackState (serviceName (user c))
                                                           uploadURL operationTimeout);
                               mret (match e with
                                     | Some _ => None
                                     | None => Some (convergedStack W)
                                     end, e))
                            fail
                            (λ _ : option Stack, mret (None, None)))
                 else
                   registerFileCleanupFinalizer templateFile;;
                   orReturnV createCodePipelineTriggerPackage fail
                     (λ _, mret (None, None))))))).

(** The errors [validateSpartaPostconditions] collects for one resource. *)
Definition requiredEnvVars : list string :=
  [envVarDiscoveryInformation W; envVarLogLevel W].

Definition validateResource (eachResourceID : string)
    (properties : ResourceProperties) : list error :=
  match properties with
  | LambdaFunction None =>
      [errorString ("Lambda function " +:+ eachResourceID
                    +:+ " does not include environment info")]
  | LambdaFunction (Some environment) =>
      match Variables environment with
      | VariablesMap vars =>
          flat_map (λ eachKey,
                      match vars !! eachKey with
                      | Some _ => []
                      | None =>
                          [errorString ("Lambda function " +:+ eachResourceID
                                        +:+ " environment does not include key: "
                                        +:+ eachKey)]
                      end)
                   requiredEnvVars
      | VariablesStringMap _ =>
          [errorString ("Lambda function " +:+ eachResourceID
                        +:+ " environment vars are unsupported type: map[string]string")]
      | VariablesNil =>
          [errorString ("Lambda function " +:+ eachResourceID
                        +:+ " environment vars are unsupported type: <nil>")]
      end
  | _ => []
  end.

(** The resources are visited in the order of [map_to_list]; Go leaves
    the order of a map iteration open. *)
Definition validateErrs (template : Template) : list error :=
  flat_map (λ r, validateResource r.1 r.2) (map_to_list (Resources template)).

(** A collaborator that edits [cfTemplate] in place. *)
Definition editTemplate (c : call) : M (option error) :=
  orReturn (ext c) Some
    (x ← get;
     modify (set_cfTemplate (templateAfter W c (cfTemplate (context x))));;
     mret None).

(** [ensureCloudFormationStack] *)
Definition ensureCloudFormationStack : workflowStep :=
  WorkflowStep (
    c ← get;
    let fail := λ e : error, (@None workflowStep, Some e) in
    let hooksOr (f : WorkflowHooks → M (option error)) : M (option error) :=
      match workflowHooks (user c) with
      | Some hooks => f hooks
      | None => mret None
      end in
    defer (recordDuration (if inPlace (user c) then "Updating Lambda function code "
                           else "Ensuring CloudFormation stack"))
      (orReturn (hooksOr (λ hooks, callWorkflowHook "PreMarshall" (PreMarshall hooks)
                                                    (PreMarshalls hooks)))
         fail
      (orReturn (forRange (lambdaAWSInfos (user c))
                          (λ eachEntry, editTemplate (LambdaExport (functionName eachEntry))))
         fail
      (orReturn (match api (user c) with
                 | None => mret None
                 | Some _ =>
                     orReturn (ext APIMarshal) Some
                       (orReturn (editTemplate (SafeMerge "APIGateway"))
                          (λ e, Some (errorString ("APIGateway template merge failed: "
                                                   +:+ Error e)))
                          (mret None))
                 end)
         (λ e, fail (errors_Wrapf e "APIGateway template export failed"))
      (orReturn callServiceDecoratorHook fail
      (orReturn (forRange (indexed (lambdaAWSInfos (user c)))
                   (λ '(i, eachEntry),
                      orReturn (editTemplate (AnnotateDiscoveryInfo (functionName eachEntry)))
                        Some
                      (orReturn (editTemplate
                                   (AnnotateBuildInformation (functionName eachEntry)))
                        Some
                      (* Any custom resources? These may also need discovery info *)
                      (forRange (indexed (customResources eachEntry))
                         (λ '(j, eachCustomResource),
                            (* [logicalName()] of the custom resource *)
                            let name := userFunctionName eachCustomResource in
                            orReturn (ext (DiscoveryInfoForResource name)) Some
                              (* Update the env map *)
                              (match options_Environment eachCustomResource with
                               | Some _ =>
                                   modify (set_customResourceEnvironment i j
                                             (envVarDiscoveryInformation W)
                                             (discoveryInfo W name));;
                                   mret None
                               | None => panic "assignment to entry in nil map"
                               end))))))
         fail
      (orReturn (match s3Site (siteContext (user c)) with
                 | None => mret None
                 | Some _ =>
                     c' ← get;
                     keyName (s3UploadURL_ (siteContext (user c')));;
                     editTemplate S3SiteExport
                 end)
         (λ e, fail (errors_Wrapf e "Failed to export S3 site"))
      (orReturn (hooksOr (λ hooks, callWorkflowHook "PostMarshall" (PostMarshall hooks)
                                                    (PostMarshalls hooks)))
         fail
      (orReturn (editTemplate AnnotateMaterializedTemplate)
         (λ e, fail (errors_Wrapf e "Failed to perform final template annotations"))
      (orReturn (hooksOr (λ hooks, callValidationHooks (Validators hooks))) fail
         applyCloudFormationOperation)))))))))).

(** [validateSpartaPostconditions] *)
Definition validateSpartaPostconditions : workflowStep :=
  WorkflowStep (
    c ← get;
    match validateErrs (cfTemplate (context c)) with
    | [] => mret (Some ensureCloudFormationStack, None)
    | errs =>
        mret (None, Some (errorString ("Problems validating template contents: "
                                       +:+ fmt_v_errors errs)))
    end).

(** [createUploadStep] *)
Definition createUploadStep (packagePath : string) : workflowStep :=
  WorkflowStep (
    c ← get;
    defer (recordDuration "Uploading code")
      (let uploadBinaryTask : M (option s3UploadURL * option error) :=
         '(zipS3URL, zipS3URLErr) ← uploadLocalFileToS3 packagePath "";
         match zipS3URLErr with
         | Some e => mret (None, Some e)
         | None =>
             modify (set_s3CodeZipURL (newS3UploadURL zipS3URL));;
             mret (newS3UploadURL zipS3URL, None)
         end in
       let uploadSiteTask (site : S3Site) : M (option s3UploadURL * option error) :=
         let tempName := serviceName (user c) +:+ "-S3Site.zip" in
         let tmpFile := temporaryFileName W tempName in
         orReturn (ext (TemporaryFile tempName))
           (λ e, (None, Some (errors_Wrapf e
                                "Failed to create temporary S3 site archive file")))
         (orReturn (ext (FilepathAbs (resources site)))
           (λ e, (None, Some (errors_Wrapf e "Failed to get absolute filepath")))
         (orReturn (ext (OsStat (resources site)))
           (λ e, (None, Some (errors_Wrapf e
                                ("TheS3 Site resources directory (" +:+ resources site
                                 +:+ ") does not exist"))))
         (orReturn (ext (AddToZip (resources site))) (λ e, (None, Some e))
         (orReturn (ext (ArchiveClose tmpFile)) (λ e, (None, Some e))
         (orReturnV (uploadLocalFileToS3 tmpFile "")
            (λ e, (None, Some (errors_Wrapf e "Failed to upload local file to S3")))
            (λ s3SiteLambdaZipURL,
               modify (set_siteUploadURL (newS3UploadURL s3SiteLambdaZipURL));;
               mret (newS3UploadURL s3SiteLambdaZipURL, None))))))) in
       let uploadTasks :=
         (match lambdaAWSInfos (user c) with
          | [] => []
          | _ => [uploadBinaryTask]
          end)
         ++ (match s3Site (siteContext (user c)) with
             | None => []
             | Some site => [uploadSiteTask site]
             end) in
       '(_, uploadErrors) ← workerPool_Run uploadTasks;
       match uploadErrors with
       | [] => mret (Some validateSpartaPostconditions, None)
       | _ =>
           mret (None, Some (errorString ("Encountered multiple errors during upload: "
                                          +:+ fmt_v_errors uploadErrors)))
       end)).

(** [createPackageStep] *)
Definition createPackageStep : workflowStep :=
  WorkflowStep (
    c ← get;
    let fail := λ e : error, (@None workflowStep, Some e) in
    let hooksOr (f : WorkflowHooks → M (option error)) : M (option error) :=
      match workflowHooks (user c) with
      | Some hooks => f hooks
      | None => mret None
      end in
    defer (recordDuration "Creating code bundle")
      (orReturn (hooksOr (λ hooks, callWorkflowHook "PreBuild" (PreBuild hooks)
                                                    (PreBuilds hooks)))
         fail
      (orReturn (ext (BuildGoBinary (serviceName (user c)) (binaryName (context c)))) fail
      (* Cleanup the temporary binary *)
      (defer (ext (OsRemove (binaryName (context c)));; mret ())
      (orReturn (hooksOr (λ hooks, callWorkflowHook "PostBuild" (PostBuild hooks)
                                                    (PostBuilds hooks)))
         fail
      (let tempName := sanitizedName W (serviceName (user c)) +:+ "-code.zip" in
       let tmpFile := temporaryFileName W tempName in
       orReturn (ext (TemporaryFile tempName)) fail
      (orReturn callArchiveHook fail
      (orReturn (ext (AnnotateAddToZip (binaryName (context c)))) fail
      (orReturn (ext (ArchiveClose tmpFile)) fail
      (orReturn (ext (FileClose tmpFile)) fail
         (mret (Some (createUploadStep tmpFile), None)))))))))))).

(** [verifyAWSPreconditions].  The closing block that compares the key
    sets of the CodePipeline environments only logs a warning. *)
Definition verifyAWSPreconditions : workflowStep :=
  WorkflowStep (
    c ← get;
    let fail := λ e : error, (@None workflowStep, Some e) in
    defer (recordDuration "Verifying AWS preconditions")
      (orReturn
         (if noop (user c) then
            (* If this a NOOP, assume that versioning is not enabled *)
            mret None
          else
            match lambdaAWSInfos (user c) with
            | [] => mret None
            | _ :: _ =>
                orReturn (ext (BucketVersioningEnabled (s3Bucket (user c)))) Some
                  (let isEnabled := versioningEnabled W (s3Bucket (user c)) in
                   modify (set_s3BucketVersioningEnabled isEnabled);;
                   if negb (String.eqb (codePipelineTrigger (user c)) "") && negb isEnabled
                   then mret (Some (errorString
                          ("s3 Bucket (" +:+ s3Bucket (user c) +:+
                           ") for CodePipeline trigger doesn't have a versioning policy enabled")))
                   else
                     orReturn (ext (BucketRegion (s3Bucket (user c))))
                       (λ e, Some (errorString
                          ("failed to determine region for " +:+ s3Bucket (user c)
                           +:+ ". Error: " +:+ Error e)))
                       (let region := bucketRegion W (s3Bucket (user c)) in
                        if negb (String.eqb region (Region (awsSession (context c))))
                        then mret (Some (errorString
                               ("region (" +:+ Region (awsSession (context c))
                                +:+ ") does not match bucket region (" +:+ region +:+ ")")))
                        else mret None))
            end)
         fail
         (mret (Some createPackageStep, None)))).

(** The block of [verifyIAMRoles] that validates one inline
    [IAMRoleDefinition]: a logical name that is not in the role map yet
    is added to the template and to the map. *)
Definition registerRoleDefinition (definition : IAMRoleDefinition)
    (targetLambdaFnName : string) : M unit :=
  c ← get;
  let name := logicalName W definition (serviceName (user c)) targetLambdaFnName in
  match lambdaIAMRoleNameMap (context c) !! name with
  | Some _ => mret ()
  | None =>
      emit (evAddResource name);;
      modify (set_cfTemplate (AddResource name (IAMRole definition)
                                          (cfTemplate (context c))));;
      modify (set_lambdaIAMRoleNameMap
                (<[name := gocf_GetAtt name "Arn"]> (lambdaIAMRoleNameMap (context c))))
  end.

(** The two blocks of the first loop that validate the inline
    definitions of one lambda function: its own, then those of its custom
    resources. *)
Definition registerCustomRoles (customs : list customResourceInfo) : M (option error) :=
  forRange customs
    (λ eachCustomResource,
       match roleDefinition eachCustomResource with
       | Some definition =>
           registerRoleDefinition definition (userFunctionName eachCustomResource);;
           mret None
       | None => mret None
       end).

Definition registerInlineRoles (eachLambdaInfo : LambdaAWSInfo) : M (option error) :=
  match RoleDefinition eachLambdaInfo with
  | Some definition => registerRoleDefinition definition (functionName eachLambdaInfo)
  | None => mret ()
  end;;
  registerCustomRoles (customResources eachLambdaInfo).

(** The first loop of [verifyIAMRoles], with its accumulator
    [allRoleNames]. *)
Fixpoint assembleRoleNames (infos : list LambdaAWSInfo) (allRoleNames : list string)
    : M (list string * option error) :=
  match infos with
  | [] => mret (allRoleNames, None)
  | eachLambdaInfo :: rest =>
      let allRoleNames :=
        (if String.eqb (RoleName eachLambdaInfo) "" then allRoleNames
         else allRoleNames ++ [RoleName eachLambdaInfo])
        ++ List.filter (λ n, negb (String.eqb n ""))
                       (roleName <$> customResources eachLambdaInfo) in
      orReturn (if profileDecorator W
                then ext (ProfileDecorator (functionName eachLambdaInfo))
                else mret None)
        (λ e, ([], Some (errors_Wrapf e "Failed to call lambda profile decorator")))
        (registerInlineRoles eachLambdaInfo;;
         assembleRoleNames rest allRoleNames)
  end.

(** The second loop: every literal role name that is not in the map is
    looked up and cached. *)
Definition checkRoleName (eachRoleName : string) : M (option error) :=
  c ← get;
  match lambdaIAMRoleNameMap (context c) !! eachRoleName with
  | Some _ => mret None
  | None =>
      orReturn (ext (GetRole eachRoleName)) Some
        (modify (set_lambdaIAMRoleNameMap
                   (<[eachRoleName := gocf_String (roleArn W eachRoleName)]>
                      (lambdaIAMRoleNameMap (context c))));;
         mret None)
  end.

(** [verifyIAMRoles] *)
Definition verifyIAMRoles : workflowStep :=
  WorkflowStep (
    c ← get;
    let fail := λ e : error, (@None workflowStep, Some e) in
    defer (recordDuration "Verifying IAM roles")
      (modify (set_lambdaIAMRoleNameMap ∅);;
       orReturnV (assembleRoleNames (lambdaAWSInfos (user c)) []) fail
         (λ allRoleNames,
            orReturn (forRange allRoleNames checkRoleName) fail
              (mret (Some verifyAWSPreconditions, None))))).

(** The step loop of [Provision].  Its result is the error [Provision]
    returns from inside the loop, [None] when the loop is left by
    [break]. *)
Fixpoint workflowLoop (step : workflowStep) (m : machine) {struct step}
    : outcome (option error) * machine :=
  match step with
  | WorkflowStep run =>
      match run (emit evStep m).2 with
      | (Panics reason, m') => (Panics reason, m')
      | (Returns (_, Some err), m') =>
          (rollback;; mret (Some (errors_Wrapf err "Failed to provision service"))) m'
      | (Returns (None, None), m') => (Returns None, m')
      | (Returns (Some next, None), m') => workflowLoop next m'
      end
  end.

(** The finalizer block that follows the loop. *)
Definition runFinalizers : M unit :=
  c ← get;
  match finalizerFunctions (txn c) with
  | None => mret ()
  | Some fs => forRange fs (λ eachFinalizer, runFinalizer eachFinalizer;; mret None);; mret ()
  end.

(** The [workflowContext] that [Provision] builds from its arguments. *)
Definition newWorkflowContext (noop : bool) (serviceName serviceDescription : string)
    (lambdaAWSInfos : list LambdaAWSInfo) (api : option string) (site : option S3Site)
    (s3Bucket : string) (useCGO inPlaceUpdates : bool)
    (buildID codePipelineTrigger buildTags linkerFlags : string)
    (templateWriter : bool) (workflowHooks : option WorkflowHooks) : workflowContext :=
  {| user := {| noop := noop; useCGO := useCGO; inPlace := inPlaceUpdates;
                buildID := buildID; buildTags := buildTags;
                linkFlags := linkerFlags; serviceName := serviceName;
                serviceDescription := serviceDescription;
                lambdaAWSInfos := lambdaAWSInfos;
                workflowHooks := workflowHooks;
                codePipelineTrigger := codePipelineTrigger; api := api;
                siteContext := {| s3Site := site; s3UploadURL_ := None |};
                s3Bucket := s3Bucket |};
     context := {| s3CodeZipURL := None; awsSession := NewSession W;
                   lambdaIAMRoleNameMap := ∅;
                   templateWriter := templateWriter;
                   cfTemplate := gocf_NewTemplate;
                   s3BucketVersioningEnabled := false;
                   binaryName := SpartaBinaryName W |};
     txn := {| rollbackFunctions := []; finalizerFunctions := None;
               stepDurations := [] |} |}.

(** [Provision].  The result is the returned error and the final state
    of the run. *)
Definition Provision (noop : bool) (serviceName serviceDescription : string)
    (lambdaAWSInfos : list LambdaAWSInfo) (api : option string) (site : option S3Site)
    (s3Bucket : string) (useCGO inPlaceUpdates : bool)
    (buildID codePipelineTrigger buildTags linkerFlags : string)
    (templateWriter : bool) (workflowHooks : option WorkflowHooks)
    : outcome (option error) * machine :=
  let start :=
    {| ctx := newWorkflowContext noop serviceName serviceDescription lambdaAWSInfos
                api site s3Bucket useCGO inPlaceUpdates buildID codePipelineTrigger
                buildTags linkerFlags templateWriter workflowHooks;
       trace := [] |} in
  match validateSpartaPreconditions W lambdaAWSInfos with
  | Some err => (Returns (Some (errors_Wrapf err "Failed to validate preconditions")), start)
  | None =>
      (orReturn
         (match lambdaAWSInfos with
          | [] =>
              match workflowHooks with
              | None =>
                  mret (Some (errors_New "No lambda functions provided to Sparta.Provision()"))
              | Some _ =>
                  emit (evWarn "No lambda functions provided to Sparta.Provision()");;
                  mret None
              end
          | _ :: _ => mret None
          end)
         Some
         (r ← workflowLoop verifyIAMRoles;
          match r with
          | Some e => mret (Some e)
          | None =>
              (* When we're done, execute any finalizers *)
              runFinalizers;; mret None
          end)) start
  end.

End Workflow.

(** ** Sample environments and inputs *)

(** Sample environments: an unversioned bucket, a session in [us-west-2],
    a clock that advances by one second per action, upload locations of
    the usual S3 form, and a service decorator [addHello] that adds the
    lambda function [HelloLambda] to the template.  [calmWorld] is the one
    in which no collaborator fails and the bucket lives in the session's
    region. *)
Definition afterHost (u : string) : string :=
  let rest := String.substring 8 (String.length u - 8) u in
  match String.index 0 "/" rest with
  | Some i => String.substring i (String.length rest - i) rest
  | None => ""
  end.

Definition helloFunction : ResourceProperties :=
  LambdaFunction (Some {| Variables := VariablesMap
    {[ "SPARTA_DISCOVERY_INFO" := "{}"; "SPARTA_LOG_LEVEL" := "info" ]} |}).

Definition sampleWorld (failing : call → option error) (region : string)
    (changes : option (list ResourceChange)) : World :=
  {| fails := failing;
     roleArn := λ n, "arn:aws:iam::000000000000:role/" +:+ n;
     versioningEnabled := λ _, false;
     bucketRegion := λ _, region;
     uploadedLocation := λ _ bucket key, "https://" +:+ bucket +:+ ".s3.amazonaws.com/" +:+ key;
     temporaryFileName := λ n, ".sparta/" +:+ n;
     discoveryInfo := λ n, gocf_String ("discovery:" +:+ n);
     changeSet := changes;
     describedStacks := [{| StackName := "svc"; StackId := "stack/1" |}];
     convergedStack := {| StackName := "svc"; StackId := "stack/1" |};
     templateAfter := λ c t, match c with
                             | DecorateService h =>
                                 if String.eqb h "addHello"
                                 then AddResource "HelloLambda" helloFunction t
                                 else t
                             | _ => t
                             end;
     urlParse := λ u, Some (afterHost u, []);
     UnixNano := λ n, 1572764400000000000 + 1000000000 * Z.of_nat n;
     validateSpartaPreconditions := λ _, None;
     profileDecorator := false;
     sanitizedName := λ n, n;
     CloudFormationResourceName := λ n, n;
     codePipelineEnvironments := None;
     envVarDiscoveryInformation := "SPARTA_DISCOVERY_INFO";
     envVarLogLevel := "SPARTA_LOG_LEVEL";
     SpartaBinaryName := "Sparta.lambda.amd64";
     NewSession := {| Region := "us-west-2" |};
     logicalName := λ _ service fn, "IAMRole" +:+ service +:+ fn |}.

Definition calmWorld : World := sampleWorld (λ _, None) "us-west-2" None.

(** The role lookup fails. *)
Definition noSuchRoleWorld : World :=
  sampleWorld (λ c, match c with
                    | GetRole _ => Some (errorString "NoSuchEntity: role not found")
                    | _ => None
                    end) "us-west-2" None.

(** The upload to the bucket fails. *)
Definition uploadFailsWorld : World :=
  sampleWorld (λ c, match c with
                    | UploadLocalFileToS3 _ _ _ =>
                        Some (errorString "RequestError: send request failed")
                    | _ => None
                    end) "us-west-2" None.

(** The bucket lives in [us-east-1], the session in [us-west-2]. *)
Definition eastBucketWorld : World := sampleWorld (λ _, None) "us-east-1" None.

(** The change set of an in-place update reports one modified function and
    one added bucket. *)
Definition functionChange : ResourceChange :=
  {| Action := "Modify"; ResourceType := "AWS::Lambda::Function";
     LogicalResourceId := "HelloLambda"; PhysicalResourceId := "svc-hello" |}.

Definition bucketChange : ResourceChange :=
  {| Action := "Add"; ResourceType := "AWS::S3::Bucket";
     LogicalResourceId := "Assets"; PhysicalResourceId := "" |}.

Definition mixedChangesWorld : World :=
  sampleWorld (λ _, None) "us-west-2" (Some [functionChange; bucketChange]).

(** Hooks without any handler. *)
Definition noHandlers : WorkflowHooks :=
  {| PreBuild := None; PreBuilds := []; PostBuild := None; PostBuilds := [];
     Archive := None; Archives := []; ServiceDecorator := None; ServiceDecorators := [];
     Rollback := None; Rollbacks := []; PreMarshall := None; PreMarshalls := [];
     PostMarshall := None; PostMarshalls := []; Validators := [] |}.

(** Hooks whose only handler is the service decorator [addHello]. *)
Definition helloDecorator : WorkflowHooks :=
  {| PreBuild := None; PreBuilds := []; PostBuild := None; PostBuilds := [];
     Archive := None; Archives := []; ServiceDecorator := None;
     ServiceDecorators := ["addHello"];
     Rollback := None; Rollbacks := []; PreMarshall := None; PreMarshalls := [];
     PostMarshall := None; PostMarshalls := []; Validators := [] |}.

(** Two lambda functions: one with an inline role definition, one that
    names, as its literal role, the logical name of that definition. *)
Definition inlineRoleLambda : LambdaAWSInfo :=
  {| functionName := "hello"; RoleName := "";
     RoleDefinition := Some {| roleTag := 0 |}; customResources := [] |}.

Definition namedRoleLambda : LambdaAWSInfo :=
  {| functionName := "world"; RoleName := "IAMRolesvchello";
     RoleDefinition := None; customResources := [] |}.

Definition helloLambda : LambdaAWSInfo :=
  {| functionName := "hello"; RoleName := "lambdaRole"; RoleDefinition := None;
     customResources := [] |}.

(** A second function with the role of [helloLambda], and a custom
    resource that names it too. *)
Definition workerLambda : LambdaAWSInfo :=
  {| functionName := "worker"; RoleName := "lambdaRole"; RoleDefinition := None;
     customResources :=
       [{| roleName := "lambdaRole"; roleDefinition := None;
           userFunctionName := "helper";
           options_Environment := Some {[ "STAGE" := gocf_String "test" ]} |}] |}.

(** ** Vocabulary of the properties *)

(** The events a workflow step produces by itself; [evStep], [evRollback],
    [evFinalizer] and [evWarn] belong to [Provision]. *)
Definition stepEvent (e : event) : Prop :=
  match e with
  | evCall _ | evClock | evAddResource _ => True
  | _ => False
  end.

Definition loopEvent (e : event) : Prop := stepEvent e ∨ e = evStep.

Definition is_evStep (e : event) : bool :=
  match e with evStep => true | _ => false end.

Definition is_evRollback (e : event) : bool :=
  match e with evRollback => true | _ => false end.

Definition is_evFinalizer (e : event) : bool :=
  match e with evFinalizer _ => true | _ => false end.

Definition is_remoteCall (e : event) : bool :=
  match e with evCall c => is_remote c | _ => false end.

Definition is_GetRole (name : string) (e : event) : bool :=
  match e with evCall (GetRole n) => String.eqb n name | _ => false end.

Definition is_AddResource (name : string) (e : event) : bool :=
  match e with evAddResource n => String.eqb n name | _ => false end.

Definition is_UpdateFunctionCode (e : event) : bool :=
  match e with evCall (UpdateFunctionCode _) => true | _ => false end.

(** How often an event of a kind occurs. *)
Definition occurrences (kind : event → bool) (es : list event) : nat :=
  length (List.filter kind es).

(** [emits P Q x]: whatever the state, [x] only appends events that
    satisfy [P] to the trace, and a returned value satisfies [Q]. *)
Definition emits (P : event → Prop) {A} (Q : A → Prop) (x : M A) : Prop :=
  ∀ m, ∃ es, trace (x m).2 = trace m ++ es ∧ Forall P es ∧
             match (x m).1 with
             | Returns a => Q a
             | Panics _ => True
             end.

(** A step is quiet when it produces step events only and hands over to a
    quiet step. *)
Fixpoint quietStep (step : workflowStep) : Prop :=
  match step with
  | WorkflowStep run =>
      ∀ m, ∃ es, trace (run m).2 = trace m ++ es ∧ Forall stepEvent es ∧
                 match (run m).1 with
                 | Returns (Some next, _) => quietStep next
                 | _ => True
                 end
  end.

Definition quietResult (r : option workflowStep * option error) : Prop :=
  match r.1 with
  | Some next => quietStep next
  | None => True
  end.

(** [runsTo first m k r m']: in the chain started with step [first] in
    state [m], the steps before the [k]-th one (counted from 0) return a
    next step and no error, the [k]-th one is invoked and returns [r],
    leaving state [m']. *)
Inductive runsTo : workflowStep → machine → nat →
                   option workflowStep * option error → machine → Prop :=
| runsTo_here step m r m' :
    runStep step (emit evStep m).2 = (Returns r, m') →
    runsTo step m 0 r m'
| runsTo_next step m next m1 k r m' :
    runStep step (emit evStep m).2 = (Returns (Some next, None), m1) →
    runsTo next m1 k r m' →
    runsTo step m (S k) r m'.

(** What [rollback] and the finalizer block add to the trace in a given
    context. *)
Definition rollbackCall (f : RollbackFunction) : call :=
  match f with
  | S3RollbackFunc uploadLocation => S3DeleteObject uploadLocation
  end.

Definition rollbackEvents (c : workflowContext) : list event :=
  evRollback
  :: ((λ h, evCall (RollbackHook h))
        <$> match workflowHooks (user c) with
            | Some hooks => allHooks (Rollback hooks) (Rollbacks hooks)
            | None => []
            end)
  ++ ((λ f, evCall (rollbackCall f)) <$> rollbackFunctions (txn c)).

Definition finalizerEvents (c : workflowContext) : list event :=
  flat_map (λ f, [evFinalizer f;
                  evCall (match f with fileCleanup localPath => OsRemove localPath end)])
           (default [] (finalizerFunctions (txn c))).

(** The run of [Provision] on given arguments. *)
Section ProvisionRun.

Variables (W : World) (noop : bool) (serviceName serviceDescription : string)
  (lambdaAWSInfos : list LambdaAWSInfo) (api : option string) (site : option S3Site)
  (s3Bucket : string) (useCGO inPlaceUpdates : bool)
  (buildID codePipelineTrigger buildTags linkerFlags : string)
  (templateWriter : bool) (workflowHooks : option WorkflowHooks).

(** The state in which the step loop is entered. *)
Definition loopEntry : machine :=
  {| ctx := newWorkflowContext W noop serviceName serviceDescription lambdaAWSInfos
              api site s3Bucket useCGO inPlaceUpdates buildID codePipelineTrigger
              buildTags linkerFlags templateWriter workflowHooks;
     trace := match lambdaAWSInfos with
              | [] => [evWarn "No lambda functions provided to Sparta.Provision()"]
              | _ :: _ => []
              end |}.

(** The checks in front of the loop pass. *)
Definition reachesLoop : Prop :=
  validateSpartaPreconditions W lambdaAWSInfos = None
  ∧ (lambdaAWSInfos ≠ [] ∨ workflowHooks ≠ None).

(** In this run the [k]-th step of the workflow is invoked and returns
    [r], leaving state [m1]. *)
Definition stepReturns (k : nat) (r : option workflowStep * option error)
    (m1 : machine) : Prop :=
  reachesLoop ∧ runsTo (verifyIAMRoles W) loopEntry k r m1.

End ProvisionRun.

(** The claim about the post-condition check counts, per resource, the
    required environment variables the resource does not carry; this
    follows the words of the specification. *)
Definition missingVariables (W : World) (properties : ResourceProperties) : list string :=
  match properties with
  | LambdaFunction None => requiredEnvVars W
  | LambdaFunction (Some environment) =>
      match Variables environment with
      | VariablesMap vars | VariablesStringMap vars =>
          List.filter (λ k, bool_decide (vars !! k = None)) (requiredEnvVars W)
      | VariablesNil => requiredEnvVars W
      end
  | _ => []
  end.

(** The number of entries the check reports for a resource: one for a
    function without environment, one for variables that are not a
    [map[string]interface{}], otherwise one per required key that is not
    in the map. *)
Definition reportedEntries (W : World) (properties : ResourceProperties) : nat :=
  match properties with
  | LambdaFunction None => 1
  | LambdaFunction (Some environment) =>
      match Variables environment with
      | VariablesMap vars =>
          length (List.filter (λ k, bool_decide (vars !! k = None)) (requiredEnvVars W))
      | _ => 1
      end
  | _ => 0
  end.

(** Templates for the examples: a function resource without environment,
    and one whose variables are a [map[string]string] holding both
    required keys. *)
Definition bareFunctionTemplate : Template :=
  {| Resources := {[ "Hello" := LambdaFunction None ]} |}.

Definition stringMapTemplate : Template :=
  {| Resources :=
       {[ "Hello" := LambdaFunction (Some {| Variables := VariablesStringMap
            {[ "SPARTA_DISCOVERY_INFO" := "{}"; "SPARTA_LOG_LEVEL" := "info" ]} |}) ]} |}.

(** The changes an in-place update accepts, the request it builds for one,
    and the line it reports for any other change. *)
Definition isFunctionCodeChange (change : ResourceChange) : bool :=
  String.eqb (Action change) "Modify"
  && String.eqb (ResourceType change) "AWS::Lambda::Function".

Definition updateRequest (c : workflowContext) (u : s3UploadURL)
    (change : ResourceChange) : UpdateFunctionCodeInput :=
  {| FunctionName := PhysicalResourceId change;
     S3Bucket := s3Bucket (user c);
     S3Key := path u;
     S3ObjectVersion := if String.eqb (version u) "" then None else Some (version u) |}.

Definition describeChange (change : ResourceChange) : string :=
  Action change +:+ " for " +:+ LogicalResourceId change
  +:+ " (ResourceType: " +:+ ResourceType change +:+ ")".

Definition unsupportedChanges (changes : list ResourceChange) : error :=
  errorString ("unsupported in-place operations detected:" +:+ newline +:+ tab +:+
               strings_Join (describeChange <$> List.filter (λ ch, negb (isFunctionCodeChange ch))
                                                           changes)
                            ("," +:+ newline +:+ tab)).

Definition nilDereference : string := "invalid memory address or nil pointer dereference".

(** Role resolution.  The literal role names and the logical names of the
    inline role definitions of a list of lambda functions, in the order in
    which [verifyIAMRoles] meets them. *)
Definition literalRoleNames (infos : list LambdaAWSInfo) : list string :=
  flat_map (λ info,
              (if String.eqb (RoleName info) "" then [] else [RoleName info])
              ++ List.filter (λ n, negb (String.eqb n "")) (roleName <$> customResources info))
           infos.

Definition customRoleNames (W : World) (service : string)
    (customs : list customResourceInfo) : list string :=
  flat_map (λ custom,
              match roleDefinition custom with
              | Some definition => [logicalName W definition service (userFunctionName custom)]
              | None => []
              end)
           customs.

Definition inlineRoleNamesOf (W : World) (service : string) (info : LambdaAWSInfo)
    : list string :=
  match RoleDefinition info with
  | Some definition => [logicalName W definition service (functionName info)]
  | None => []
  end
  ++ customRoleNames W service (customResources info).

Definition inlineRoleNames (W : World) (service : string) (infos : list LambdaAWSInfo)
    : list string :=
  flat_map (inlineRoleNamesOf W service) infos.

(** The names of a list that are not in [seen], each at its first
    occurrence. *)
Fixpoint fresh (names : list string) (seen : gset string) : list string :=
  match names with
  | [] => []
  | name :: rest =>
      if decide (name ∈ seen) then fresh rest seen
      else name :: fresh rest ({[name]} ∪ seen)
  end.

(** The resources added and the roles looked up by a stretch of trace. *)
Definition addedResources (es : list event) : list string :=
  omap (λ e, match e with evAddResource name => Some name | _ => None end) es.

Definition roleLookups (es : list event) : list string :=
  omap (λ e, match e with evCall (GetRole name) => Some name | _ => None end) es.

(** Dry runs.  The facts a dry run keeps true of the context, and the
    events it can produce: step events other than an upload to the
    bucket. *)
Definition dryRun (c : workflowContext) : Prop :=
  noop (user c) = true
  ∧ s3BucketVersioningEnabled (context c) = false
  ∧ rollbackFunctions (txn c) = [].

Definition dryEvent (e : event) : Prop :=
  match e with
  | evCall (UploadLocalFileToS3 _ _ _) | evCall (S3DeleteObject _) => False
  | evCall _ | evClock | evAddResource _ => True
  | _ => False
  end.

Definition noUpload (e : event) : Prop :=
  match e with
  | evCall (UploadLocalFileToS3 _ _ _) | evCall (S3DeleteObject _) => False
  | _ => True
  end.

(** [keeps Q x]: started in a dry-run context, [x] appends dry-run events
    only, ends in a dry-run context, and a returned value satisfies [Q]. *)
Definition keeps {A} (Q : A → Prop) (x : M A) : Prop :=
  ∀ m, dryRun (ctx m) →
       ∃ es, trace (x m).2 = trace m ++ es ∧ Forall dryEvent es ∧ dryRun (ctx (x m).2) ∧
             match (x m).1 with
             | Returns a => Q a
             | Panics _ => True
             end.

Fixpoint dryStep (step : workflowStep) : Prop :=
  match step with
  | WorkflowStep run =>
      ∀ m, dryRun (ctx m) →
           ∃ es, trace (run m).2 = trace m ++ es ∧ Forall dryEvent es
                 ∧ dryRun (ctx (run m).2) ∧
                 match (run m).1 with
                 | Returns (Some next, _) => dryStep next
                 | _ => True
                 end
  end.

Definition dryResult (r : option workflowStep * option error) : Prop :=
  match r.1 with
  | Some next => dryStep next
  | None => True
  end.

(** ** Vocabulary of the run invariant *)

(** A custom resource without the discovery entry of its environment,
    the one thing the workflow writes in a descriptor. *)
Definition forgetDiscovery (key : string) (r : customResourceInfo) : customResourceInfo :=
  {| roleName := roleName r; roleDefinition := roleDefinition r;
     userFunctionName := userFunctionName r;
     options_Environment := delete key <$> options_Environment r |}.

(** The user data without what the workflow writes there: the upload
    location of the site archive, and the discovery entry (under [key])
    of the custom resources. *)
Definition forgetWrites (key : string) (u : userdata) : userdata :=
  {| noop := noop u; useCGO := useCGO u; inPlace := inPlace u; buildID := buildID u;
     buildTags := buildTags u; linkFlags := linkFlags u; serviceName := serviceName u;
     serviceDescription := serviceDescription u;
     lambdaAWSInfos := set_customResources (fmap (forgetDiscovery key)) <$> lambdaAWSInfos u;
     workflowHooks := workflowHooks u; codePipelineTrigger := codePipelineTrigger u;
     api := api u;
     siteContext := {| s3Site := s3Site (siteContext u); s3UploadURL_ := None |};
     s3Bucket := s3Bucket u |}.

(** The rollback function a recorded event calls for: one per upload
    that succeeded. *)
Definition uploadRollback (W : World) (e : event) : option RollbackFunction :=
  match e with
  | evCall (UploadLocalFileToS3 localPath bucket key) =>
      match fails W (UploadLocalFileToS3 localPath bucket key) with
      | None => Some (S3RollbackFunc (uploadedLocation W localPath bucket key))
      | Some _ => None
      end
  | _ => None
  end.

Definition uploadRollbacks (W : World) (es : list event) : list RollbackFunction :=
  omap (uploadRollback W) es.

Definition deletedObject (e : event) : option string :=
  match e with
  | evCall (S3DeleteObject uploadLocation) => Some uploadLocation
  | _ => None
  end.

Definition uploadLocationOf (f : RollbackFunction) : string :=
  match f with S3RollbackFunc uploadLocation => uploadLocation end.

(** Calls by kind. *)
Definition is_converge (c : call) : bool :=
  match c with ConvergeStackState _ _ _ => true | _ => false end.

Definition is_inPlaceCall (c : call) : bool :=
  match c with
  | CreateStackChangeSet _ _ _ | UpdateFunctionCode _ | DeleteChangeSet _ _
  | DescribeStacks _ => true
  | _ => false
  end.

Definition is_stackOperation (c : call) : bool := is_converge c || is_inPlaceCall c.

Definition is_roleLookup (c : call) : bool :=
  match c with GetRole _ => true | _ => false end.

(** What a run with user data [u0] may do: a dry run makes no remote call
    but role lookups, a run with a CodePipeline trigger leaves the stack
    alone, an in-place run does not converge the stack and any other run
    makes no in-place call. *)
Definition permitted (u0 : userdata) (e : event) : Prop :=
  match e with
  | evCall c =>
      (noop u0 = true → is_remote c = true → is_roleLookup c = true)
      ∧ (codePipelineTrigger u0 ≠ "" → is_stackOperation c = false)
      ∧ (inPlace u0 = true → is_converge c = false)
      ∧ (inPlace u0 = false → is_inPlaceCall c = false)
  | _ => True
  end.

(** The invariant of a run of [Provision] called with user data [u0]. *)
Definition wellRun (W : World) (u0 : userdata) (m : machine) : Prop :=
  forgetWrites (envVarDiscoveryInformation W) (user (ctx m))
    = forgetWrites (envVarDiscoveryInformation W) u0
  ∧ rollbackFunctions (txn (ctx m)) = uploadRollbacks W (trace m)
  ∧ (noop u0 = true → s3BucketVersioningEnabled (context (ctx m)) = false)
  ∧ Forall (permitted u0) (trace m)
  ∧ omap deletedObject (trace m) = [].

(** What the invariant says of a context read with [get]. *)
Definition wellRead (W : World) (u0 : userdata) (c : workflowContext) : Prop :=
  forgetWrites (envVarDiscoveryInformation W) (user c)
    = forgetWrites (envVarDiscoveryInformation W) u0
  ∧ (noop u0 = true → s3BucketVersioningEnabled (context c) = false).

(** [maintains I Q x]: started in a state that satisfies [I], [x] ends in
    one, and a returned value satisfies [Q]. *)
Definition maintains (I : machine → Prop) {A} (Q : A → Prop) (x : M A) : Prop :=
  ∀ m, I m → I (x m).2 ∧ match (x m).1 with
                          | Returns a => Q a
                          | Panics _ => True
                          end.

(** [chain I n step]: [step] maintains [I], and exactly [n] further steps
    follow it in a run in which no step fails. *)
Definition chainResult (chain : workflowStep → Prop) (n : nat)
    (r : option workflowStep * option error) : Prop :=
  match r with
  | (Some next, None) => chain next
  | (None, None) => n = 0%nat
  | _ => True
  end.

Fixpoint chain (I : machine → Prop) (n : nat) (step : workflowStep) {struct n} : Prop :=
  match step with
  | WorkflowStep run =>
      maintains I (chainResult (match n with
                                | S n' => chain I n'
                                | O => λ _, False
                                end) n) run
  end.


(** ** Vocabulary of the further properties *)


Definition rollbackHookCall (e : event) : option handler :=
  match e with
  | evCall (RollbackHook h) => Some h
  | _ => None
  end.

(** The rollback hooks of the user data, in the order in which
    [callRollbackHook] starts them. *)
Definition rollbackHooks (u : userdata) : list handler :=
  match workflowHooks u with
  | Some hooks => allHooks (Rollback hooks) (Rollbacks hooks)
  | None => []
  end.

(** The calls a validation hook costs: its private copy of the template,
    then the hook. *)
Definition validationCalls (h : handler) : list event :=
  [evCall JSONUnmarshalTemplate; evCall (ValidateService h)].


(** Sample environments of the further properties *)

Definition failingHookWorld : World :=
  sampleWorld (λ c, match c with
                    | DecorateWorkflow _ h =>
                        if String.eqb h "lint" then Some (errorString "lint failed") else None
                    | _ => None
                    end) "us-west-2" None.


Definition failingValidatorWorld : World :=
  sampleWorld (λ c, match c with
                    | ValidateService h =>
                        if String.eqb h "budget" then Some (errorString "over budget")
                        else None
                    | _ => None
                    end) "us-west-2" None.

(** The function-code updates a stretch of trace has asked for. *)
Definition updateRequestOf (e : event) : option UpdateFunctionCodeInput :=
  match e with
  | evCall (UpdateFunctionCode request) => Some request
  | _ => None
  end.

(** An in-place update of two functions. *)
Definition worldChange : ResourceChange :=
  {| Action := "Modify"; ResourceType := "AWS::Lambda::Function";
     LogicalResourceId := "WorldLambda"; PhysicalResourceId := "svc-world" |}.

Definition codeChangesWorld : World :=
  sampleWorld (λ _, None) "us-west-2" (Some [functionChange; worldChange]).

(** A template with a CloudFront distribution. *)
Definition siteTemplate : Template :=
  {| Resources := {[ "HelloLambda" := helloFunction;
                     "CDN" := OtherResource "AWS::CloudFront::Distribution" ]} |}.

(** The state of an in-place run after the code archive has been
    uploaded. *)
Definition uploadedArchive : s3UploadURL :=
  {| location := "https://bucket.s3.amazonaws.com/svc/code.zip?versionId=7";
     path := "svc/code.zip"; version := "7" |}.

Definition afterUpload (W : World) : machine :=
  {| ctx := set_s3CodeZipURL (Some uploadedArchive)
              (newWorkflowContext W false "svc" "" [helloLambda] None None "bucket"
                                  false true "b1" "" "" "" false None);
     trace := [] |}.

(** Events by kind, and the objects and finalizers a stretch of trace
    names. *)
Definition is_stackCall (e : event) : bool :=
  match e with evCall c => is_stackOperation c | _ => false end.

Definition is_convergeCall (e : event) : bool :=
  match e with evCall c => is_converge c | _ => false end.

Definition is_inPlaceEvent (e : event) : bool :=
  match e with evCall c => is_inPlaceCall c | _ => false end.

(** The locations of the objects uploaded with success. *)
Definition uploadedObjects (W : World) (es : list event) : list string :=
  uploadLocationOf <$> uploadRollbacks W es.

Definition finalizerOf (e : event) : option finalizerFunction :=
  match e with
  | evFinalizer f => Some f
  | _ => None
  end.

(** The hooks of a phase, as [callWorkflowHook] runs them. *)
Definition hookCalls (hookPhase : string) (hs : list handler) : list event :=
  (λ h, evCall (DecorateWorkflow hookPhase h)) <$> hs.

(** A build that fails. *)
Definition buildFailsWorld : World :=
  sampleWorld (λ c, match c with
                    | BuildGoBinary _ _ => Some (errorString "exit status 2")
                    | _ => None
                    end) "us-west-2" None.

(** The role map during role resolution: the logical names of the inline
    definitions registered so far map to a reference to the role resource,
    which is in the template; the literal names looked up so far map to
    the ARN that IAM reported. *)
Definition rolesResolved (W : World) (inline literal : gset string) (m : machine) : Prop :=
  let roles := lambdaIAMRoleNameMap (context (ctx m)) in
  dom roles = inline ∪ literal
  ∧ (∀ n, n ∈ inline →
          roles !! n = Some (gocf_GetAtt n "Arn")
          ∧ ∃ definition,
              Resources (cfTemplate (context (ctx m))) !! n = Some (IAMRole definition))
  ∧ (∀ n, n ∈ literal → n ∉ inline → roles !! n = Some (gocf_String (roleArn W n))).

(** A string without a slash and without a dot: [path.Ext] scans past it. *)
Definition plain (s : string) : Prop :=
  ∀ k c, String.get k s = Some c → Ascii.eqb c "/" = false ∧ Ascii.eqb c "." = false.

(** Hooks in front of the build. *)
Definition lintHooks : WorkflowHooks :=
  {| PreBuild := Some "legacy"; PreBuilds := ["format"; "lint"; "vet"];
     PostBuild := None; PostBuilds := [];
     Archive := None; Archives := []; ServiceDecorator := None; ServiceDecorators := [];
     Rollback := None; Rollbacks := []; PreMarshall := None; PreMarshalls := [];
     PostMarshall := None; PostMarshalls := []; Validators := [] |}.

(** * Properties *)

(** ** Strings *)

Module StringFacts.

Lemma length_append (a b : string) :
  String.length (a +:+ b) = (String.length a + String.length b)%nat.
Proof. induction a as [|c a IH]; simpl; [done | by rewrite IH]. Qed.

Lemma list_of_append (a b : string) :
  list_ascii_of_string (a +:+ b) = list_ascii_of_string a ++ list_ascii_of_string b.
Proof. induction a as [|c a IH]; simpl; [done | by rewrite IH]. Qed.

Lemma list_ascii_of_string_inj (a b : string) :
  list_ascii_of_string a = list_ascii_of_string b → a = b.
Proof.
  intros H. rewrite <- (string_of_list_ascii_of_string a), H.
  apply string_of_list_ascii_of_string.
Qed.

(** Cancellation on both sides of an append. *)
Lemma append_inv_head (p a b : string) : p +:+ a = p +:+ b → a = b.
Proof. induction p as [|c p IH]; simpl; [done | intros [= H]; auto]. Qed.

Lemma append_inv_tail (a b t : string) : a +:+ t = b +:+ t → a = b.
Proof.
  intros H. apply list_ascii_of_string_inj.
  apply (f_equal list_ascii_of_string) in H.
  rewrite !list_of_append in H. by apply app_inv_tail in H.
Qed.

Lemma substring_all (s : string) : String.substring 0 (String.length s) s = s.
Proof. induction s as [|c s IH]; simpl; [done | by rewrite IH]. Qed.

(** [s[:i] + s[i:] = s] *)
Lemma substring_split (s : string) (i : nat) :
  (i ≤ String.length s)%nat →
  String.substring 0 i s +:+ String.substring i (String.length s - i) s = s.
Proof.
  revert i. induction s as [|c s IH]; intros [|i] Hi; simpl in *; try lia.
  - done.
  - by rewrite substring_all.
  - change (String c (String.substring 0 i s
                      +:+ String.substring i (String.length s - i) s) = String c s).
    f_equal. apply IH. lia.
Qed.

Lemma length_substring_head (s : string) (i : nat) :
  (i ≤ String.length s)%nat → String.length (String.substring 0 i s) = i.
Proof.
  revert i. induction s as [|c s IH]; intros [|i] Hi; simpl in *; try lia.
  rewrite IH; lia.
Qed.

Lemma length_substring_tail (s : string) (i : nat) :
  (i ≤ String.length s)%nat →
  String.length (String.substring i (String.length s - i) s) = (String.length s - i)%nat.
Proof.
  intros Hi. pose proof (substring_split s i Hi) as H.
  apply (f_equal String.length) in H. rewrite length_append in H.
  rewrite length_substring_head in H by done. lia.
Qed.

(** [path.Ext] returns a tail of its argument. *)
Lemma path_Ext_loop_tail (p : string) (n : nat) :
  ∃ i, (i ≤ String.length p)%nat ∧
       path_Ext_loop p n = String.substring i (String.length p - i) p.
Proof.
  assert (Hempty : ∃ i, (i ≤ String.length p)%nat ∧
                        EmptyString = String.substring i (String.length p - i) p).
  { exists (String.length p). split; [done|]. rewrite Nat.sub_diag.
    clear. induction p; simpl; [done|]. destruct p; simpl in *; done. }
  induction n as [|n IH]; simpl; [done|].
  destruct (String.get n p) as [c|] eqn:Hget; [|done].
  destruct (Ascii.eqb c "/"); [done|].
  destruct (Ascii.eqb c "."); [|done].
  exists n. split; [|done].
  clear -Hget. revert n Hget.
  induction p as [|a p IH]; intros [|n] H; simpl in *; try done; try lia.
  apply IH in H. lia.
Qed.

Lemma TrimSuffix_tail (s : string) (i : nat) :
  (i ≤ String.length s)%nat →
  strings_TrimSuffix s (String.substring i (String.length s - i) s)
  = String.substring 0 i s.
Proof.
  intros Hi. unfold strings_TrimSuffix, strings_HasSuffix.
  rewrite length_substring_tail by done.
  replace (String.length s - (String.length s - i))%nat with i by lia.
  rewrite String.eqb_refl.
  by destruct (Nat.leb_spec (String.length s - i) (String.length s)); [|lia].
Qed.

(** The prefix and the extension of the naming policy rebuild the key. *)
Lemma TrimSuffix_Ext (s : string) : strings_TrimSuffix s (path_Ext s) +:+ path_Ext s = s.
Proof.
  unfold path_Ext.
  destruct (path_Ext_loop_tail s (String.length s)) as (i & Hi & ->).
  rewrite TrimSuffix_tail by done. by apply substring_split.
Qed.

(** Hexadecimal encoding loses nothing. *)
Lemma hex_value_digit (n : N) : (n < 16)%N → hex_value (hex_digit n) = n.
Proof.
  destruct n as [|p]; [done|].
  do 4 (destruct p as [p|p|]; try done); lia.
Qed.

Lemma hex_byte_inj (a b : ascii) :
  hex_digit (N_of_ascii a / 16) = hex_digit (N_of_ascii b / 16) →
  hex_digit (N_of_ascii a mod 16) = hex_digit (N_of_ascii b mod 16) →
  a = b.
Proof.
  intros Hhi Hlo.
  pose proof (N_ascii_bounded a) as Ha. pose proof (N_ascii_bounded b) as Hb.
  apply (f_equal hex_value) in Hhi, Hlo.
  rewrite !hex_value_digit in Hhi, Hlo
    by first [apply N.mod_lt; done | apply N.Div0.div_lt_upper_bound; lia].
  rewrite <- (ascii_N_embedding a), <- (ascii_N_embedding b).
  f_equal. rewrite (N.div_mod (N_of_ascii a) 16), (N.div_mod (N_of_ascii b) 16) by done.
  congruence.
Qed.

Lemma hex_EncodeToString_inj (a b : string) :
  hex_EncodeToString a = hex_EncodeToString b → a = b.
Proof.
  revert b. induction a as [|x a IH]; intros [|y b]; simpl; try done.
  intros [= Hhi Hlo Hrest]. f_equal; [by apply hex_byte_inj | by apply IH].
Qed.

Lemma length_hex_EncodeToString (a : string) :
  String.length (hex_EncodeToString a) = (2 * String.length a)%nat.
Proof. induction a as [|x a IH]; simpl; [done | rewrite IH; lia]. Qed.

(** A SHA-1 digest has 20 bytes. *)
Lemma length_sha1_Sum (data : string) : String.length (sha1.Sum data) = 20%nat.
Proof.
  unfold sha1.Sum.
  destruct (fold_left sha1.block _ sha1.init) as [[[[h0 h1] h2] h3] h4].
  reflexivity.
Qed.

(** Decimal printing loses nothing. *)
Lemma fmt_d_inj (a b : Z) : fmt_d a = fmt_d b → a = b.
Proof.
  unfold fmt_d. intros H.
  apply (f_equal NilEmpty.int_of_string) in H. rewrite !NilEmpty.isi in H.
  injection H as H. apply (f_equal Z.of_int) in H. by rewrite !DecimalZ.of_to in H.
Qed.

End StringFacts.

(** ** Traces of monadic code *)

Section Emits.

Context (P : event → Prop).

Local Abbreviation any := (λ _, True).

Lemma emits_ret {A} (Q : A → Prop) (a : A) : Q a → emits P Q (mret a).
Proof. intros HQ m. exists []. by rewrite app_nil_r. Qed.

Lemma emits_bind {A B} (Q1 : A → Prop) (Q : B → Prop) (x : M A) (f : A → M B) :
  emits P Q1 x → (∀ a, Q1 a → emits P Q (f a)) → emits P Q (x ≫= f).
Proof.
  intros Hx Hf m. destruct (Hx m) as (es1 & Ht1 & HP1 & HQ1).
  unfold mbind, M_MBind, M_bind.
  destruct (x m) as [[a|reason] m1]; simpl in *.
  - destruct (Hf a HQ1 m1) as (es2 & Ht2 & HP2 & HQ2).
    exists (es1 ++ es2). rewrite Ht2, Ht1, app_assoc.
    split; [done|]. split; [by apply Forall_app|done].
  - by exists es1.
Qed.

Lemma emits_seq {A B} (Q : B → Prop) (x : M A) (f : A → M B) :
  emits P any x → (∀ a, emits P Q (f a)) → emits P Q (x ≫= f).
Proof. intros Hx Hf. eapply emits_bind; [exact Hx | auto]. Qed.

Lemma emits_weaken {A} (Q1 Q2 : A → Prop) (x : M A) :
  (∀ a, Q1 a → Q2 a) → emits P Q1 x → emits P Q2 x.
Proof.
  intros HQ Hx m. destruct (Hx m) as (es & Ht & HP & H). exists es.
  split; [done|]. split; [done|]. destruct ((x m).1); auto.
Qed.

Lemma emits_emit (e : event) : P e → emits P any (emit e).
Proof. intros He m. exists [e]. simpl. repeat split. by repeat constructor. Qed.

Lemma emits_get (Q : workflowContext → Prop) : (∀ c, Q c) → emits P Q get.
Proof. intros HQ m. exists []. simpl. rewrite app_nil_r. auto. Qed.

Lemma emits_modify f : emits P any (modify f).
Proof. intros m. exists []. simpl. rewrite app_nil_r. auto. Qed.

Lemma emits_panic {A} (Q : A → Prop) reason : emits P Q (panic reason).
Proof. intros m. exists []. simpl. rewrite app_nil_r. auto. Qed.

Lemma emits_orReturn {R} (Q : R → Prop) x (onErr : error → R) k :
  emits P any x → (∀ e, Q (onErr e)) → emits P Q k → emits P Q (orReturn x onErr k).
Proof.
  intros Hx He Hk. unfold orReturn. eapply emits_seq; [exact Hx|].
  intros [e|]; [by apply emits_ret | done].
Qed.

Lemma emits_orReturnV {A R} (Q : R → Prop) (x : M (A * option error))
    (onErr : error → R) k :
  emits P any x → (∀ e, Q (onErr e)) → (∀ a, emits P Q (k a)) →
  emits P Q (orReturnV x onErr k).
Proof.
  intros Hx He Hk. unfold orReturnV. eapply emits_seq; [exact Hx|].
  intros [a [e|]]; simpl; [by apply emits_ret | done].
Qed.

Lemma emits_defer {A} (Q : A → Prop) (d : M unit) (body : M A) :
  emits P any d → emits P Q body → emits P Q (defer d body).
Proof.
  intros Hd Hb m. unfold defer.
  destruct (Hb m) as (es1 & Ht1 & HP1 & HQ1).
  destruct (body m) as [r m1]; simpl in *.
  destruct (Hd m1) as (es2 & Ht2 & HP2 & _).
  exists (es1 ++ es2). rewrite Ht2, Ht1, app_assoc.
  split; [done|]. split; [by apply Forall_app|done].
Qed.

Lemma emits_forRange {A} (l : list A) body :
  (∀ a, emits P any (body a)) → emits P any (forRange l body).
Proof.
  intros Hb. induction l as [|a l IH]; simpl.
  - by apply emits_ret.
  - by apply emits_orReturn.
Qed.

End Emits.

Create HintDb emits.

#[export] Hint Resolve emits_ret emits_get emits_modify emits_panic : emits.

(** One step of a trace argument: peel the outermost construct. *)
Ltac emits_step :=
  first
    [ progress intros
    | match goal with
      | |- emits _ _ (orReturn _ _ _) => apply emits_orReturn
      | |- emits _ _ (orReturnV _ _ _) => apply emits_orReturnV
      | |- emits _ _ (defer _ _) => apply emits_defer
      | |- emits _ _ (forRange _ _) => apply emits_forRange
      | |- emits _ _ (mret _) => apply emits_ret
      | |- emits _ _ get => apply emits_get
      | |- emits _ _ (modify _) => apply emits_modify
      | |- emits _ _ (panic _) => apply emits_panic
      | |- emits _ _ (match ?x with _ => _ end) => destruct x
      | |- emits _ _ (if ?x then _ else _) => destruct x
      | |- emits _ _ (let _ := _ in _) => cbv zeta
      end
    | solve [eauto with emits | unfold quietResult; cbn [fst snd]; eauto with emits]
    | match goal with
      | |- emits _ _ (mbind _ _) => apply emits_seq
      end
    | done ].

Ltac emits_go := repeat emits_step.

Section StepTraces.

Variable W : World.

Local Abbreviation any := (λ _, True).

Lemma emits_ext c : emits stepEvent any (ext W c).
Proof. unfold ext. apply emits_seq; [by apply emits_emit | intros; by apply emits_ret]. Qed.

Lemma emits_timeNow : emits stepEvent any (timeNow W).
Proof. intros m. exists [evClock]. simpl. repeat split. by repeat constructor. Qed.

Lemma emits_keyName u : emits stepEvent any (keyName u).
Proof. destruct u; emits_go. Qed.

Lemma emits_recordDuration name : emits stepEvent any (recordDuration name).
Proof. apply emits_modify. Qed.

Lemma emits_registerRollback f : emits stepEvent any (registerRollback f).
Proof. apply emits_modify. Qed.

Lemma emits_registerFileCleanupFinalizer f :
  emits stepEvent any (registerFileCleanupFinalizer f).
Proof. apply emits_modify. Qed.

Hint Resolve emits_ext emits_timeNow emits_keyName emits_recordDuration
  emits_registerRollback emits_registerFileCleanupFinalizer : emits.

Lemma emits_callServiceDecoratorHook : emits stepEvent any (callServiceDecoratorHook W).
Proof. unfold callServiceDecoratorHook. emits_go. Qed.

Lemma emits_callArchiveHook : emits stepEvent any (callArchiveHook W).
Proof. unfold callArchiveHook. emits_go. Qed.

Lemma emits_callWorkflowHook phase hook hooks :
  emits stepEvent any (callWorkflowHook W phase hook hooks).
Proof. unfold callWorkflowHook. emits_go. Qed.

Lemma emits_callValidationHooks hooks : emits stepEvent any (callValidationHooks W hooks).
Proof. unfold callValidationHooks. emits_go. Qed.

Lemma emits_uploadLocalFileToS3 localPath key :
  emits stepEvent any (uploadLocalFileToS3 W localPath key).
Proof. unfold uploadLocalFileToS3. emits_go. Qed.

Lemma emits_workerPool_Run {A} (tasks : list (M (option A * option error))) :
  Forall (emits stepEvent any) tasks → emits stepEvent any (workerPool_Run tasks).
Proof.
  induction 1 as [|task tasks Htask _ IH]; simpl; emits_go.
Qed.

Hint Resolve emits_callServiceDecoratorHook emits_callArchiveHook emits_callWorkflowHook
  emits_callValidationHooks emits_uploadLocalFileToS3 : emits.

Lemma emits_classifyChanges changes requests invalid :
  emits stepEvent any (classifyChanges changes requests invalid).
Proof.
  revert requests invalid. induction changes as [|change changes IH]; intros; simpl; emits_go.
Qed.

Hint Resolve emits_classifyChanges : emits.

Lemma emits_applyInPlaceFunctionUpdates templateURL :
  emits stepEvent any (applyInPlaceFunctionUpdates W templateURL).
Proof.
  unfold applyInPlaceFunctionUpdates. emits_go.
  apply emits_workerPool_Run. apply Forall_app. split.
  - apply Forall_fmap, Forall_forall. intros request _. simpl. emits_go.
  - repeat constructor. emits_go.
Qed.

Lemma emits_createCodePipelineTriggerPackage :
  emits stepEvent any (createCodePipelineTriggerPackage W).
Proof. unfold createCodePipelineTriggerPackage. emits_go. Qed.

Lemma emits_editTemplate c : emits stepEvent any (editTemplate W c).
Proof. unfold editTemplate. emits_go. Qed.

Hint Resolve emits_applyInPlaceFunctionUpdates emits_createCodePipelineTriggerPackage
  emits_editTemplate : emits.

Lemma quietStep_intro run :
  emits stepEvent quietResult run → quietStep (WorkflowStep run).
Proof.
  intros H m. destruct (H m) as (es & Ht & HP & HQ). exists es.
  split; [done|]. split; [done|].
  destruct ((run m).1) as [[[next|] e]|]; done.
Qed.

Lemma quietStep_elim run m :
  quietStep (WorkflowStep run) →
  ∃ es, trace (run m).2 = trace m ++ es ∧ Forall stepEvent es ∧
        match (run m).1 with
        | Returns (Some next, _) => quietStep next
        | _ => True
        end.
Proof. intros H. apply H. Qed.

Lemma emits_applyCloudFormationOperation :
  emits stepEvent quietResult (applyCloudFormationOperation W).
Proof. unfold applyCloudFormationOperation. emits_go. Qed.

Hint Resolve emits_applyCloudFormationOperation : emits.

Lemma quietStep_ensureCloudFormationStack : quietStep (ensureCloudFormationStack W).
Proof. apply quietStep_intro. emits_go. Qed.

Hint Resolve quietStep_ensureCloudFormationStack : emits.

Lemma quietStep_validateSpartaPostconditions : quietStep (validateSpartaPostconditions W).
Proof. apply quietStep_intro. emits_go. Qed.

Hint Resolve quietStep_validateSpartaPostconditions : emits.

Lemma quietStep_createUploadStep packagePath : quietStep (createUploadStep W packagePath).
Proof.
  apply quietStep_intro. emits_go.
  apply emits_workerPool_Run. apply Forall_app. split.
  - destruct (lambdaAWSInfos (user a)); repeat constructor. emits_go.
  - destruct (s3Site (siteContext (user a))); repeat constructor. emits_go.
Qed.

Hint Resolve quietStep_createUploadStep : emits.

Lemma quietStep_createPackageStep : quietStep (createPackageStep W).
Proof. apply quietStep_intro. emits_go. Qed.

Hint Resolve quietStep_createPackageStep : emits.

Lemma quietStep_verifyAWSPreconditions : quietStep (verifyAWSPreconditions W).
Proof. apply quietStep_intro. emits_go. Qed.

Hint Resolve quietStep_verifyAWSPreconditions : emits.

Lemma emits_registerRoleDefinition definition fn :
  emits stepEvent any (registerRoleDefinition W definition fn).
Proof. unfold registerRoleDefinition. emits_go. by apply emits_emit. Qed.

Hint Resolve emits_registerRoleDefinition : emits.

Lemma emits_registerCustomRoles customs :
  emits stepEvent any (registerCustomRoles W customs).
Proof. unfold registerCustomRoles. emits_go. Qed.

Hint Resolve emits_registerCustomRoles : emits.

Lemma emits_registerInlineRoles info : emits stepEvent any (registerInlineRoles W info).
Proof. unfold registerInlineRoles. emits_go. Qed.

Hint Resolve emits_registerInlineRoles : emits.

Lemma emits_assembleRoleNames infos names :
  emits stepEvent any (assembleRoleNames W infos names).
Proof. revert names. induction infos as [|info infos IH]; intros; simpl; emits_go. Qed.

Lemma emits_checkRoleName name : emits stepEvent any (checkRoleName W name).
Proof. unfold checkRoleName. emits_go. Qed.

Hint Resolve emits_assembleRoleNames emits_checkRoleName : emits.

Lemma quietStep_verifyIAMRoles : quietStep (verifyIAMRoles W).
Proof. apply quietStep_intro. emits_go. Qed.

End StepTraces.

(** ** The step loop *)

(** Induction over a chain of steps: a property holds of a step when it
    holds of every step it can hand over to. *)
Lemma workflowStep_chain_ind (P : workflowStep → Prop) :
  (∀ run, (∀ m next e m', run m = (Returns (Some next, e), m') → P next) →
          P (WorkflowStep run)) →
  ∀ step, P step.
Proof.
  intros H. fix IH 1. intros [run]. apply H. intros m next e m' Heq.
  destruct (run m) as [[[[n|] e0]|reason] m0]; try discriminate.
  pose proof (IH n) as Hn. injection Heq as Hnext _ _. rewrite <- Hnext. exact Hn.
Qed.

Section Loop.

Variable W : World.

Lemma occurrences_app kind (a b : list event) :
  occurrences kind (a ++ b) = (occurrences kind a + occurrences kind b)%nat.
Proof. unfold occurrences. by rewrite List.filter_app, length_app. Qed.

Lemma occurrences_none kind (P : event → Prop) (es : list event) :
  (∀ e, P e → kind e = false) → Forall P es → occurrences kind es = 0%nat.
Proof.
  intros HP. unfold occurrences. induction 1 as [|e es He _ IH]; simpl; [done|].
  by rewrite (HP e He).
Qed.

Lemma stepEvent_loopEvent es : Forall stepEvent es → Forall loopEvent es.
Proof. intros H. eapply Forall_impl; [exact H|]. intros e He. by left. Qed.

(** A loop whose body makes one collaborator call and goes on. *)
Lemma forRange_calls {A} (f : A → call) (body : A → M (option error)) (l : list A) m :
  (∀ a m, body a m = (Returns None, {| ctx := ctx m; trace := trace m ++ [evCall (f a)] |})) →
  forRange l body m
  = (Returns None, {| ctx := ctx m; trace := trace m ++ ((λ a, evCall (f a)) <$> l) |}).
Proof.
  intros Hbody. revert m. induction l as [|a l IH]; intros m; simpl.
  - rewrite app_nil_r. by destruct m.
  - unfold orReturn, mbind, M_MBind, M_bind. rewrite Hbody, IH. simpl.
    by rewrite <- app_assoc.
Qed.

(** [rollback] always returns; it adds its marker, the hook calls and one
    delete per registered rollback function to the trace, and the name
    of the phase to the step durations. *)
Lemma rollback_run m :
  rollback W m
  = (Returns (),
     {| ctx := with_txn (λ t, {| rollbackFunctions := rollbackFunctions t;
                                 finalizerFunctions := finalizerFunctions t;
                                 stepDurations := stepDurations t ++ ["Rollback"] |})
                        (ctx m);
        trace := trace m ++ rollbackEvents (ctx m) |}).
Proof.
  unfold rollback, defer, callRollbackHook, rollbackEvents.
  unfold mbind, M_MBind, M_bind, emit, get. simpl.
  destruct (workflowHooks (user (ctx m))) as [hooks|]; simpl.
  - rewrite (forRange_calls RollbackHook) by done. simpl.
    rewrite (forRange_calls rollbackCall) by (by intros [loc] m0). simpl.
    by rewrite <- !app_assoc.
  - rewrite (forRange_calls rollbackCall) by (by intros [loc] m0). simpl.
    by rewrite <- !app_assoc.
Qed.

Lemma rollbackEvents_once c : occurrences is_evRollback (rollbackEvents c) = 1%nat.
Proof.
  unfold rollbackEvents. change (evRollback :: ?l) with ([evRollback] ++ l).
  rewrite !occurrences_app.
  rewrite (occurrences_none _ stepEvent ((λ h, evCall (RollbackHook h)) <$> _)).
  - rewrite (occurrences_none _ stepEvent ((λ f, evCall (rollbackCall f)) <$> _)); [done| |].
    + by intros [].
    + apply Forall_fmap, Forall_forall. done.
  - by intros [].
  - apply Forall_fmap, Forall_forall. done.
Qed.

(** The finalizer block always returns and runs the registered finalizers
    in registration order. *)
Lemma runFinalizers_run m :
  runFinalizers W m
  = (Returns (), {| ctx := ctx m; trace := trace m ++ finalizerEvents (ctx m) |}).
Proof.
  unfold runFinalizers, finalizerEvents, mbind, M_MBind, M_bind, get.
  destruct (finalizerFunctions (txn (ctx m))) as [fs|]; simpl.
  - assert (∀ m0, forRange fs (λ f, runFinalizer W f ≫= λ _, mret None) m0
                  = (Returns None,
                     {| ctx := ctx m0;
                        trace := trace m0 ++ flat_map
                          (λ f, [evFinalizer f;
                                 evCall (match f with
                                         | fileCleanup localPath => OsRemove localPath
                                         end)]) fs |})) as H.
    { induction fs as [|[localPath] fs IH]; intros m0; simpl.
      - rewrite app_nil_r. by destruct m0.
      - unfold orReturn, mbind, M_MBind, M_bind. simpl. rewrite IH. simpl.
        by rewrite <- !app_assoc. }
    by rewrite H.
  - rewrite app_nil_r. by destruct m.
Qed.

(** A failing step ends the loop: the loop rolls back in the state the
    step left and returns the wrapped error. *)
Lemma workflowLoop_failure step m k next err m1 :
  runsTo step m k (next, Some err) m1 →
  workflowLoop W step m
  = (Returns (Some (errors_Wrapf err "Failed to provision service")), (rollback W m1).2).
Proof.
  intros Hruns. remember (next, Some err) as r eqn:Hr.
  induction Hruns as [[run] m r m' Hrun|[run] m next' m2 k r m' Hrun _ IH]; subst r.
  - simpl in *. rewrite Hrun.
    destruct next; unfold mbind, M_MBind, M_bind; by rewrite rollback_run.
  - simpl in *. rewrite Hrun. by apply IH.
Qed.

(** A step that returns neither a next step nor an error ends the loop
    by [break]. *)
Lemma workflowLoop_success step m k m1 :
  runsTo step m k (None, None) m1 → workflowLoop W step m = (Returns None, m1).
Proof.
  intros Hruns. remember (@None workflowStep, @None error) as r eqn:Hr.
  induction Hruns as [[run] m r m' Hrun|[run] m next' m2 k r m' Hrun _ IH]; subst r.
  - simpl in *. by rewrite Hrun.
  - simpl in *. rewrite Hrun. by apply IH.
Qed.

(** The trace up to the return of the [k]-th step of a quiet chain. *)
Lemma runsTo_trace step m k r m1 :
  quietStep step → runsTo step m k r m1 →
  ∃ es, trace m1 = trace m ++ evStep :: es ∧ Forall loopEvent es
        ∧ occurrences is_evStep (evStep :: es) = S k ∧ quietResult r.
Proof.
  intros Hq Hruns.
  induction Hruns as [[run] m r m' Hrun|[run] m next m2 k r m' Hrun _ IH].
  - destruct (quietStep_elim run (emit evStep m).2 Hq) as (es & Ht & HP & Hnext).
    simpl in Hrun, Ht, Hnext. rewrite Hrun in Ht, Hnext. simpl in Ht, Hnext.
    exists es. rewrite Ht, <- app_assoc. split; [done|].
    split; [by apply stepEvent_loopEvent|]. split.
    + change (evStep :: es) with ([evStep] ++ es). rewrite occurrences_app.
      by rewrite (occurrences_none _ stepEvent es) by (done || by intros []).
    + destruct r as [[next|] e]; done.
  - destruct (quietStep_elim run (emit evStep m).2 Hq) as (es & Ht & HP & Hnext).
    simpl in Hrun, Ht, Hnext. rewrite Hrun in Ht, Hnext. simpl in Ht, Hnext.
    destruct (IH Hnext) as (es' & Ht' & HP' & Hocc & Hr).
    exists (es ++ evStep :: es'). rewrite Ht', Ht, <- !app_assoc. split; [done|].
    split; [|split; [|done]].
    + apply Forall_app. split; [by apply stepEvent_loopEvent|].
      constructor; [by right | done].
    + change (evStep :: es ++ evStep :: es') with ([evStep] ++ es ++ evStep :: es').
      rewrite !occurrences_app, Hocc.
      by rewrite (occurrences_none _ stepEvent es) by (done || by intros []).
Qed.

(** What the loop does with a quiet chain: a step fails, or the chain
    ends, or a step panics. *)
Lemma workflowLoop_cases step :
  ∀ m, quietStep step →
  (∃ k next err m1, runsTo step m k (next, Some err) m1)
  ∨ (∃ k m', runsTo step m k (None, None) m' ∧ workflowLoop W step m = (Returns None, m'))
  ∨ (∃ reason m' es, workflowLoop W step m = (Panics reason, m')
                     ∧ trace m' = trace m ++ evStep :: es ∧ Forall loopEvent es).
Proof.
  induction step as [run IH] using workflowStep_chain_ind. intros m Hq.
  destruct (quietStep_elim run (emit evStep m).2 Hq) as (es & Ht & HP & Hnext).
  simpl in Ht, Hnext.
  destruct (run {| ctx := ctx m; trace := trace m ++ [evStep] |})
    as [[[[next|] [err|]]|reason] m'] eqn:Hrun; simpl in Ht, Hnext.
  - left. exists 0%nat, (Some next), err, m'. by constructor.
  - destruct (IH _ _ _ _ Hrun m' Hnext)
      as [(k & next' & err & m1 & Hruns)|[(k & m1 & Hruns & Hloop)|(reason & m1 & es' & Hloop & Ht' & HP')]].
    + left. exists (S k), next', err, m1. by eapply runsTo_next.
    + right. left. exists (S k), m1. split; [by eapply runsTo_next|].
      simpl. by rewrite Hrun.
    + right. right. exists reason, m1, (es ++ evStep :: es'). split; [|split].
      * simpl. by rewrite Hrun.
      * by rewrite Ht', Ht, <- !app_assoc.
      * apply Forall_app. split; [by apply stepEvent_loopEvent|].
        constructor; [by right|done].
  - left. exists 0%nat, None, err, m'. by constructor.
  - right. left. exists 0%nat, m'. split; [by constructor|]. simpl. by rewrite Hrun.
  - right. right. exists reason, m', es. split; [|split].
    + simpl. by rewrite Hrun.
    + by rewrite Ht, <- app_assoc.
    + by apply stepEvent_loopEvent.
Qed.

End Loop.

(** ** Provision *)

Arguments workflowLoop : simpl never.

Section ProvisionFacts.

Variables (W : World) (noop : bool) (serviceName serviceDescription : string)
  (lambdaAWSInfos : list LambdaAWSInfo) (api : option string) (site : option S3Site)
  (s3Bucket : string) (useCGO inPlaceUpdates : bool)
  (buildID codePipelineTrigger buildTags linkerFlags : string)
  (templateWriter : bool) (workflowHooks : option WorkflowHooks).

Local Abbreviation run :=
  (Provision W noop serviceName serviceDescription lambdaAWSInfos api site s3Bucket
     useCGO inPlaceUpdates buildID codePipelineTrigger buildTags linkerFlags
     templateWriter workflowHooks).

Local Abbreviation entry :=
  (loopEntry W noop serviceName serviceDescription lambdaAWSInfos api site s3Bucket
     useCGO inPlaceUpdates buildID codePipelineTrigger buildTags linkerFlags
     templateWriter workflowHooks).

Local Abbreviation reaches := (reachesLoop W lambdaAWSInfos workflowHooks).

Local Abbreviation returns :=
  (stepReturns W noop serviceName serviceDescription lambdaAWSInfos api site s3Bucket
     useCGO inPlaceUpdates buildID codePipelineTrigger buildTags linkerFlags
     templateWriter workflowHooks).

(** Once the checks pass, [Provision] is the loop followed, after a
    [break], by the finalizer block. *)
Lemma Provision_loop :
  reaches →
  run = match workflowLoop W (verifyIAMRoles W) entry with
        | (Returns None, m) => (Returns None, (runFinalizers W m).2)
        | other => other
        end.
Proof.
  intros [Hvalid Hsome]. unfold Provision, loopEntry. rewrite Hvalid.
  destruct lambdaAWSInfos as [|info infos].
  - destruct workflowHooks as [hooks|]; [|by destruct Hsome].
    unfold orReturn, mbind, M_MBind, M_bind. simpl.
    destruct (workflowLoop W _ _) as [[[e|]|reason] m]; try done.
    by rewrite runFinalizers_run.
  - unfold orReturn, mbind, M_MBind, M_bind. simpl.
    destruct (workflowLoop W _ _) as [[[e|]|reason] m]; try done.
    by rewrite runFinalizers_run.
Qed.

(** When a check fails, nothing has happened yet. *)
Lemma Provision_stopped :
  ¬ reaches → ∃ e, run.1 = Returns (Some e) ∧ trace run.2 = [].
Proof.
  intros Hnot. unfold Provision.
  destruct (validateSpartaPreconditions W lambdaAWSInfos) as [err|] eqn:Hvalid.
  - by eexists.
  - destruct lambdaAWSInfos as [|info infos]; [destruct workflowHooks as [hooks|]|].
    + destruct Hnot. split; [done|]. by right.
    + by eexists.
    + destruct Hnot. split; [done|]. by left.
Qed.

Lemma reaches_dec : reaches ∨ ¬ reaches.
Proof.
  unfold reachesLoop.
  destruct (validateSpartaPreconditions W lambdaAWSInfos);
    destruct lambdaAWSInfos; destruct workflowHooks; intuition congruence.
Qed.

(** The three ways a run that reaches the loop can end. *)
Lemma Provision_cases :
  reaches →
  (∃ k next err m1,
     returns k (next, Some err) m1
     ∧ run = (Returns (Some (errors_Wrapf err "Failed to provision service")),
              (rollback W m1).2))
  ∨ (∃ k m1, returns k (None, None) m1 ∧ run = (Returns None, (runFinalizers W m1).2))
  ∨ (∃ reason m' es, run = (Panics reason, m')
                     ∧ trace m' = trace entry ++ evStep :: es ∧ Forall loopEvent es).
Proof.
  intros Hreach. rewrite (Provision_loop Hreach).
  destruct (workflowLoop_cases W (verifyIAMRoles W) entry (quietStep_verifyIAMRoles W))
    as [(k & next & err & m1 & Hruns)|[(k & m1 & Hruns & Hloop)|(reason & m1 & es & Hloop & Ht & HP)]].
  - left. exists k, next, err, m1. split; [done|].
    by rewrite (workflowLoop_failure W _ _ _ _ _ _ Hruns).
  - right. left. exists k, m1. split; [done|]. by rewrite Hloop.
  - right. right. exists reason, m1, es. by rewrite Hloop.
Qed.

Lemma entry_trace kind :
  kind (evWarn "No lambda functions provided to Sparta.Provision()") = false →
  occurrences kind (trace entry) = 0%nat.
Proof. intros H. unfold loopEntry. simpl. destruct lambdaAWSInfos; simpl; [|done].
       unfold occurrences. simpl. by rewrite H. Qed.

(** The trace of a run in which step [k] fails. *)
Lemma Provision_failure_trace k next err m1 :
  returns k (next, Some err) m1 →
  run = (Returns (Some (errors_Wrapf err "Failed to provision service")), (rollback W m1).2)
  ∧ ∃ es, trace run.2 = trace entry ++ (evStep :: es) ++ rollbackEvents (ctx m1)
          ∧ trace m1 = trace entry ++ evStep :: es
          ∧ Forall loopEvent es
          ∧ occurrences is_evStep (evStep :: es) = S k.
Proof.
  intros [Hreach Hruns].
  assert (run = (Returns (Some (errors_Wrapf err "Failed to provision service")),
                 (rollback W m1).2)) as Hrun.
  { rewrite (Provision_loop Hreach).
    by rewrite (workflowLoop_failure W _ _ _ _ _ _ Hruns). }
  split; [done|].
  destruct (runsTo_trace _ _ _ _ _ (quietStep_verifyIAMRoles W) Hruns)
    as (es & Ht & HP & Hocc & _).
  exists es. rewrite Hrun, rollback_run. simpl. rewrite Ht.
  by rewrite <- !app_assoc.
Qed.

Lemma finalizerEvents_none kind c :
  (∀ f, kind (evFinalizer f) = false) → (∀ c, kind (evCall c) = false) →
  occurrences kind (finalizerEvents c) = 0%nat.
Proof.
  intros Hf Hc. unfold finalizerEvents, occurrences.
  induction (default [] (finalizerFunctions (txn c))) as [|f fs IH]; simpl; [done|].
  by rewrite Hf, Hc.
Qed.

Lemma loopEvents_no_rollback es : Forall loopEvent es → occurrences is_evRollback es = 0%nat.
Proof. apply occurrences_none. intros e [He| ->]; [by destruct e | done]. Qed.

Lemma loopEvents_no_finalizer es : Forall loopEvent es → occurrences is_evFinalizer es = 0%nat.
Proof. apply occurrences_none. intros e [He| ->]; [by destruct e | done]. Qed.

(** A run that leaves the loop by [break] runs the registered finalizers,
    once each and in registration order, after the last step. *)
Lemma Provision_success_runs_finalizers k m1 :
  returns k (None, None) m1 →
  run.1 = Returns None
  ∧ trace run.2 = trace m1 ++ finalizerEvents (ctx m1)
  ∧ occurrences is_evFinalizer (trace m1) = 0%nat
  ∧ occurrences is_evRollback (trace run.2) = 0%nat.
Proof.
  intros [Hreach Hruns].
  rewrite (Provision_loop Hreach), (workflowLoop_success W _ _ _ _ Hruns).
  rewrite runFinalizers_run. simpl.
  destruct (runsTo_trace _ _ _ _ _ (quietStep_verifyIAMRoles W) Hruns)
    as (es & Ht & HP & _ & _).
  split; [done|]. split; [done|]. rewrite Ht.
  change (evStep :: es) with ([evStep] ++ es). split.
  - rewrite !occurrences_app, (entry_trace is_evFinalizer eq_refl).
    rewrite (loopEvents_no_finalizer es) by done. reflexivity.
  - rewrite !occurrences_app, (entry_trace is_evRollback eq_refl).
    rewrite (loopEvents_no_rollback es) by done.
    rewrite finalizerEvents_none by done. reflexivity.
Qed.

Lemma rollbackEvents_no_finalizer c :
  occurrences is_evFinalizer (rollbackEvents c) = 0%nat.
Proof.
  unfold rollbackEvents. change (evRollback :: ?l) with ([evRollback] ++ l).
  rewrite !occurrences_app.
  rewrite (occurrences_none _ stepEvent ((λ h, evCall (RollbackHook h)) <$> _)).
  - rewrite (occurrences_none _ stepEvent ((λ f, evCall (rollbackCall f)) <$> _)); [done| |].
    + by intros [].
    + apply Forall_fmap, Forall_forall. done.
  - by intros [].
  - apply Forall_fmap, Forall_forall. done.
Qed.

(** A run in which a step fails never reaches the finalizer block: the
    loop returns from [Provision] right after the rollback, and whatever
    finalizers the steps registered are still pending. *)
Lemma Provision_failure_skips_finalizers k next err m1 :
  returns k (next, Some err) m1 →
  occurrences is_evFinalizer (trace run.2) = 0%nat
  ∧ finalizerFunctions (txn (ctx run.2)) = finalizerFunctions (txn (ctx m1)).
Proof.
  intros Hret.
  destruct (Provision_failure_trace _ _ _ _ Hret) as (Hrun & es & Ht & _ & HP & _).
  split.
  - rewrite Ht. change (evStep :: es) with ([evStep] ++ es).
    rewrite !occurrences_app, (entry_trace is_evFinalizer eq_refl).
    rewrite (loopEvents_no_finalizer es) by done.
    by rewrite rollbackEvents_no_finalizer.
  - by rewrite Hrun, rollback_run.
Qed.

(** C2.  When step [k] of a run returns an error, [Provision] returns that
    error wrapped with ["Failed to provision service"]; nothing but the
    rollback follows the failing step, so exactly [k + 1] steps have been
    invoked and the rollback has been entered exactly once.  A run that
    returns no error never enters the rollback, and a run that enters the
    rollback has a failing step. *)
Theorem Provision_step_failure :
  (∀ k next err m1,
     returns k (next, Some err) m1 →
     run.1 = Returns (Some (errors_Wrapf err "Failed to provision service"))
     ∧ trace run.2 = trace m1 ++ rollbackEvents (ctx m1)
     ∧ occurrences is_evStep (trace run.2) = S k
     ∧ occurrences is_evRollback (trace run.2) = 1%nat)
  ∧ (run.1 = Returns None → occurrences is_evRollback (trace run.2) = 0%nat)
  ∧ (occurrences is_evRollback (trace run.2) ≠ 0%nat →
     ∃ k next err m1, returns k (next, Some err) m1).
Proof.
  split; [|split].
  - intros k next err m1 Hret.
    destruct (Provision_failure_trace _ _ _ _ Hret) as (Hrun & es & Ht & Ht1 & HP & Hocc).
    split; [by rewrite Hrun|]. split; [by rewrite Hrun, rollback_run|].
    rewrite Ht, !occurrences_app, Hocc.
    rewrite (entry_trace is_evStep eq_refl), (entry_trace is_evRollback eq_refl).
    rewrite rollbackEvents_once.
    change (evStep :: es) with ([evStep] ++ es).
    rewrite occurrences_app, (loopEvents_no_rollback es) by done.
    split; [|done].
    rewrite (occurrences_none is_evStep (λ e, is_evStep e = false)); [lia|done|].
    unfold rollbackEvents. constructor; [done|].
    apply Forall_app. split; apply Forall_fmap, Forall_forall; done.
  - intros Hnone. destruct reaches_dec as [Hreach|Hnot].
    + destruct (Provision_cases Hreach)
        as [(k & next & err & m1 & _ & Hrun)|[(k & m1 & Hret & _)|(reason & m1 & es & Hrun & _)]].
      * rewrite Hrun in Hnone. discriminate.
      * by destruct (Provision_success_runs_finalizers _ _ Hret) as (_ & _ & _ & H).
      * rewrite Hrun in Hnone. discriminate.
    + destruct (Provision_stopped Hnot) as (e & _ & Ht). by rewrite Ht.
  - intros Hsome. destruct reaches_dec as [Hreach|Hnot].
    + destruct (Provision_cases Hreach)
        as [(k & next & err & m1 & Hret & _)|[(k & m1 & Hret & _)|(reason & m1 & es & Hrun & Ht & HP)]].
      * by exists k, next, err, m1.
      * by destruct (Provision_success_runs_finalizers _ _ Hret) as (_ & _ & _ & H).
      * destruct Hsome. rewrite Hrun. simpl. rewrite Ht.
        change (evStep :: es) with ([evStep] ++ es).
        rewrite !occurrences_app, (entry_trace is_evRollback eq_refl).
        by rewrite (loopEvents_no_rollback es).
    + destruct (Provision_stopped Hnot) as (e & _ & Ht). by rewrite Ht in Hsome.
Qed.

End ProvisionFacts.

Lemma Provision_step_failure_witness :
  let run := Provision noSuchRoleWorld false "svc" "" [helloLambda] None None "bucket"
                       false false "b1" "" "" "" false None in
  run.1 = Returns (Some (errors_Wrapf (errorString "NoSuchEntity: role not found")
                                      "Failed to provision service"))
  ∧ occurrences is_evStep (trace run.2) = 1%nat
  ∧ occurrences is_evRollback (trace run.2) = 1%nat.
Proof.
  destruct (Provision_step_failure noSuchRoleWorld false "svc" "" [helloLambda] None None
              "bucket" false false "b1" "" "" "" false None) as [Hfail _].
  destruct (Hfail 0%nat None (errorString "NoSuchEntity: role not found")
              (runStep (verifyIAMRoles noSuchRoleWorld)
                 (emit evStep
                    (loopEntry noSuchRoleWorld false "svc" "" [helloLambda] None None
                       "bucket" false false "b1" "" "" "" false None)).2).2)
    as (H1 & _ & H3 & H4).
  { split; [split; [reflexivity | left; discriminate]|].
    apply runsTo_here. vm_compute. reflexivity. }
  cbv zeta. split; [exact H1|]. split; [exact H3 | exact H4].
Defined.

(** C5.  With no lambda functions and no workflow hooks [Provision]
    returns an error before anything happens: the trace is empty, so no
    step is invoked and no collaborator is called; unless
    [validateSpartaPreconditions] already rejects the empty list, the error
    is ["No lambda functions provided to Sparta.Provision()"].  With
    workflow hooks the same text is only logged as a warning, and the next
    thing that happens is the invocation of the first step. *)
Theorem Provision_no_functions (W : World) (noop : bool)
    (serviceName serviceDescription : string) (api : option string) (site : option S3Site)
    (s3Bucket : string) (useCGO inPlaceUpdates : bool)
    (buildID codePipelineTrigger buildTags linkerFlags : string) (templateWriter : bool) :
  let run hooks :=
    Provision W noop serviceName serviceDescription [] api site s3Bucket useCGO
              inPlaceUpdates buildID codePipelineTrigger buildTags linkerFlags
              templateWriter hooks in
  (∃ e, (run None).1 = Returns (Some e) ∧ trace (run None).2 = []
        ∧ (validateSpartaPreconditions W [] = None →
           e = errors_New "No lambda functions provided to Sparta.Provision()"))
  ∧ (∀ hooks, validateSpartaPreconditions W [] = None →
     ∃ es, trace (run (Some hooks)).2
           = evWarn "No lambda functions provided to Sparta.Provision()" :: evStep :: es).
Proof.
  intros run. split.
  - unfold run, Provision.
    destruct (validateSpartaPreconditions W []) as [err|]; eexists; (split; [reflexivity|]);
      (split; [reflexivity|]); [discriminate | done].
  - intros hooks Hvalid.
    assert (reachesLoop W [] (Some hooks)) as Hreach by (split; [done | by right]).
    destruct (Provision_cases W noop serviceName serviceDescription [] api site s3Bucket
                useCGO inPlaceUpdates buildID codePipelineTrigger buildTags linkerFlags
                templateWriter (Some hooks) Hreach)
      as [(k & next & err & m1 & Hret & _)|[(k & m1 & Hret & _)|(reason & m1 & es & Hrun & Ht & _)]].
    + destruct (Provision_failure_trace _ _ _ _ _ _ _ _ _ _ _ _ _ _ _ _ _ _ _ _ Hret)
        as (_ & es & Ht & _). unfold run. rewrite Ht. by eexists.
    + destruct (Provision_success_runs_finalizers _ _ _ _ _ _ _ _ _ _ _ _ _ _ _ _ _ _ Hret)
        as (_ & Ht & _).
      destruct Hret as [_ Hruns].
      destruct (runsTo_trace _ _ _ _ _ (quietStep_verifyIAMRoles W) Hruns) as (es & Ht1 & _).
      unfold run. rewrite Ht, Ht1. simpl. by eexists.
    + unfold run. rewrite Hrun. simpl. rewrite Ht. by eexists.
Qed.

Lemma Provision_no_functions_witness :
  (Provision calmWorld false "svc" "" [] None None "bucket" false false "b1" "" "" ""
             false None).1
  = Returns (Some (errors_New "No lambda functions provided to Sparta.Provision()")).
Proof.
  destruct (Provision_no_functions calmWorld false "svc" "" None None "bucket" false false
              "b1" "" "" "" false) as [(e & Hres & _ & He) _].
  rewrite Hres, (He eq_refl). reflexivity.
Defined.

(** C1, at a run whose upload fails.  The upload step registers the
    clean-up finalizer of the code archive and then fails; [Provision]
    rolls back and returns the error, and the finalizer block is never
    reached: no finalizer runs, the registered one is still pending. *)
Theorem Provision_failed_upload_leaves_finalizer :
  let run := Provision uploadFailsWorld false "svc" "" [helloLambda] None None "bucket"
                       false false "b1" "" "" "" false None in
  (∃ err, run.1 = Returns (Some (errors_Wrapf err "Failed to provision service")))
  ∧ finalizerFunctions (txn (ctx run.2)) = Some [fileCleanup ".sparta/svc-code.zip"]
  ∧ occurrences is_evRollback (trace run.2) = 1%nat
  ∧ occurrences is_evFinalizer (trace run.2) = 0%nat.
Proof. vm_compute. split; [by eexists|done]. Qed.

(** ** The precondition step *)

Lemma eqb_neq_false (a b : string) : a ≠ b → String.eqb a b = false.
Proof. apply String.eqb_neq. Qed.

Lemma workflowLoop_unfold W run m :
  workflowLoop W (WorkflowStep run) m
  = match run (emit evStep m).2 with
    | (Panics reason, m') => (Panics reason, m')
    | (Returns (_, Some err), m') =>
        (rollback W;; mret (Some (errors_Wrapf err "Failed to provision service"))) m'
    | (Returns (None, None), m') => (Returns None, m')
    | (Returns (Some next, None), m') => workflowLoop W next m'
    end.
Proof. reflexivity. Qed.

(** Running monadic code on a given state. *)
Ltac run_m :=
  unfold defer, orReturn, orReturnV, ext, recordDuration, mbind, M_MBind, M_bind, emit,
    modify, get, mret, M_MRet, M_ret;
  cbn [ctx trace fst snd].

Section Preconditions.

Variables (W : World) (c : workflowContext).

Local Abbreviation bucket := (s3Bucket (user c)).

Local Abbreviation mismatch :=
  (errorString ("region (" +:+ Region (awsSession (context c))
                +:+ ") does not match bucket region (" +:+ bucketRegion W bucket +:+ ")")).

Hypothesis Hnoop : noop (user c) = false.
Hypothesis Hinfos : lambdaAWSInfos (user c) ≠ [].
Hypothesis Hregion : bucketRegion W bucket ≠ Region (awsSession (context c)).

Lemma verifyAWSPreconditions_fails t :
  ∃ err m', runStep (verifyAWSPreconditions W) {| ctx := c; trace := t |}
            = (Returns (None, Some err), m').
Proof.
  unfold runStep, verifyAWSPreconditions. run_m. rewrite Hnoop.
  destruct (lambdaAWSInfos (user c)) as [|info infos]; [done|]. run_m.
  destruct (fails W (BucketVersioningEnabled bucket)); run_m;
    [eexists _, _; reflexivity|].
  destruct (negb _ && negb _); run_m; [eexists _, _; reflexivity|].
  destruct (fails W (BucketRegion bucket)); run_m; [eexists _, _; reflexivity|].
  rewrite (eqb_neq_false _ _ Hregion). eexists _, _; reflexivity.
Qed.

Hypothesis Hversioning : fails W (BucketVersioningEnabled bucket) = None.
Hypothesis Htrigger : codePipelineTrigger (user c) = "" ∨ versioningEnabled W bucket = true.
Hypothesis Hlookup : fails W (BucketRegion bucket) = None.

Lemma verifyAWSPreconditions_mismatch t :
  ∃ c', runStep (verifyAWSPreconditions W) {| ctx := c; trace := t |}
        = (Returns (None, Some mismatch),
           {| ctx := c';
              trace := t ++ [evCall (BucketVersioningEnabled bucket);
                             evCall (BucketRegion bucket)] |})
        ∧ rollbackEvents c' = rollbackEvents c.
Proof.
  unfold runStep, verifyAWSPreconditions. run_m. rewrite Hnoop.
  destruct (lambdaAWSInfos (user c)) as [|info infos]; [done|]. run_m.
  rewrite Hversioning. run_m.
  assert (negb (String.eqb (codePipelineTrigger (user c)) "")
          && negb (versioningEnabled W bucket) = false) as ->.
  { destruct Htrigger as [-> | ->]; [done|]. by rewrite andb_false_r. }
  run_m. rewrite Hlookup, (eqb_neq_false _ _ Hregion). cbn [negb]. run_m.
  eexists. split; [rewrite <- app_assoc; reflexivity | reflexivity].
Qed.

End Preconditions.

(** C7, as amended.  In a run that is not a dry run and has at least one
    lambda function, the precondition step returns an error and no next
    step whenever the region reported for the bucket differs from the
    session's region; when the versioning lookup and the region lookup
    succeed and a CodePipeline trigger, if any, finds versioning enabled,
    the error is the region-mismatch error, the step has made exactly these
    two calls, and the loop then only rolls back: no later step, packaging
    included, is invoked.  In a run without lambda functions, dry or not,
    the step calls no collaborator and hands over to the packaging step. *)
Theorem verifyAWSPreconditions_region_mismatch (W : World) (m : machine) :
  let c := ctx m in
  let bucket := s3Bucket (user c) in
  let mismatch :=
    errorString ("region (" +:+ Region (awsSession (context c))
                 +:+ ") does not match bucket region (" +:+ bucketRegion W bucket +:+ ")") in
  (noop (user c) = false →
   lambdaAWSInfos (user c) ≠ [] →
   bucketRegion W bucket ≠ Region (awsSession (context c)) →
   (∃ err m', runStep (verifyAWSPreconditions W) m = (Returns (None, Some err), m'))
   ∧ (fails W (BucketVersioningEnabled bucket) = None →
      codePipelineTrigger (user c) = "" ∨ versioningEnabled W bucket = true →
      fails W (BucketRegion bucket) = None →
      (∃ m', runStep (verifyAWSPreconditions W) m = (Returns (None, Some mismatch), m')
             ∧ trace m' = trace m ++ [evCall (BucketVersioningEnabled bucket);
                                      evCall (BucketRegion bucket)])
      ∧ ∃ m', workflowLoop W (verifyAWSPreconditions W) m
              = (Returns (Some (errors_Wrapf mismatch "Failed to provision service")), m')
              ∧ trace m' = trace m ++ [evStep; evCall (BucketVersioningEnabled bucket);
                                       evCall (BucketRegion bucket)]
                                   ++ rollbackEvents c))
  ∧ (lambdaAWSInfos (user c) = [] →
     (runStep (verifyAWSPreconditions W) m).1 = Returns (Some (createPackageStep W), None)
     ∧ trace (runStep (verifyAWSPreconditions W) m).2 = trace m).
Proof.
  destruct m as [c t]. cbn [ctx trace]. split.
  - intros Hnoop Hinfos Hregion. split.
    + by apply verifyAWSPreconditions_fails.
    + intros Hversioning Htrigger Hlookup. split.
      * destruct (verifyAWSPreconditions_mismatch W c Hnoop Hinfos Hregion Hversioning
                    Htrigger Hlookup t) as (c' & Hrun & _).
        by eexists.
      * destruct (verifyAWSPreconditions_mismatch W c Hnoop Hinfos Hregion Hversioning
                    Htrigger Hlookup (t ++ [evStep])) as (c' & Hrun & Hrb).
        unfold runStep in Hrun. unfold verifyAWSPreconditions at 1.
        unfold verifyAWSPreconditions in Hrun.
        rewrite workflowLoop_unfold. cbn [emit snd ctx trace]. rewrite Hrun.
        unfold mbind, M_MBind, M_bind. rewrite rollback_run. cbn [ctx trace].
        eexists. split; [reflexivity|]. cbn [trace]. rewrite Hrb.
        by rewrite <- !app_assoc.
  - intros Hnone. unfold runStep, verifyAWSPreconditions. run_m. rewrite Hnone.
    by destruct (noop (user c)); run_m.
Qed.

Lemma verifyAWSPreconditions_region_mismatch_witness :
  ∃ m', runStep (verifyAWSPreconditions eastBucketWorld)
          (loopEntry eastBucketWorld false "svc" "" [helloLambda] None None "bucket"
                     false false "b1" "" "" "" false None)
        = (Returns (None, Some (errorString
                     "region (us-west-2) does not match bucket region (us-east-1)")), m').
Proof.
  destruct (proj1 (verifyAWSPreconditions_region_mismatch eastBucketWorld
                     (loopEntry eastBucketWorld false "svc" "" [helloLambda] None None
                                "bucket" false false "b1" "" "" "" false None)))
    as [_ Hmismatch]; [reflexivity | discriminate | discriminate |].
  destruct (Hmismatch eq_refl (or_introl eq_refl) eq_refl) as [(m' & Hrun & _) _].
  exists m'. exact Hrun.
Defined.

(** C7 as stated fails for a run without lambda functions: the bucket is
    in another region than the session, the run is not a dry run, and the
    precondition step makes no remote check and hands over to the
    packaging step; the whole run succeeds. *)
Lemma verifyAWSPreconditions_skips_region_check :
  let m := loopEntry eastBucketWorld false "svc" "" [] None None "bucket"
                     false false "b1" "" "" "" false (Some noHandlers) in
  let run := Provision eastBucketWorld false "svc" "" [] None None "bucket"
                       false false "b1" "" "" "" false (Some noHandlers) in
  noop (user (ctx m)) = false
  ∧ bucketRegion eastBucketWorld (s3Bucket (user (ctx m))) = "us-east-1"
  ∧ Region (awsSession (context (ctx m))) = "us-west-2"
  ∧ (runStep (verifyAWSPreconditions eastBucketWorld) m).1
    = Returns (Some (createPackageStep eastBucketWorld), None)
  ∧ trace (runStep (verifyAWSPreconditions eastBucketWorld) m).2 = trace m
  ∧ run.1 = Returns None
  ∧ evCall (BuildGoBinary "svc" "Sparta.lambda.amd64") ∈ trace run.2.
Proof.
  repeat split; try reflexivity.
  vm_compute. repeat (first [apply list_elem_of_here | apply list_elem_of_further]).
Qed.

(** ** The post-condition check *)

Lemma length_flat_map {A B} (f : A → list B) (l : list A) :
  length (flat_map f l) = sum_list_with (λ a, length (f a)) l.
Proof. induction l as [|a l IH]; simpl; [done|]. by rewrite length_app, IH. Qed.

Lemma validateResource_entries (W : World) (id : string) (properties : ResourceProperties) :
  length (validateResource W id properties) = reportedEntries W properties.
Proof.
  destruct properties as [[[vars]|]| |]; try done. destruct vars as [vars|vars|]; try done.
  unfold validateResource, reportedEntries. cbn [Variables].
  induction (requiredEnvVars W) as [|k ks IH]; simpl; [done|].
  destruct (vars !! k) eqn:Hk; simpl; [done | by rewrite IH].
Qed.

(** C9, as amended.  The post-condition step fails exactly when some
    resource of the template makes the check report an entry: a lambda
    function without environment (one entry), one whose variables are not
    a [map[string]interface{}] (one entry), or one whose variable map lacks
    a required key (one entry per missing key).  The single error it
    returns is built from the list of all entries of all resources;
    otherwise the step hands over to [ensureCloudFormationStack]. *)
Theorem validateSpartaPostconditions_aggregates (W : World) (m : machine) :
  let template := cfTemplate (context (ctx m)) in
  let errs := validateErrs W template in
  let failure :=
    errorString ("Problems validating template contents: " +:+ fmt_v_errors errs) in
  runStep (validateSpartaPostconditions W) m
  = (Returns (if decide (errs = []) then (Some (ensureCloudFormationStack W), None)
              else (None, Some failure)), m)
  ∧ (errs ≠ [] ↔ ∃ id properties, Resources template !! id = Some properties
                                  ∧ reportedEntries W properties ≠ 0%nat)
  ∧ (∀ e, e ∈ errs ↔ ∃ id properties, Resources template !! id = Some properties
                                      ∧ e ∈ validateResource W id properties)
  ∧ length errs
    = sum_list_with (λ r, reportedEntries W r.2) (map_to_list (Resources template)).
Proof.
  intros template errs failure.
  assert (∀ e, e ∈ errs ↔ ∃ id properties, Resources template !! id = Some properties
                                           ∧ e ∈ validateResource W id properties) as Hin.
  { intros e. unfold errs, validateErrs. rewrite list_elem_of_In, in_flat_map. split.
    - intros ([id properties] & Hr & He). exists id, properties.
      apply list_elem_of_In, elem_of_map_to_list in Hr. by rewrite list_elem_of_In.
    - intros (id & properties & Hr & He). exists (id, properties).
      rewrite <- !list_elem_of_In, elem_of_map_to_list. done. }
  split; [|split; [|split]].
  - unfold runStep, validateSpartaPostconditions. run_m. fold template errs.
    destruct m as [c t]. destruct errs; [done|]. by rewrite decide_False.
  - split.
    + intros Hne. destruct errs as [|e rest] eqn:He; [done|].
      destruct (proj1 (Hin e)) as (id & properties & Hr & Hv); [by left|].
      exists id, properties. split; [done|].
      rewrite <- (validateResource_entries W id). by destruct (validateResource W id properties);
        [apply elem_of_nil in Hv|].
    + intros (id & properties & Hr & Hn) He.
      rewrite <- (validateResource_entries W id) in Hn.
      destruct (validateResource W id properties) as [|e rest] eqn:Hv; [done|].
      assert (e ∈ errs) as Hine. { apply Hin. exists id, properties. rewrite Hv. split; [done|by left]. }
      rewrite He in Hine. by apply elem_of_nil in Hine.
  - done.
  - unfold errs, validateErrs. rewrite length_flat_map.
    induction (map_to_list (Resources template)) as [|[id properties] l IH]; simpl; [done|].
    by rewrite validateResource_entries, IH.
Qed.

Lemma validateSpartaPostconditions_one_entry :
  missingVariables calmWorld (LambdaFunction None)
  = ["SPARTA_DISCOVERY_INFO"; "SPARTA_LOG_LEVEL"]
  ∧ validateErrs calmWorld bareFunctionTemplate
    = [errorString "Lambda function Hello does not include environment info"]
  ∧ length (validateErrs calmWorld bareFunctionTemplate)
    ≠ length (missingVariables calmWorld (LambdaFunction None))
  ∧ (∀ properties, Resources stringMapTemplate !! "Hello" = Some properties →
                   missingVariables calmWorld properties = [])
  ∧ validateErrs calmWorld stringMapTemplate
    = [errorString
         "Lambda function Hello environment vars are unsupported type: map[string]string"].
Proof.
  split; [reflexivity|]. split; [by vm_compute|]. split; [by vm_compute|].
  split; [|by vm_compute].
  intros properties Hp. vm_compute in Hp. injection Hp as <-. by vm_compute.
Qed.

(** ** In-place updates *)

Section InPlace.

Variables (W : World) (templateURL : string).

Lemma classifyChanges_nil changes requests invalid m :
  s3CodeZipURL (context (ctx m)) = None →
  Exists (λ change, isFunctionCodeChange change = true) changes →
  classifyChanges changes requests invalid m = (Panics nilDereference, m).
Proof.
  intros Hnil Hex. revert requests invalid.
  induction Hex as [change changes Hchange|change changes _ IH]; intros requests invalid.
  - simpl. unfold isFunctionCodeChange in Hchange. rewrite Hchange.
    run_m. by rewrite Hnil.
  - simpl. destruct (String.eqb _ _ && String.eqb _ _); [|by apply IH].
    run_m. by rewrite Hnil.
Qed.

Lemma classifyChanges_returns changes requests invalid m :
  s3CodeZipURL (context (ctx m)) ≠ None
  ∨ Forall (λ change, isFunctionCodeChange change = false) changes →
  classifyChanges changes requests invalid m
  = (Returns (requests
              ++ match s3CodeZipURL (context (ctx m)) with
                 | Some u => updateRequest (ctx m) u <$> List.filter isFunctionCodeChange changes
                 | None => []
                 end,
              invalid
              ++ (describeChange <$> List.filter (λ ch, negb (isFunctionCodeChange ch)) changes)),
     m).
Proof.
  intros Hok. revert requests invalid.
  induction changes as [|change changes IH]; intros requests invalid.
  - simpl. destruct (s3CodeZipURL _); simpl; by rewrite !app_nil_r.
  - assert (s3CodeZipURL (context (ctx m)) ≠ None
            ∨ Forall (λ change, isFunctionCodeChange change = false) changes) as Hok'.
    { destruct Hok as [?|Hall]; [by left | right; by inversion Hall]. }
    simpl. fold (isFunctionCodeChange change).
    destruct (isFunctionCodeChange change) eqn:Hchange; simpl.
    + destruct (s3CodeZipURL (context (ctx m))) as [u|] eqn:Hurl.
      * run_m. rewrite Hurl. cbn [keyName]. run_m. rewrite (IH Hok').
        by rewrite <- app_assoc.
      * destruct Hok as [?|Hall]; [done|]. inversion Hall; congruence.
    + rewrite (IH Hok'). by rewrite <- app_assoc.
Qed.

(** An unsupported change makes the operation fail with the list of all
    unsupported changes, after the change set has been computed and
    before any update is sent -- provided the classification of the
    changes does not dereference a nil upload location on the way. *)
Lemma applyInPlaceFunctionUpdates_rejects changes m :
  let c := ctx m in
  let request :=
    CreateStackChangeSet (CloudFormationResourceName W (serviceName (user c)
                                                        +:+ "InPlaceChangeSet"))
                         (serviceName (user c)) templateURL in
  fails W request = None →
  changeSet W = Some changes →
  s3CodeZipURL (context c) ≠ None
  ∨ Forall (λ change, isFunctionCodeChange change = false) changes →
  Exists (λ change, isFunctionCodeChange change = false) changes →
  applyInPlaceFunctionUpdates W templateURL m
  = (Returns (None, Some (unsupportedChanges changes)),
     {| ctx := c; trace := trace m ++ [evCall request] |}).
Proof.
  intros c request Hcreate Hchanges Hok Hex.
  unfold applyInPlaceFunctionUpdates. run_m. fold c request. rewrite Hcreate, Hchanges.
  destruct changes as [|change changes]; [by inversion Hex|].
  run_m. rewrite classifyChanges_returns by done.
  assert (∃ line lines, describeChange <$> List.filter (λ ch, negb (isFunctionCodeChange ch))
                                            (change :: changes) = line :: lines)
    as (line & lines & Hlines).
  { clear -Hex. induction Hex as [ch chs Hch|ch chs _ IH]; simpl.
    - rewrite Hch. simpl. by eexists _, _.
    - destruct (negb (isFunctionCodeChange ch)); simpl; [by eexists _, _ | done]. }
  unfold unsupportedChanges. rewrite Hlines. cbn [app]. done.
Qed.

End InPlace.

(** C10.  A non-nil upload location is a precondition of the in-place
    update as soon as the change set contains a [Modify] of a lambda
    function: with a nil [s3CodeZipURL] the operation computes the change
    set and then panics on the nil dereference in [keyName] instead of
    returning an error; with a non-nil one the classification of the
    changes always returns. *)
Theorem applyInPlaceFunctionUpdates_nil_upload_location (W : World) (templateURL : string)
    (changes : list ResourceChange) (m : machine) :
  let c := ctx m in
  let request :=
    CreateStackChangeSet (CloudFormationResourceName W (serviceName (user c)
                                                        +:+ "InPlaceChangeSet"))
                         (serviceName (user c)) templateURL in
  fails W request = None →
  changeSet W = Some changes →
  Exists (λ change, isFunctionCodeChange change = true) changes →
  (s3CodeZipURL (context c) = None →
   applyInPlaceFunctionUpdates W templateURL m
   = (Panics nilDereference, {| ctx := c; trace := trace m ++ [evCall request] |}))
  ∧ (s3CodeZipURL (context c) ≠ None →
     ∃ r, classifyChanges changes [] [] m = (Returns r, m)).
Proof.
  intros c request Hcreate Hchanges Hex. split.
  - intros Hnil. unfold applyInPlaceFunctionUpdates. run_m. fold c request.
    rewrite Hcreate, Hchanges.
    destruct changes as [|change rest]; [by inversion Hex|].
    run_m. by rewrite classifyChanges_nil.
  - intros Hsome. eexists. apply classifyChanges_returns. by left.
Qed.

Lemma applyInPlaceFunctionUpdates_nil_upload_location_witness :
  (applyInPlaceFunctionUpdates mixedChangesWorld "https://bucket.s3.amazonaws.com/t.json"
     (loopEntry mixedChangesWorld false "svc" "" [] None None "bucket" false true "b1"
                "" "" "" false (Some helloDecorator))).1
  = Panics nilDereference.
Proof.
  destruct (applyInPlaceFunctionUpdates_nil_upload_location mixedChangesWorld
              "https://bucket.s3.amazonaws.com/t.json" [functionChange; bucketChange]
              (loopEntry mixedChangesWorld false "svc" "" [] None None "bucket" false true
                         "b1" "" "" "" false (Some helloDecorator)))
    as [Hpanic _]; [reflexivity | reflexivity | by left |].
  rewrite (Hpanic eq_refl). reflexivity.
Defined.

(** C4, at a change set with one function-code change and one other
    change, met with a nil upload location (a service without lambda
    functions whose hooks add one to the template).  The claim asks for an
    error that lists the unsupported change; the operation panics in
    [keyName] before it looks at that change.  No update is sent. *)
Theorem applyInPlaceFunctionUpdates_mixed_changes_panic :
  let m := loopEntry mixedChangesWorld false "svc" "" [] None None "bucket" false true
                     "b1" "" "" "" false (Some helloDecorator) in
  let result :=
    applyInPlaceFunctionUpdates mixedChangesWorld "https://bucket.s3.amazonaws.com/t.json" m in
  let run := Provision mixedChangesWorld false "svc" "" [] None None "bucket" false true
                       "b1" "" "" "" false (Some helloDecorator) in
  s3CodeZipURL (context (ctx m)) = None
  ∧ changeSet mixedChangesWorld = Some [functionChange; bucketChange]
  ∧ result.1 = Panics nilDereference
  ∧ occurrences is_UpdateFunctionCode (trace result.2) = 0%nat
  ∧ run.1 = Panics nilDereference
  ∧ Resources (cfTemplate (context (ctx run.2))) !! "HelloLambda" = Some helloFunction
  ∧ occurrences is_UpdateFunctionCode (trace run.2) = 0%nat.
Proof. by vm_compute. Qed.

(** ** Role resolution *)

Lemma fresh_app (a b : list string) (seen : gset string) :
  fresh (a ++ b) seen = fresh a seen ++ fresh b (list_to_set a ∪ seen).
Proof.
  revert seen. induction a as [|n a IH]; intros seen; simpl.
  - f_equal. set_solver.
  - destruct (decide (n ∈ seen)) as [Hin|Hout].
    + rewrite IH. do 2 f_equal. set_solver.
    + simpl. rewrite IH. do 3 f_equal. set_solver.
Qed.

Lemma elem_of_fresh (n : string) (names : list string) (seen : gset string) :
  n ∈ fresh names seen ↔ n ∈ names ∧ n ∉ seen.
Proof.
  revert seen. induction names as [|x names IH]; intros seen; simpl.
  - set_solver.
  - destruct (decide (x ∈ seen)) as [Hin|Hout].
    + rewrite IH. set_solver.
    + rewrite elem_of_cons, IH. destruct (decide (n = x)); set_solver.
Qed.

Lemma NoDup_fresh (names : list string) (seen : gset string) : NoDup (fresh names seen).
Proof.
  revert seen. induction names as [|x names IH]; intros seen; simpl.
  - constructor.
  - destruct (decide (x ∈ seen)); [done|]. constructor; [|done].
    rewrite elem_of_fresh. set_solver.
Qed.

Lemma addedResources_app a b : addedResources (a ++ b) = addedResources a ++ addedResources b.
Proof. apply omap_app. Qed.

Lemma roleLookups_app a b : roleLookups (a ++ b) = roleLookups a ++ roleLookups b.
Proof. apply omap_app. Qed.

Section Roles.

Variable W : World.

Local Abbreviation roleMap m := (lambdaIAMRoleNameMap (context (ctx m))).

(** One inline definition: a logical name that is not in the role map is
    added to the template and to the map, any other is skipped. *)
Lemma registerRoleDefinition_run definition fn m :
  let name := logicalName W definition (serviceName (user (ctx m))) fn in
  ∃ m', registerRoleDefinition W definition fn m = (Returns (), m')
        ∧ user (ctx m') = user (ctx m)
        ∧ dom (roleMap m') = {[name]} ∪ dom (roleMap m)
        ∧ trace m' = trace m ++ (evAddResource <$> fresh [name] (dom (roleMap m))).
Proof.
  intros name. unfold registerRoleDefinition. run_m. fold name.
  destruct (roleMap m !! name) as [expr|] eqn:Hlookup; run_m.
  - assert (name ∈ dom (roleMap m)) as Hin by (apply elem_of_dom; eauto).
    exists m. simpl. rewrite decide_True by done. rewrite app_nil_r.
    repeat split. set_solver.
  - assert (name ∉ dom (roleMap m)) as Hout by by apply not_elem_of_dom.
    eexists. split; [reflexivity|]. simpl. rewrite decide_False by done.
    repeat split. by rewrite dom_insert_L.
Qed.

Lemma fresh_cons_app (name : string) (rest : list string) (seen : gset string) :
  fresh (name :: rest) seen = fresh [name] seen ++ fresh rest ({[name]} ∪ seen).
Proof.
  change (name :: rest) with ([name] ++ rest). rewrite fresh_app. do 2 f_equal. set_solver.
Qed.

Lemma registerCustomRoles_run customs m :
  let names := customRoleNames W (serviceName (user (ctx m))) customs in
  ∃ m', registerCustomRoles W customs m = (Returns None, m')
        ∧ user (ctx m') = user (ctx m)
        ∧ dom (roleMap m') = list_to_set names ∪ dom (roleMap m)
        ∧ trace m' = trace m ++ (evAddResource <$> fresh names (dom (roleMap m))).
Proof.
  revert m. induction customs as [|custom customs IH]; intros m names.
  - exists m. simpl. rewrite app_nil_r. repeat split. set_solver.
  - change (registerCustomRoles W (custom :: customs))
      with (orReturn (match roleDefinition custom with
                      | Some definition =>
                          registerRoleDefinition W definition (userFunctionName custom);;
                          mret None
                      | None => mret None
                      end) Some (registerCustomRoles W customs)).
    unfold names, customRoleNames.
    simpl flat_map. fold (customRoleNames W (serviceName (user (ctx m))) customs).
    destruct (roleDefinition custom) as [definition|].
    + destruct (registerRoleDefinition_run definition (userFunctionName custom) m)
        as (m1 & Hrun & Huser & Hdom & Htrace).
      destruct (IH m1) as (m2 & Hrun2 & Huser2 & Hdom2 & Htrace2).
      exists m2. run_m. rewrite Hrun. run_m. rewrite Hrun2.
      rewrite Huser in *. split; [done|]. split; [congruence|]. split.
      * rewrite Hdom2, Hdom. set_solver.
      * rewrite Htrace2, Htrace, Hdom, <- app_assoc, <- fmap_app.
        do 2 f_equal. symmetry. apply fresh_cons_app.
    + destruct (IH m) as (m2 & Hrun2 & Huser2 & Hdom2 & Htrace2).
      exists m2. run_m. by rewrite Hrun2.
Qed.

Lemma registerInlineRoles_run info m :
  let names := inlineRoleNamesOf W (serviceName (user (ctx m))) info in
  ∃ m', registerInlineRoles W info m = (Returns None, m')
        ∧ user (ctx m') = user (ctx m)
        ∧ dom (roleMap m') = list_to_set names ∪ dom (roleMap m)
        ∧ trace m' = trace m ++ (evAddResource <$> fresh names (dom (roleMap m))).
Proof.
  intros names. unfold registerInlineRoles, names, inlineRoleNamesOf.
  destruct (RoleDefinition info) as [definition|].
  - destruct (registerRoleDefinition_run definition (functionName info) m)
      as (m1 & Hrun & Huser & Hdom & Htrace).
    destruct (registerCustomRoles_run (customResources info) m1)
      as (m2 & Hrun2 & Huser2 & Hdom2 & Htrace2).
    exists m2. run_m. rewrite Hrun, Hrun2. rewrite Huser in *.
    split; [done|]. split; [congruence|]. split.
    + rewrite Hdom2, Hdom. set_solver.
    + rewrite Htrace2, Htrace, Hdom, <- app_assoc, <- fmap_app.
      do 2 f_equal. symmetry. apply fresh_cons_app.
  - destruct (registerCustomRoles_run (customResources info) m)
      as (m2 & Hrun2 & Huser2 & Hdom2 & Htrace2).
    exists m2. run_m. by rewrite Hrun2.
Qed.

Lemma addedResources_AddResource names :
  addedResources (evAddResource <$> names) = names.
Proof. unfold addedResources. induction names as [|n names IH]; simpl; [done | by f_equal]. Qed.

Lemma roleLookups_AddResource names : roleLookups (evAddResource <$> names) = [].
Proof. by induction names. Qed.

Lemma addedResources_GetRole names :
  addedResources ((λ n, evCall (GetRole n)) <$> names) = [].
Proof. by induction names. Qed.

Lemma roleLookups_GetRole names : roleLookups ((λ n, evCall (GetRole n)) <$> names) = names.
Proof. unfold roleLookups. induction names as [|n names IH]; simpl; [done | by f_equal]. Qed.

(** The first loop: the inline definitions met before a failure of the
    profile decorator are registered, each logical name once. *)
Lemma assembleRoleNames_run infos : ∀ acc m,
  let service := serviceName (user (ctx m)) in
  ∃ m' r done es,
    assembleRoleNames W infos acc m = (Returns r, m')
    ∧ user (ctx m') = user (ctx m)
    ∧ trace m' = trace m ++ es
    ∧ addedResources es = fresh done (dom (roleMap m))
    ∧ roleLookups es = []
    ∧ dom (roleMap m') = list_to_set done ∪ dom (roleMap m)
    ∧ done `prefix_of` inlineRoleNames W service infos
    ∧ (r.2 = None → done = inlineRoleNames W service infos
                    ∧ r.1 = acc ++ literalRoleNames infos)
    ∧ (profileDecorator W = false ∨ (∀ fn, fails W (ProfileDecorator fn) = None) →
       r.2 = None).
Proof.
  induction infos as [|info rest IH]; intros acc m service.
  - exists m, (acc, None), [], []. simpl. rewrite !app_nil_r.
    repeat split; [set_solver | done].
  - set (acc' := (if String.eqb (RoleName info) "" then acc else acc ++ [RoleName info])
                 ++ List.filter (λ n, negb (String.eqb n ""))
                                (roleName <$> customResources info)).
    assert (acc' ++ literalRoleNames rest = acc ++ literalRoleNames (info :: rest)) as Hacc.
    { unfold acc'. simpl. destruct (String.eqb (RoleName info) ""); by rewrite <- !app_assoc. }
    assert (∀ m0 pre,
              ctx m0 = ctx m → trace m0 = trace m ++ pre →
              addedResources pre = [] → roleLookups pre = [] →
              ∃ m' r done es,
                (registerInlineRoles W info;; assembleRoleNames W rest acc') m0 = (Returns r, m')
                ∧ user (ctx m') = user (ctx m)
                ∧ trace m' = trace m ++ es
                ∧ addedResources es = fresh done (dom (roleMap m))
                ∧ roleLookups es = []
                ∧ dom (roleMap m') = list_to_set done ∪ dom (roleMap m)
                ∧ done `prefix_of` inlineRoleNames W service (info :: rest)
                ∧ (r.2 = None → done = inlineRoleNames W service (info :: rest)
                                ∧ r.1 = acc ++ literalRoleNames (info :: rest))
                ∧ (profileDecorator W = false ∨ (∀ fn, fails W (ProfileDecorator fn) = None) →
                   r.2 = None)) as Hcont.
    { intros m0 pre Hctx Hpre Hadd Hlook.
      destruct (registerInlineRoles_run info m0) as (m1 & Hrun1 & Huser1 & Hdom1 & Htrace1).
      destruct (IH acc' m1) as (m' & r & done & es & Hrun & Huser & Htrace & Hadd' & Hlook'
                                & Hdom & Hprefix & Hok & Hprofile).
      rewrite Huser1, Hctx in *. fold service in Hdom1, Htrace1, Hprefix, Hok.
      exists m', r, (inlineRoleNamesOf W service info ++ done),
        (pre ++ (evAddResource <$> fresh (inlineRoleNamesOf W service info) (dom (roleMap m)))
             ++ es).
      split; [run_m; by rewrite Hrun1|]. split; [congruence|].
      split; [by rewrite Htrace, Htrace1, Hpre, <- !app_assoc|].
      split; [|split; [|split; [|split; [|split]]]].
      - rewrite !addedResources_app, Hadd, addedResources_AddResource, Hadd', Hdom1.
        by rewrite fresh_app.
      - by rewrite !roleLookups_app, Hlook, roleLookups_AddResource, Hlook'.
      - rewrite Hdom, Hdom1, list_to_set_app_L. set_solver.
      - simpl. by apply prefix_app.
      - intros Hnone. destruct (Hok Hnone) as [-> ->]. by rewrite Hacc.
      - done. }
    cbn [assembleRoleNames]. fold acc'.
    destruct (profileDecorator W) eqn:Hdecorator.
    + destruct (fails W (ProfileDecorator (functionName info))) as [e|] eqn:Hfails.
      * exists {| ctx := ctx m; trace := trace m ++ [evCall (ProfileDecorator (functionName info))] |},
          ([], Some (errors_Wrapf e "Failed to call lambda profile decorator")), [],
          [evCall (ProfileDecorator (functionName info))].
        split; [run_m; by rewrite Hfails|]. repeat split; try done.
        -- set_solver.
        -- apply prefix_nil.
        -- intros [?|Hall]; [done|]. by rewrite Hall in Hfails.
      * destruct (Hcont {| ctx := ctx m;
                           trace := trace m ++ [evCall (ProfileDecorator (functionName info))] |}
                        [evCall (ProfileDecorator (functionName info))]
                        eq_refl eq_refl eq_refl eq_refl)
          as (m' & r & done & es & Hrun & Hrest).
        exists m', r, done, es. split; [|done].
        unfold orReturn, ext. run_m. rewrite Hfails. exact Hrun.
    + destruct (Hcont m [] eq_refl (eq_sym (app_nil_r _)) eq_refl eq_refl)
        as (m' & r & done & es & Hrun & Hrest).
      exists m', r, done, es. split; [|done].
      unfold orReturn. run_m. exact Hrun.
Qed.

Lemma forRange_cons {A} (x : A) (l : list A) (body : A → M (option error)) m :
  forRange (x :: l) body m
  = match body x m with
    | (Returns (Some e), m') => (Returns (Some e), m')
    | (Returns None, m') => forRange l body m'
    | (Panics reason, m') => (Panics reason, m')
    end.
Proof.
  cbn [forRange]. unfold orReturn, mbind, M_MBind, M_bind.
  by destruct (body x m) as [[[e|]|reason] m'].
Qed.

Lemma checkRoleName_run name m :
  checkRoleName W name m
  = match roleMap m !! name with
    | Some _ => (Returns None, m)
    | None =>
        match fails W (GetRole name) with
        | Some e =>
            (Returns (Some e), {| ctx := ctx m; trace := trace m ++ [evCall (GetRole name)] |})
        | None =>
            (Returns None,
             {| ctx := set_lambdaIAMRoleNameMap
                         (<[name := gocf_String (roleArn W name)]> (roleMap m)) (ctx m);
                trace := trace m ++ [evCall (GetRole name)] |})
        end
    end.
Proof.
  unfold checkRoleName. run_m. destruct (roleMap m !! name); [done|]. run_m.
  by destruct (fails W (GetRole name)).
Qed.

(** The second loop: the literal names that are not in the role map are
    looked up, each once, up to the first lookup that fails. *)
Lemma checkRoleNames_run names : ∀ m,
  ∃ m' r done,
    forRange names (checkRoleName W) m = (Returns r, m')
    ∧ trace m' = trace m ++ ((λ n, evCall (GetRole n)) <$> fresh done (dom (roleMap m)))
    ∧ done `prefix_of` names
    ∧ (r = None → done = names)
    ∧ (∀ e, r = Some e → ∃ n, last (fresh done (dom (roleMap m))) = Some n
                              ∧ fails W (GetRole n) = Some e)
    ∧ ((∀ n, n ∈ fresh names (dom (roleMap m)) → fails W (GetRole n) = None) → r = None)
    ∧ (∀ n e, n ∈ fresh done (dom (roleMap m)) → fails W (GetRole n) = Some e →
              r = Some e ∧ last (fresh done (dom (roleMap m))) = Some n).
Proof.
  induction names as [|name rest IH]; intros m.
  - exists m, None, []. simpl. rewrite app_nil_r. repeat split; try done.
    all: by match goal with H : _ ∈ [] |- _ => apply elem_of_nil in H end.
  - rewrite forRange_cons, checkRoleName_run.
    destruct (roleMap m !! name) as [expr|] eqn:Hlookup.
    + assert (name ∈ dom (roleMap m)) as Hin by (apply elem_of_dom; eauto).
      destruct (IH m) as (m' & r & done & Hrun & Htrace & Hprefix & Hnone & Hsome & Hok & Hfail).
      exists m', r, (name :: done). simpl fresh. rewrite !decide_True by done.
      split; [exact Hrun|]. split; [done|]. split; [by apply prefix_cons|].
      split; [by intros ->%Hnone|]. split; [done|]. split; done.
    + assert (name ∉ dom (roleMap m)) as Hout by by apply not_elem_of_dom.
      destruct (fails W (GetRole name)) as [e|] eqn:Hfails.
      * exists {| ctx := ctx m; trace := trace m ++ [evCall (GetRole name)] |}, (Some e), [name].
        simpl fresh. rewrite !decide_False by done.
        split; [done|]. split; [done|]. split; [by apply prefix_cons, prefix_nil|].
        split; [done|]. split; [|split].
        -- intros e' [= <-]. by exists name.
        -- intros Hall. rewrite Hall in Hfails; [done|]. by left.
        -- intros n e' ->%list_elem_of_singleton Hn. split; [congruence|done].
      * set (m1 := {| ctx := set_lambdaIAMRoleNameMap
                               (<[name := gocf_String (roleArn W name)]> (roleMap m)) (ctx m);
                      trace := trace m ++ [evCall (GetRole name)] |}).
        assert (dom (roleMap m1) = {[name]} ∪ dom (roleMap m)) as Hdom
          by (simpl; by rewrite dom_insert_L).
        destruct (IH m1)
          as (m' & r & done & Hrun & Htrace & Hprefix & Hnone & Hsome & Hok & Hfail).
        rewrite Hdom in *.
        exists m', r, (name :: done). simpl fresh. rewrite !decide_False by done.
        split; [exact Hrun|]. split; [by rewrite Htrace; simpl; rewrite <- app_assoc|].
        split; [by apply prefix_cons|]. split; [by intros ->%Hnone|]. split; [|split].
        -- intros e Hr. destruct (Hsome e Hr) as (n & Hlast & Hn). exists n. split; [|done].
           destruct (fresh done ({[name]} ∪ dom (roleMap m))); [done|]. exact Hlast.
        -- intros Hall. apply Hok. intros n Hn. apply Hall. by right.
        -- intros n e [->|Hn]%elem_of_cons Hfn; [congruence|].
           destruct (Hfail n e Hn Hfn) as [-> Hlast]. split; [done|].
           destruct (fresh done ({[name]} ∪ dom (roleMap m))); [done|]. exact Hlast.
Qed.

Lemma fresh_prefix (done names : list string) (seen : gset string) :
  done `prefix_of` names → fresh done seen `prefix_of` fresh names seen.
Proof. intros [k ->]. rewrite fresh_app. by eexists. Qed.

End Roles.

(** C6, as amended.  The role-resolution step never registers a logical
    name or looks up a role name twice: the resources it adds are an
    initial stretch of the distinct logical names of the inline
    definitions, the roles it looks up an initial stretch of the distinct
    literal role names that are not logical names of inline definitions
    (those are served from the shared role map without a remote call).
    When the profile decorator does not fail, every distinct logical name
    is registered; when moreover no lookup fails, every such literal name is
    looked up and the step hands over to the precondition step.  A lookup
    that fails is the last one, and the step returns its error. *)
Theorem verifyIAMRoles_role_resolution (W : World) (m : machine) :
  let service := serviceName (user (ctx m)) in
  let infos := lambdaAWSInfos (user (ctx m)) in
  let inline := inlineRoleNames W service infos in
  let literal := literalRoleNames infos in
  let lookups := fresh literal (list_to_set inline) in
  ∃ r m' es,
    runStep (verifyIAMRoles W) m = (Returns r, m')
    ∧ trace m' = trace m ++ es
    ∧ addedResources es `prefix_of` fresh inline ∅
    ∧ roleLookups es `prefix_of` lookups
    ∧ NoDup (addedResources es) ∧ NoDup (roleLookups es)
    ∧ (∀ l, l ∈ fresh inline ∅ ↔ l ∈ inline)
    ∧ (∀ n, n ∈ lookups ↔ n ∈ literal ∧ n ∉ inline)
    ∧ (profileDecorator W = false ∨ (∀ fn, fails W (ProfileDecorator fn) = None) →
       addedResources es = fresh inline ∅
       ∧ ((∀ n, n ∈ lookups → fails W (GetRole n) = None) →
          r = (Some (verifyAWSPreconditions W), None) ∧ roleLookups es = lookups))
    ∧ (∀ n e, n ∈ roleLookups es → fails W (GetRole n) = Some e →
              r = (None, Some e) ∧ last (roleLookups es) = Some n).
Proof.
  intros service infos inline literal lookups.
  set (m0 := {| ctx := set_lambdaIAMRoleNameMap ∅ (ctx m); trace := trace m |}).
  destruct (assembleRoleNames_run W infos [] m0)
    as (m1 & r1 & done1 & es1 & Hrun1 & Huser1 & Htrace1 & Hadd1 & Hlook1 & Hdom1
        & Hprefix1 & Hok1 & Hprofile1).
  simpl in Hdom1, Hadd1, Hprefix1, Hok1. rewrite dom_empty_L in Hdom1, Hadd1.
  fold service infos inline in Hprefix1, Hok1.
  assert (∀ l, l ∈ fresh inline ∅ ↔ l ∈ inline) as Hinline.
  { intros l. rewrite elem_of_fresh. set_solver. }
  assert (∀ n, n ∈ lookups ↔ n ∈ literal ∧ n ∉ inline) as Hlookups.
  { intros n. unfold lookups. rewrite elem_of_fresh. set_solver. }
  destruct r1 as [names [e|]].
  - exists (None, Some e), {| ctx := (recordDuration "Verifying IAM roles" m1).2.(ctx);
                              trace := trace m1 |}, es1.
    split.
    { unfold runStep, verifyIAMRoles. run_m. fold infos m0. by rewrite Hrun1. }
    split; [done|]. rewrite Hadd1, Hlook1.
    split; [by apply fresh_prefix|]. split; [by apply prefix_nil|].
    split; [by apply NoDup_fresh|]. split; [by apply NoDup_nil|].
    split; [done|]. split; [done|]. split.
    + intros Hp. by specialize (Hprofile1 Hp).
    + intros n e' Hn. by apply elem_of_nil in Hn.
  - destruct (Hok1 eq_refl) as [-> Hnames]. simpl in Hnames. subst names.
    destruct (checkRoleNames_run W literal m1)
      as (m2 & r2 & done2 & Hrun2 & Htrace2 & Hprefix2 & Hnone2 & Hsome2 & Hok2 & Hfail2).
    rewrite Hdom1, (right_id_L ∅ (∪)) in Htrace2, Hsome2, Hok2, Hfail2.
    fold lookups in Hok2.
    exists (match r2 with
            | Some e => (None, Some e)
            | None => (Some (verifyAWSPreconditions W), None)
            end),
      {| ctx := (recordDuration "Verifying IAM roles" m2).2.(ctx); trace := trace m2 |},
      (es1 ++ ((λ n, evCall (GetRole n)) <$> fresh done2 (list_to_set inline))).
    split.
    { unfold runStep, verifyIAMRoles. run_m. fold infos m0. rewrite Hrun1. run_m.
      unfold literal in Hrun2. rewrite Hrun2. by destruct r2. }
    split; [by rewrite Htrace2, Htrace1, <- app_assoc|].
    rewrite addedResources_app, roleLookups_app, Hadd1, Hlook1.
    rewrite addedResources_GetRole, roleLookups_GetRole, app_nil_r. simpl app.
    split; [done|]. split; [by apply fresh_prefix|].
    split; [by apply NoDup_fresh|]. split; [by apply NoDup_fresh|].
    split; [done|]. split; [done|]. split.
    + intros _. split; [done|]. intros Hall. rewrite (Hok2 Hall).
      split; [done|]. by rewrite (Hnone2 (Hok2 Hall)).
    + intros n e Hn Hfn. destruct (Hfail2 n e Hn Hfn) as [-> Hlast]. done.
Qed.

Lemma verifyIAMRoles_role_resolution_witness :
  ∃ r m' es,
    runStep (verifyIAMRoles calmWorld)
      (loopEntry calmWorld false "svc" "" [helloLambda; workerLambda] None None "bucket"
                 false false "b1" "" "" "" false None)
    = (Returns r, m')
    ∧ trace m' = es
    ∧ r = (Some (verifyAWSPreconditions calmWorld), None)
    ∧ literalRoleNames [helloLambda; workerLambda]
      = ["lambdaRole"; "lambdaRole"; "lambdaRole"]
    ∧ roleLookups es = ["lambdaRole"].
Proof.
  destruct (verifyIAMRoles_role_resolution calmWorld
              (loopEntry calmWorld false "svc" "" [helloLambda; workerLambda] None None
                         "bucket" false false "b1" "" "" "" false None))
    as (r & m' & es & Hrun & Htrace & _ & _ & _ & _ & _ & _ & Hok & _).
  destruct (Hok (or_introl eq_refl)) as [_ Hall].
  destruct (Hall (λ _ _, eq_refl)) as [Hr Hlookups].
  exists r, m', es. split; [exact Hrun|]. split; [exact Htrace|]. split; [exact Hr|].
  split; [reflexivity|].
  rewrite Hlookups. vm_compute. reflexivity.
Defined.

(** C6 as stated fails when a literal role name is also the logical name
    of an inline role definition: the name is found in the role map, which
    both kinds of names share, and no remote existence check is made for
    it. *)
Lemma verifyIAMRoles_shared_name_not_checked :
  let m := loopEntry calmWorld false "svc" "" [inlineRoleLambda; namedRoleLambda] None None
                     "bucket" false false "b1" "" "" "" false None in
  let result := runStep (verifyIAMRoles calmWorld) m in
  literalRoleNames [inlineRoleLambda; namedRoleLambda] = ["IAMRolesvchello"]
  ∧ roleLookups (trace result.2) = []
  ∧ addedResources (trace result.2) = ["IAMRolesvchello"]
  ∧ result.1 = Returns (Some (verifyAWSPreconditions calmWorld), None).
Proof.
  split; [reflexivity|]. split; [by vm_compute|]. split; [by vm_compute|]. reflexivity.
Qed.

(** ** Dry runs *)

Section Keeps.

Local Abbreviation any := (λ _, True).

Lemma keeps_ret {A} (Q : A → Prop) (a : A) : Q a → keeps Q (mret a).
Proof. intros HQ m Hm. exists []. by rewrite app_nil_r. Qed.

Lemma keeps_bind {A B} (Q1 : A → Prop) (Q : B → Prop) (x : M A) (f : A → M B) :
  keeps Q1 x → (∀ a, Q1 a → keeps Q (f a)) → keeps Q (x ≫= f).
Proof.
  intros Hx Hf m Hm. destruct (Hx m Hm) as (es1 & Ht1 & HP1 & HI1 & HQ1).
  unfold mbind, M_MBind, M_bind.
  destruct (x m) as [[a|reason] m1]; simpl in *.
  - destruct (Hf a HQ1 m1 HI1) as (es2 & Ht2 & HP2 & HI2 & HQ2).
    exists (es1 ++ es2). rewrite Ht2, Ht1, app_assoc.
    split; [done|]. split; [by apply Forall_app|done].
  - by exists es1.
Qed.

Lemma keeps_seq {A B} (Q : B → Prop) (x : M A) (f : A → M B) :
  keeps any x → (∀ a, keeps Q (f a)) → keeps Q (x ≫= f).
Proof. intros Hx Hf. eapply keeps_bind; [exact Hx | auto]. Qed.

Lemma keeps_emit (e : event) : dryEvent e → keeps any (emit e).
Proof. intros He m Hm. exists [e]. simpl. repeat split; try apply Hm. by repeat constructor. Qed.

Lemma keeps_get : keeps dryRun get.
Proof. intros m Hm. exists []. simpl. by rewrite app_nil_r. Qed.

Lemma keeps_modify f : (∀ c, dryRun c → dryRun (f c)) → keeps any (modify f).
Proof. intros Hf m Hm. exists []. simpl. rewrite app_nil_r. auto. Qed.

Lemma keeps_panic {A} (Q : A → Prop) reason : keeps Q (panic reason).
Proof. intros m Hm. exists []. simpl. by rewrite app_nil_r. Qed.

Lemma keeps_orReturn {R} (Q : R → Prop) x (onErr : error → R) k :
  keeps any x → (∀ e, Q (onErr e)) → keeps Q k → keeps Q (orReturn x onErr k).
Proof.
  intros Hx He Hk. unfold orReturn. eapply keeps_seq; [exact Hx|].
  intros [e|]; [by apply keeps_ret | done].
Qed.

Lemma keeps_orReturnV {A R} (Q : R → Prop) (x : M (A * option error))
    (onErr : error → R) k :
  keeps any x → (∀ e, Q (onErr e)) → (∀ a, keeps Q (k a)) → keeps Q (orReturnV x onErr k).
Proof.
  intros Hx He Hk. unfold orReturnV. eapply keeps_seq; [exact Hx|].
  intros [a [e|]]; simpl; [by apply keeps_ret | done].
Qed.

Lemma keeps_defer {A} (Q : A → Prop) (d : M unit) (body : M A) :
  keeps any d → keeps Q body → keeps Q (defer d body).
Proof.
  intros Hd Hb m Hm. unfold defer.
  destruct (Hb m Hm) as (es1 & Ht1 & HP1 & HI1 & HQ1).
  destruct (body m) as [r m1]; simpl in *.
  destruct (Hd m1 HI1) as (es2 & Ht2 & HP2 & HI2 & _).
  exists (es1 ++ es2). rewrite Ht2, Ht1, app_assoc.
  split; [done|]. split; [by apply Forall_app|done].
Qed.

Lemma keeps_forRange {A} (l : list A) body :
  (∀ a, keeps any (body a)) → keeps any (forRange l body).
Proof.
  intros Hb. induction l as [|a l IH]; simpl.
  - by apply keeps_ret.
  - by apply keeps_orReturn.
Qed.

Lemma keeps_workerPool_Run {A} (tasks : list (M (option A * option error))) :
  Forall (keeps any) tasks → keeps any (workerPool_Run tasks).
Proof.
  induction 1 as [|task tasks Htask _ IH]; simpl.
  - by apply keeps_ret.
  - eapply keeps_seq; [exact Htask|]. intros r.
    eapply keeps_seq; [exact IH|]. intros rs. by apply keeps_ret.
Qed.

Lemma keeps_ext W c : dryEvent (evCall c) → keeps any (ext W c).
Proof.
  intros Hc. unfold ext. apply keeps_seq; [by apply keeps_emit|].
  intros. by apply keeps_ret.
Qed.

Lemma keeps_timeNow W : keeps any (timeNow W).
Proof. intros m Hm. exists [evClock]. simpl. repeat split; try apply Hm. by repeat constructor. Qed.

End Keeps.

Create HintDb keeps.

#[export] Hint Resolve keeps_get keeps_panic keeps_timeNow : keeps.

(** One step of a dry-run argument. *)
Ltac keeps_step :=
  first
    [ progress intros
    | match goal with
      | H : dryRun _ |- _ => destruct H as (? & ? & ?)
      | H : noop (user ?c) = true |- context [noop (user ?c)] => rewrite H
      | H : s3BucketVersioningEnabled (context ?c) = false
        |- context [s3BucketVersioningEnabled (context ?c)] => rewrite H
      | |- keeps _ (mbind _ get) => eapply keeps_bind; [apply keeps_get|]
      | |- keeps _ (orReturn _ _ _) => apply keeps_orReturn
      | |- keeps _ (orReturnV _ _ _) => apply keeps_orReturnV
      | |- keeps _ (defer _ _) => apply keeps_defer
      | |- keeps _ (forRange _ _) => apply keeps_forRange
      | |- keeps _ (mret _) => apply keeps_ret
      | |- keeps _ (ext _ _) => apply keeps_ext; exact I
      | |- keeps _ (emit _) => apply keeps_emit; exact I
      | |- keeps _ (modify _) =>
          apply keeps_modify; intros ? (? & ? & ?); repeat split; assumption
      | |- keeps _ (if true then _ else _) => cbv iota
      | |- keeps _ (if false then _ else _) => cbv iota
      | |- keeps _ (match ?x with _ => _ end) => destruct x
      | |- keeps _ (if ?x then _ else _) => destruct x
      | |- keeps _ (let _ := _ in _) => cbv zeta
      end
    | solve [eauto with keeps | unfold dryResult; cbn [fst snd]; eauto with keeps]
    | match goal with
      | |- keeps _ (mbind _ _) => apply keeps_seq
      end
    | done ].

Ltac keeps_go := repeat keeps_step.

Section DrySteps.

Variable W : World.

Local Abbreviation any := (λ _, True).

Lemma keeps_keyName u : keeps any (keyName u).
Proof. destruct u; simpl; keeps_go. Qed.

Lemma keeps_recordDuration name : keeps any (recordDuration name).
Proof. unfold recordDuration. keeps_go. Qed.

Lemma keeps_registerFileCleanupFinalizer f : keeps any (registerFileCleanupFinalizer f).
Proof. unfold registerFileCleanupFinalizer, registerFinalizer. keeps_go. Qed.

Hint Resolve keeps_keyName keeps_recordDuration keeps_registerFileCleanupFinalizer : keeps.

Lemma keeps_callServiceDecoratorHook : keeps any (callServiceDecoratorHook W).
Proof. unfold callServiceDecoratorHook. keeps_go. Qed.

Lemma keeps_callArchiveHook : keeps any (callArchiveHook W).
Proof. unfold callArchiveHook. keeps_go. Qed.

Lemma keeps_callWorkflowHook phase hook hooks :
  keeps any (callWorkflowHook W phase hook hooks).
Proof. unfold callWorkflowHook. keeps_go. Qed.

Lemma keeps_callValidationHooks hooks : keeps any (callValidationHooks W hooks).
Proof. unfold callValidationHooks. keeps_go. Qed.

(** A dry-run upload calls no collaborator and registers nothing. *)
Lemma keeps_uploadLocalFileToS3 localPath key :
  keeps any (uploadLocalFileToS3 W localPath key).
Proof. unfold uploadLocalFileToS3. keeps_go. Qed.

Hint Resolve keeps_callServiceDecoratorHook keeps_callArchiveHook keeps_callWorkflowHook
  keeps_callValidationHooks keeps_uploadLocalFileToS3 : keeps.

Lemma keeps_createCodePipelineTriggerPackage :
  keeps any (createCodePipelineTriggerPackage W).
Proof. unfold createCodePipelineTriggerPackage. keeps_go. Qed.

Lemma keeps_editTemplate c : dryEvent (evCall c) → keeps any (editTemplate W c).
Proof. intros Hc. unfold editTemplate. keeps_go. by apply keeps_ext. Qed.

Hint Resolve keeps_createCodePipelineTriggerPackage : keeps.

Lemma dryStep_intro run : keeps dryResult run → dryStep (WorkflowStep run).
Proof.
  intros H m Hm. destruct (H m Hm) as (es & Ht & HP & HI & HQ). exists es.
  split; [done|]. split; [done|]. split; [done|].
  destruct ((run m).1) as [[[next|] e]|]; done.
Qed.

(** In a dry run the last step stops after writing the template. *)
Lemma keeps_applyCloudFormationOperation : keeps dryResult (applyCloudFormationOperation W).
Proof. unfold applyCloudFormationOperation. keeps_go. Qed.

Hint Resolve keeps_applyCloudFormationOperation : keeps.

Lemma dryStep_ensureCloudFormationStack : dryStep (ensureCloudFormationStack W).
Proof.
  apply dryStep_intro. unfold ensureCloudFormationStack. keeps_go.
  all: try (apply keeps_editTemplate; exact I).
Qed.

Hint Resolve dryStep_ensureCloudFormationStack : keeps.

Lemma dryStep_validateSpartaPostconditions : dryStep (validateSpartaPostconditions W).
Proof. apply dryStep_intro. keeps_go. Qed.

Hint Resolve dryStep_validateSpartaPostconditions : keeps.

Lemma dryStep_createUploadStep packagePath : dryStep (createUploadStep W packagePath).
Proof.
  apply dryStep_intro. keeps_go.
  apply keeps_workerPool_Run. apply Forall_app. split.
  - destruct (lambdaAWSInfos (user a)); repeat constructor. keeps_go.
  - destruct (s3Site (siteContext (user a))); repeat constructor. keeps_go.
Qed.

Hint Resolve dryStep_createUploadStep : keeps.

Lemma dryStep_createPackageStep : dryStep (createPackageStep W).
Proof. apply dryStep_intro. keeps_go. Qed.

Hint Resolve dryStep_createPackageStep : keeps.

(** The precondition step of a dry run takes the branch that "assumes that
    versioning is not enabled": the flag is not written. *)
Lemma dryStep_verifyAWSPreconditions : dryStep (verifyAWSPreconditions W).
Proof. apply dryStep_intro. keeps_go. Qed.

Hint Resolve dryStep_verifyAWSPreconditions : keeps.

Lemma keeps_registerRoleDefinition definition fn :
  keeps any (registerRoleDefinition W definition fn).
Proof. unfold registerRoleDefinition. keeps_go. Qed.

Hint Resolve keeps_registerRoleDefinition : keeps.

Lemma keeps_registerCustomRoles customs : keeps any (registerCustomRoles W customs).
Proof. unfold registerCustomRoles. keeps_go. Qed.

Hint Resolve keeps_registerCustomRoles : keeps.

Lemma keeps_registerInlineRoles info : keeps any (registerInlineRoles W info).
Proof. unfold registerInlineRoles. keeps_go. Qed.

Hint Resolve keeps_registerInlineRoles : keeps.

Lemma keeps_assembleRoleNames infos names : keeps any (assembleRoleNames W infos names).
Proof. revert names. induction infos as [|info infos IH]; intros; simpl; keeps_go. Qed.

Lemma keeps_checkRoleName name : keeps any (checkRoleName W name).
Proof. unfold checkRoleName. keeps_go. Qed.

Hint Resolve keeps_assembleRoleNames keeps_checkRoleName : keeps.

Lemma dryStep_verifyIAMRoles : dryStep (verifyIAMRoles W).
Proof. apply dryStep_intro. keeps_go. Qed.

End DrySteps.

Section DryLoop.

Variable W : World.

Lemma dryEvent_noUpload es : Forall dryEvent es → Forall noUpload es.
Proof. intros H. eapply Forall_impl; [exact H|]. by intros [[]| | | | | |]. Qed.

Lemma dryRun_rollback m :
  dryRun (ctx m) →
  dryRun (ctx (rollback W m).2) ∧ Forall noUpload (rollbackEvents (ctx m)).
Proof.
  intros (Hnoop & Hflag & Hnone). rewrite rollback_run. split; [by repeat split|].
  unfold rollbackEvents. rewrite Hnone. constructor; [done|].
  apply Forall_app. split; [|constructor]. by apply Forall_fmap, Forall_forall.
Qed.

(** The loop of a dry run: whatever happens, no object is uploaded or
    deleted and the context stays a dry-run context. *)
Lemma workflowLoop_dry step :
  ∀ m, dryStep step → dryRun (ctx m) →
       ∃ es, trace (workflowLoop W step m).2 = trace m ++ es
             ∧ Forall noUpload es ∧ dryRun (ctx (workflowLoop W step m).2).
Proof.
  induction step as [run IH] using workflowStep_chain_ind. intros m Hstep Hm.
  destruct (Hstep (emit evStep m).2 Hm) as (es & Ht & HP & HI & Hnext).
  rewrite workflowLoop_unfold. simpl in Ht, HI, Hnext |- *.
  destruct (run {| ctx := ctx m; trace := trace m ++ [evStep] |})
    as [[[[next|] [err|]]|reason] m'] eqn:Hrun; simpl in Ht, HI, Hnext |- *.
  - unfold mbind, M_MBind, M_bind. destruct (dryRun_rollback m' HI) as [HI' Hrb].
    rewrite rollback_run in HI' |- *. simpl.
    exists (evStep :: es ++ rollbackEvents (ctx m')). rewrite Ht, <- !app_assoc.
    split; [done|]. split; [|done].
    constructor; [done|]. apply Forall_app. split; [by apply dryEvent_noUpload|done].
  - destruct (IH _ _ _ _ Hrun m' Hnext HI) as (es' & Ht' & HP' & HI').
    exists (evStep :: es ++ es'). rewrite Ht', Ht, <- !app_assoc.
    split; [done|]. split; [|done].
    constructor; [done|]. apply Forall_app. split; [by apply dryEvent_noUpload|done].
  - unfold mbind, M_MBind, M_bind. destruct (dryRun_rollback m' HI) as [HI' Hrb].
    rewrite rollback_run in HI' |- *. simpl.
    exists (evStep :: es ++ rollbackEvents (ctx m')). rewrite Ht, <- !app_assoc.
    split; [done|]. split; [|done].
    constructor; [done|]. apply Forall_app. split; [by apply dryEvent_noUpload|done].
  - exists (evStep :: es). rewrite Ht, <- app_assoc. split; [done|]. split; [|done].
    constructor; [done|]. by apply dryEvent_noUpload.
  - exists (evStep :: es). rewrite Ht, <- app_assoc. split; [done|]. split; [|done].
    constructor; [done|]. by apply dryEvent_noUpload.
Qed.

Lemma finalizerEvents_noUpload c : Forall noUpload (finalizerEvents c).
Proof.
  unfold finalizerEvents.
  induction (default [] (finalizerFunctions (txn c))) as [|[localPath] fs IH]; simpl;
    by repeat constructor.
Qed.

(** A dry run of [Provision] uploads and deletes nothing, never registers
    a rollback function, and leaves the versioning flag at [false]. *)
Lemma Provision_dry_run (serviceName serviceDescription : string)
    (lambdaAWSInfos : list LambdaAWSInfo) (api : option string) (site : option S3Site)
    (s3Bucket : string) (useCGO inPlaceUpdates : bool)
    (buildID codePipelineTrigger buildTags linkerFlags : string)
    (templateWriter : bool) (workflowHooks : option WorkflowHooks) :
  let run := Provision W true serviceName serviceDescription lambdaAWSInfos api site s3Bucket
                       useCGO inPlaceUpdates buildID codePipelineTrigger buildTags
                       linkerFlags templateWriter workflowHooks in
  Forall noUpload (trace run.2) ∧ dryRun (ctx run.2).
Proof.
  intros run.
  assert (∀ m, dryRun (ctx m) → Forall noUpload (trace m) →
               let after := (r ← workflowLoop W (verifyIAMRoles W);
                             match r with
                             | Some e => mret (Some e)
                             | None => runFinalizers W;; mret None
                             end) m in
               Forall noUpload (trace after.2) ∧ dryRun (ctx after.2)) as Hloop.
  { intros m Hm Ht after. unfold after, mbind, M_MBind, M_bind.
    destruct (workflowLoop_dry (verifyIAMRoles W) m (dryStep_verifyIAMRoles W) Hm)
      as (es & Htrace & HP & HI).
    destruct (workflowLoop W (verifyIAMRoles W) m) as [[[e|]|reason] m'];
      simpl in Htrace, HI |- *.
    - rewrite Htrace. split; [by apply Forall_app|done].
    - rewrite runFinalizers_run. simpl. rewrite Htrace. split; [|done].
      apply Forall_app. split; [by apply Forall_app|]. apply finalizerEvents_noUpload.
    - rewrite Htrace. split; [by apply Forall_app|done]. }
  unfold run, Provision.
  destruct (validateSpartaPreconditions W lambdaAWSInfos); [by repeat split|].
  destruct lambdaAWSInfos as [|info infos]; [destruct workflowHooks as [hooks|]|].
  - unfold orReturn. run_m. apply Hloop; [by repeat split | by repeat constructor].
  - by repeat split.
  - unfold orReturn. run_m. apply Hloop; [by repeat split | by repeat constructor].
Qed.

End DryLoop.

(** ** Uploads in a dry run *)

(** C8.  In a dry run, with the versioning flag at the [false] that
    [Provision] initialises it to, an upload under the default key returns
    the location [https://<bucket>-s3.amazonaws.com/<key>] whose key is the
    salted variant of the default key; the context is unchanged (no
    rollback function, no finalizer) and the only event is the clock
    reading (no remote call).  The dry run keeps the flag at [false]: its
    precondition step changes nothing but the list of step durations and
    calls no collaborator, and a whole dry run of [Provision] uploads and
    deletes nothing, registers no rollback function and ends with the
    flag at [false]. *)
Theorem uploadLocalFileToS3_dry_run (W : World) (m : machine) (localPath : string) :
  let c := ctx m in
  let s3DefaultKey := serviceName (user c) +:+ "/" +:+ filepath_Base localPath in
  let now := UnixNano W (length (trace m)) in
  let key := strings_TrimSuffix s3DefaultKey (path_Ext s3DefaultKey) +:+ "-"
             +:+ hex_EncodeToString (sha1.Sum (keySalt s3DefaultKey now))
             +:+ path_Ext s3DefaultKey in
  noop (user c) = true →
  (s3BucketVersioningEnabled (context c) = false →
   uploadLocalFileToS3 W localPath "" m
   = (Returns ("https://" +:+ s3Bucket (user c) +:+ "-s3.amazonaws.com/" +:+ key, None),
      {| ctx := c; trace := trace m ++ [evClock] |}))
  ∧ runStep (verifyAWSPreconditions W) m
    = (Returns (Some (createPackageStep W), None),
       {| ctx := with_txn (λ t, {| rollbackFunctions := rollbackFunctions t;
                                   finalizerFunctions := finalizerFunctions t;
                                   stepDurations := stepDurations t
                                                    ++ ["Verifying AWS preconditions"] |}) c;
          trace := trace m |})
  ∧ (∀ serviceName serviceDescription lambdaAWSInfos api site s3Bucket useCGO
       inPlaceUpdates buildID codePipelineTrigger buildTags linkerFlags templateWriter
       workflowHooks,
       let run := Provision W true serviceName serviceDescription lambdaAWSInfos api site
                            s3Bucket useCGO inPlaceUpdates buildID codePipelineTrigger
                            buildTags linkerFlags templateWriter workflowHooks in
       Forall noUpload (trace run.2) ∧ dryRun (ctx run.2)).
Proof.
  intros c s3DefaultKey now key Hnoop. split; [|split; [|intros; apply Provision_dry_run]].
  - intros Hflag. unfold uploadLocalFileToS3. run_m. fold c. rewrite Hflag, Hnoop.
    cbn [String.eqb]. unfold timeNow. run_m. reflexivity.
  - unfold runStep, verifyAWSPreconditions. run_m. fold c. rewrite Hnoop. run_m.
    by destruct m.
Qed.

Lemma uploadLocalFileToS3_dry_run_witness :
  uploadLocalFileToS3 calmWorld ".sparta/code.zip" ""
    (loopEntry calmWorld true "svc" "" [helloLambda] None None "bucket" false false "b1"
               "" "" "" false None)
  = (Returns ("https://bucket-s3.amazonaws.com/svc/code-558b801028ef84485e83d633dcdc6866d4c26299.zip",
              None),
     {| ctx := newWorkflowContext calmWorld true "svc" "" [helloLambda] None None "bucket"
                 false false "b1" "" "" "" false None;
        trace := [evClock] |}).
Proof.
  destruct (uploadLocalFileToS3_dry_run calmWorld
              (loopEntry calmWorld true "svc" "" [helloLambda] None None "bucket" false
                         false "b1" "" "" "" false None)
              ".sparta/code.zip" eq_refl) as [Hupload _].
  rewrite (Hupload eq_refl). vm_compute. reflexivity.
Defined.

(** * Further properties *)


Section Maintains.

Context (I : machine → Prop).

Local Abbreviation any := (λ _, True).

Lemma maintains_ret {A} (Q : A → Prop) (a : A) : Q a → maintains I Q (mret a).
Proof. by intros HQ m Hm. Qed.

Lemma maintains_bind {A B} (Q1 : A → Prop) (Q2 : B → Prop) (x : M A) (f : A → M B) :
  maintains I Q1 x → (∀ a, Q1 a → maintains I Q2 (f a)) → maintains I Q2 (x ≫= f).
Proof.
  intros Hx Hf m Hm. destruct (Hx m Hm) as [HI1 HQ1].
  unfold mbind, M_MBind, M_bind.
  destruct (x m) as [[a|reason] m1]; simpl in *; [by apply Hf | done].
Qed.

Lemma maintains_seq {A B} (Q : B → Prop) (x : M A) (f : A → M B) :
  maintains I any x → (∀ a, maintains I Q (f a)) → maintains I Q (x ≫= f).
Proof. intros Hx Hf. eapply maintains_bind; [exact Hx | auto]. Qed.

Lemma maintains_weaken {A} (Q1 Q2 : A → Prop) (x : M A) :
  (∀ a, Q1 a → Q2 a) → maintains I Q1 x → maintains I Q2 x.
Proof.
  intros HQ Hx m Hm. destruct (Hx m Hm) as [HI1 HQ1]. split; [done|].
  destruct ((x m).1); auto.
Qed.

Lemma maintains_panic {A} (Q : A → Prop) reason : maintains I Q (panic reason).
Proof. by intros m Hm. Qed.

Lemma maintains_orReturn {R} (Q : R → Prop) x (onErr : error → R) k :
  maintains I any x → (∀ e, Q (onErr e)) → maintains I Q k →
  maintains I Q (orReturn x onErr k).
Proof.
  intros Hx He Hk. unfold orReturn. eapply maintains_seq; [exact Hx|].
  intros [e|]; [by apply maintains_ret | done].
Qed.

Lemma maintains_orReturnV {A R} (Q : R → Prop) (x : M (A * option error))
    (onErr : error → R) k :
  maintains I any x → (∀ e, Q (onErr e)) → (∀ a, maintains I Q (k a)) →
  maintains I Q (orReturnV x onErr k).
Proof.
  intros Hx He Hk. unfold orReturnV. eapply maintains_seq; [exact Hx|].
  intros [a [e|]]; simpl; [by apply maintains_ret | done].
Qed.

Lemma maintains_defer {A} (Q : A → Prop) (d : M unit) (body : M A) :
  maintains I any d → maintains I Q body → maintains I Q (defer d body).
Proof.
  intros Hd Hb m Hm. unfold defer. destruct (Hb m Hm) as [HI1 HQ1].
  destruct (body m) as [r m1]; simpl in *. by destruct (Hd m1 HI1).
Qed.

Lemma maintains_forRange {A} (l : list A) body :
  (∀ a, maintains I any (body a)) → maintains I any (forRange l body).
Proof.
  intros Hb. induction l as [|a l IH]; simpl.
  - by apply maintains_ret.
  - by apply maintains_orReturn.
Qed.

Lemma maintains_workerPool_Run {A} (tasks : list (M (option A * option error))) :
  Forall (maintains I any) tasks → maintains I any (workerPool_Run tasks).
Proof.
  induction 1 as [|task tasks Htask _ IH]; simpl.
  - by apply maintains_ret.
  - eapply maintains_seq; [exact Htask|]. intros r.
    eapply maintains_seq; [exact IH|]. intros rs. by apply maintains_ret.
Qed.

Lemma chain_intro n run :
  maintains I (chainResult (match n with
                            | S n' => chain I n'
                            | O => λ _, False
                            end) n) run →
  chain I n (WorkflowStep run).
Proof. by destruct n. Qed.

End Maintains.

Section WellRunPrimitives.

Variables (W : World) (u0 : userdata).

Local Abbreviation any := (λ _, True).

Lemma uploadRollbacks_app a b :
  uploadRollbacks W (a ++ b) = uploadRollbacks W a ++ uploadRollbacks W b.
Proof. apply omap_app. Qed.

Lemma uploadRollbacks_snoc es e :
  uploadRollbacks W (es ++ [e])
  = uploadRollbacks W es ++ match uploadRollback W e with
                            | Some f => [f]
                            | None => []
                            end.
Proof. rewrite uploadRollbacks_app. unfold uploadRollbacks. simpl. by destruct (uploadRollback W e). Qed.

Lemma wellRun_get : maintains (wellRun W u0) (wellRead W u0) get.
Proof. intros m (Hsame & Hrb & Hflag & Hp & Hdel). by repeat split. Qed.

Lemma wellRun_emit (e : event) :
  permitted u0 e → uploadRollback W e = None → deletedObject e = None →
  maintains (wellRun W u0) any (emit e).
Proof.
  intros He Hnone Hnodel m (Hsame & Hrb & Hflag & Hp & Hdel). unfold emit. cbn [snd fst ctx trace].
  repeat split; cbn [ctx trace]; try done.
  - by rewrite uploadRollbacks_snoc, Hnone, app_nil_r.
  - apply Forall_app. by repeat constructor.
  - rewrite omap_app, Hdel. simpl. by rewrite Hnodel.
Qed.

Lemma wellRun_ext (c : call) :
  permitted u0 (evCall c) → uploadRollback W (evCall c) = None →
  deletedObject (evCall c) = None →
  maintains (wellRun W u0) any (ext W c).
Proof.
  intros Hc Hnone Hnodel. unfold ext. apply maintains_seq; [by apply wellRun_emit|].
  intros. by apply maintains_ret.
Qed.

Lemma wellRun_timeNow : maintains (wellRun W u0) any (timeNow W).
Proof.
  intros m (Hsame & Hrb & Hflag & Hp & Hdel). unfold timeNow. cbn [snd fst ctx trace].
  repeat split; cbn [ctx trace]; try done.
  - by rewrite uploadRollbacks_snoc, app_nil_r.
  - apply Forall_app. by repeat constructor.
  - by rewrite omap_app, Hdel.
Qed.

Lemma wellRun_modify (f : workflowContext → workflowContext) :
  (∀ c, forgetWrites (envVarDiscoveryInformation W) (user (f c))
        = forgetWrites (envVarDiscoveryInformation W) (user c)
        ∧ rollbackFunctions (txn (f c)) = rollbackFunctions (txn c)
        ∧ s3BucketVersioningEnabled (context (f c)) = s3BucketVersioningEnabled (context c)) →
  maintains (wellRun W u0) any (modify f).
Proof.
  intros Hf m (Hsame & Hrb & Hflag & Hp & Hdel). destruct (Hf (ctx m)) as (H1 & H2 & H3).
  unfold modify. cbn [snd fst]. repeat split; cbn [ctx trace]; [congruence..| |done|done].
  intros Hn. rewrite H3. by apply Hflag.
Qed.

(** The assignment to the environment of a custom resource touches the
    discovery entry only. *)
Lemma forgetDiscovery_set_Environment key value r :
  forgetDiscovery key (set_Environment key value r) = forgetDiscovery key r.
Proof.
  unfold forgetDiscovery, set_Environment. cbn. f_equal.
  destruct (options_Environment r) as [env|]; [|done]. cbn. by rewrite delete_insert_eq.
Qed.

Lemma forgetWrites_set_customResourceEnvironment key i j value c :
  forgetWrites key (user (set_customResourceEnvironment i j key value c))
  = forgetWrites key (user c).
Proof.
  unfold forgetWrites, set_customResourceEnvironment, set_lambdaAWSInfos. cbn. f_equal.
  rewrite (list_fmap_alter _ _ id); [by apply list_alter_id|].
  apply Forall_forall. intros info _. unfold set_customResources. cbn. f_equal.
  rewrite (list_fmap_alter _ _ id); [by apply list_alter_id|].
  apply Forall_forall. intros r _. apply forgetDiscovery_set_Environment.
Qed.

Lemma wellRun_set_discovery i j value :
  maintains (wellRun W u0) any
    (modify (set_customResourceEnvironment i j (envVarDiscoveryInformation W) value)).
Proof.
  apply wellRun_modify. intros c.
  split; [apply forgetWrites_set_customResourceEnvironment | done].
Qed.

Lemma wellRun_set_versioning (b : bool) :
  noop u0 = false → maintains (wellRun W u0) any (modify (set_s3BucketVersioningEnabled b)).
Proof.
  intros Hnoop m (Hsame & Hrb & Hflag & Hp & Hdel). unfold modify. cbn [snd fst].
  repeat split; cbn [ctx trace]; try done. congruence.
Qed.

(** An upload keeps the rollback functions in step with the uploads that
    succeeded: the rollback function is registered when, and only when,
    the upload has succeeded. *)
Lemma wellRun_upload localPath bucket key :
  noop u0 = false →
  maintains (wellRun W u0) any
    (orReturn (ext W (UploadLocalFileToS3 localPath bucket key))
       (λ e, ("", Some (errors_Wrapf e "Failed to upload local file to S3")))
       (registerRollback (S3RollbackFunc (uploadedLocation W localPath bucket key));;
        mret (uploadedLocation W localPath bucket key, None))).
Proof.
  intros Hnoop m (Hsame & Hrb & Hflag & Hp & Hdel).
  assert (Forall (permitted u0)
            (trace m ++ [evCall (UploadLocalFileToS3 localPath bucket key)])) as Hp'.
  { apply Forall_app. split; [done|]. repeat constructor; intros; first [done | congruence]. }
  unfold orReturn, ext, registerRollback, modify, emit, mbind, mret, M_MBind, M_MRet,
    M_bind, M_ret.
  cbn [fst snd ctx trace].
  destruct (fails W (UploadLocalFileToS3 localPath bucket key)) as [e|] eqn:Hfails.
  - split; [|done]. repeat split; cbn [fst snd ctx trace]; try done.
    + rewrite uploadRollbacks_snoc. cbn [uploadRollback]. by rewrite Hfails, app_nil_r.
    + by rewrite omap_app, Hdel.
  - split; [|done].
    repeat split; cbn [fst snd ctx trace with_txn txn rollbackFunctions]; try done.
    + rewrite uploadRollbacks_snoc. cbn [uploadRollback]. by rewrite Hfails, Hrb.
    + by rewrite omap_app, Hdel.
Qed.

Lemma wellRead_fields (c : workflowContext) :
  wellRead W u0 c →
  noop (user c) = noop u0 ∧ codePipelineTrigger (user c) = codePipelineTrigger u0
  ∧ inPlace (user c) = inPlace u0.
Proof.
  intros [Hsame _].
  split; [exact (f_equal noop Hsame)|].
  split; [exact (f_equal codePipelineTrigger Hsame) | exact (f_equal inPlace Hsame)].
Qed.

End WellRunPrimitives.

Create HintDb maintains.

#[export] Hint Resolve maintains_panic wellRun_timeNow : maintains.

(** Whether the run permits a call, from the branch the code is in. *)
Ltac permit :=
  unfold permitted;
  cbn [is_remote is_roleLookup is_stackOperation is_converge is_inPlaceCall orb];
  repeat split; intros; first [done | congruence].

(** One step of an invariant argument. *)
Ltac maintains_step :=
  first
    [ progress intros
    | match goal with
      | H : wellRead _ _ ?c |- _ =>
          let Hn := fresh "Hnoop" in
          let Ht := fresh "Htrigger" in
          let Hi := fresh "HinPlace" in
          destruct (wellRead_fields _ _ _ H) as (Hn & Ht & Hi);
          destruct H as [? ?];
          rewrite ?Hn, ?Ht, ?Hi; clear Hn Ht Hi
      | H : String.eqb _ _ = true |- _ => apply String.eqb_eq in H
      | |- maintains _ _ (mbind _ get) => eapply maintains_bind; [apply wellRun_get|]
      | |- maintains _ _ (orReturn (ext _ (UploadLocalFileToS3 _ _ _)) _ _) =>
          apply wellRun_upload; assumption
      | |- maintains _ _ (orReturn _ _ _) => apply maintains_orReturn
      | |- maintains _ _ (orReturnV _ _ _) => apply maintains_orReturnV
      | |- maintains _ _ (defer _ _) => apply maintains_defer
      | |- maintains _ _ (forRange _ _) => apply maintains_forRange
      | |- maintains _ _ (mret _) => apply maintains_ret
      | |- maintains _ _ (ext _ _) => apply wellRun_ext; [permit | reflexivity..]
      | |- maintains _ _ (emit _) => apply wellRun_emit; [permit | reflexivity..]
      | |- maintains _ _ (modify (set_s3BucketVersioningEnabled _)) =>
          apply wellRun_set_versioning; assumption
      | |- maintains _ _ (modify (set_customResourceEnvironment _ _ _ _)) =>
          apply wellRun_set_discovery
      | |- maintains _ _ (modify _) => apply wellRun_modify; by intros
      | |- maintains _ _ (if true then _ else _) => cbv iota
      | |- maintains _ _ (if false then _ else _) => cbv iota
      | |- maintains _ _ (match ?x with _ => _ end) => destruct x eqn:?
      | |- maintains _ _ (if ?x then _ else _) => destruct x eqn:?
      | |- maintains _ _ (let _ := _ in _) => cbv zeta
      end
    | solve [eauto with maintains | cbn [chainResult]; eauto with maintains]
    | match goal with
      | |- maintains _ _ (mbind _ _) => apply maintains_seq
      end
    | done ].

Ltac maintains_go := repeat maintains_step.

Section WellRunSteps.

Variables (W : World) (u0 : userdata).

Local Abbreviation any := (λ _, True).
Local Abbreviation I := (wellRun W u0).

Lemma wellRun_keyName u : maintains I any (keyName u).
Proof. destruct u; simpl; maintains_go. Qed.

Lemma wellRun_recordDuration name : maintains I any (recordDuration name).
Proof. unfold recordDuration. maintains_go. Qed.

Lemma wellRun_registerFileCleanupFinalizer f :
  maintains I any (registerFileCleanupFinalizer f).
Proof. unfold registerFileCleanupFinalizer, registerFinalizer. maintains_go. Qed.

Hint Resolve wellRun_keyName wellRun_recordDuration
  wellRun_registerFileCleanupFinalizer : maintains.

Lemma wellRun_callServiceDecoratorHook : maintains I any (callServiceDecoratorHook W).
Proof. unfold callServiceDecoratorHook. maintains_go. Qed.

Lemma wellRun_callArchiveHook : maintains I any (callArchiveHook W).
Proof. unfold callArchiveHook. maintains_go. Qed.

Lemma wellRun_callWorkflowHook phase hook hooks :
  maintains I any (callWorkflowHook W phase hook hooks).
Proof. unfold callWorkflowHook. maintains_go. Qed.

Lemma wellRun_callValidationHooks hooks : maintains I any (callValidationHooks W hooks).
Proof. unfold callValidationHooks. maintains_go. Qed.

Hint Resolve wellRun_callServiceDecoratorHook wellRun_callArchiveHook
  wellRun_callWorkflowHook wellRun_callValidationHooks : maintains.

Lemma wellRun_uploadLocalFileToS3 localPath key :
  maintains I any (uploadLocalFileToS3 W localPath key).
Proof.
  unfold uploadLocalFileToS3. maintains_go.
Qed.

Hint Resolve wellRun_uploadLocalFileToS3 : maintains.

Lemma wellRun_createCodePipelineTriggerPackage :
  maintains I any (createCodePipelineTriggerPackage W).
Proof. unfold createCodePipelineTriggerPackage. maintains_go. Qed.

Lemma wellRun_editTemplate c :
  is_remote c = false → maintains I any (editTemplate W c).
Proof.
  intros Hc. unfold editTemplate. maintains_go.
  apply wellRun_ext; [|by destruct c..]. destruct c; try discriminate; permit.
Qed.

Hint Resolve wellRun_createCodePipelineTriggerPackage : maintains.

Lemma wellRun_classifyChanges changes requests invalid :
  maintains I any (classifyChanges changes requests invalid).
Proof.
  revert requests invalid.
  induction changes as [|change changes IH]; intros; simpl; maintains_go.
Qed.

Hint Resolve wellRun_classifyChanges : maintains.

Lemma wellRun_applyInPlaceFunctionUpdates templateURL :
  noop u0 = false → codePipelineTrigger u0 = "" → inPlace u0 = true →
  maintains I any (applyInPlaceFunctionUpdates W templateURL).
Proof.
  intros Hnoop Htrigger HinPlace. unfold applyInPlaceFunctionUpdates. maintains_go.
  apply maintains_workerPool_Run. apply Forall_app. split.
  - apply Forall_fmap, Forall_forall. intros request _. simpl. maintains_go.
  - constructor; [|constructor]. maintains_go.
Qed.

(** The last operation of the workflow: it hands over to no step. *)
Lemma wellRun_applyCloudFormationOperation :
  maintains I (chainResult (λ _, False) 0) (applyCloudFormationOperation W).
Proof.
  unfold applyCloudFormationOperation. maintains_go.
  by apply wellRun_applyInPlaceFunctionUpdates.
Qed.

Hint Resolve wellRun_applyCloudFormationOperation : maintains.

Lemma chain_ensureCloudFormationStack : chain I 0 (ensureCloudFormationStack W).
Proof.
  apply chain_intro. maintains_go.
  all: try (apply wellRun_editTemplate; reflexivity).
Qed.

Hint Resolve chain_ensureCloudFormationStack : maintains.

Lemma chain_validateSpartaPostconditions : chain I 1 (validateSpartaPostconditions W).
Proof. apply chain_intro. maintains_go. Qed.

Hint Resolve chain_validateSpartaPostconditions : maintains.

Lemma chain_createUploadStep packagePath : chain I 2 (createUploadStep W packagePath).
Proof.
  apply chain_intro. maintains_go.
  apply maintains_workerPool_Run. apply Forall_app. split.
  - destruct (lambdaAWSInfos (user a)); [constructor|]. constructor; [|constructor].
    maintains_go.
  - destruct (s3Site (siteContext (user a))); [|constructor]. constructor; [|constructor].
    maintains_go.
Qed.

Hint Resolve chain_createUploadStep : maintains.

Lemma chain_createPackageStep : chain I 3 (createPackageStep W).
Proof. apply chain_intro. maintains_go. Qed.

Hint Resolve chain_createPackageStep : maintains.

Lemma chain_verifyAWSPreconditions : chain I 4 (verifyAWSPreconditions W).
Proof. apply chain_intro. maintains_go. Qed.

Hint Resolve chain_verifyAWSPreconditions : maintains.

Lemma wellRun_registerRoleDefinition definition fn :
  maintains I any (registerRoleDefinition W definition fn).
Proof. unfold registerRoleDefinition. maintains_go. Qed.

Hint Resolve wellRun_registerRoleDefinition : maintains.

Lemma wellRun_registerCustomRoles customs : maintains I any (registerCustomRoles W customs).
Proof. unfold registerCustomRoles. maintains_go. Qed.

Hint Resolve wellRun_registerCustomRoles : maintains.

Lemma wellRun_registerInlineRoles info : maintains I any (registerInlineRoles W info).
Proof. unfold registerInlineRoles. maintains_go. Qed.

Hint Resolve wellRun_registerInlineRoles : maintains.

Lemma wellRun_assembleRoleNames infos names :
  maintains I any (assembleRoleNames W infos names).
Proof. revert names. induction infos as [|info infos IH]; intros; simpl; maintains_go. Qed.

Lemma wellRun_checkRoleName name : maintains I any (checkRoleName W name).
Proof. unfold checkRoleName. maintains_go. Qed.

Hint Resolve wellRun_assembleRoleNames wellRun_checkRoleName : maintains.

Lemma chain_verifyIAMRoles : chain I 5 (verifyIAMRoles W).
Proof. apply chain_intro. maintains_go. Qed.

End WellRunSteps.

Section ChainLoop.

Variables (W : World) (I : machine → Prop).

Hypothesis I_step : ∀ m, I m → I (emit evStep m).2.

(** The loop over a chain of depth [n]: the steps keep the invariant, at
    most [n + 1] of them are invoked, and all of them when the loop is
    left by [break].  [m1] is the state in which the last step ends. *)
Lemma workflowLoop_chain n :
  ∀ step m, chain I n step → quietStep step → I m →
  ∃ m1 es, I m1 ∧ trace m1 = trace m ++ es ∧ Forall loopEvent es
           ∧ (occurrences is_evStep es ≤ S n)%nat
           ∧ match (workflowLoop W step m).1 with
             | Returns None =>
                 (workflowLoop W step m).2 = m1 ∧ occurrences is_evStep es = S n
             | Returns (Some e) => (workflowLoop W step m).2 = (rollback W m1).2
             | Panics _ => (workflowLoop W step m).2 = m1
             end.
Proof.
  induction n as [|n IH]; intros [run] m Hchain Hq Hm.
  all: rewrite workflowLoop_unfold.
  all: destruct (Hchain _ (I_step m Hm)) as [HI HQ].
  all: destruct (quietStep_elim run (emit evStep m).2 Hq) as (es & Ht & HP & Hnext).
  all: assert (occurrences is_evStep es = 0%nat) as Hnone
         by (apply (occurrences_none _ stepEvent); [by intros []|done]).
  all: assert (Forall loopEvent (evStep :: es)) as Hloop
         by (constructor; [by right | by apply stepEvent_loopEvent]).
  all: destruct (run (emit evStep m).2) as [[[[next|] [err|]]|reason] m'] eqn:Hrun.
  all: cbn [fst snd chainResult emit trace] in Ht, Hnext, HI, HQ; try done.
  all: unfold mbind, M_MBind, M_bind; rewrite ?rollback_run; cbn [fst snd].
  all: try (exists m', (evStep :: es); rewrite ?rollback_run;
            unfold mret, M_MRet, M_ret; cbn [fst snd]; rewrite Ht, <- app_assoc;
            change (evStep :: es) with ([evStep] ++ es) in *;
            rewrite occurrences_app, Hnone; cbn; repeat split; try done; lia).
  destruct (IH next m' HQ Hnext HI) as (m1 & es' & HI1 & Ht1 & HP1 & Hle & Hres).
  exists m1, (evStep :: es ++ es'). rewrite Ht1, Ht, <- !app_assoc.
  split; [done|]. split; [done|].
  split; [constructor; [by right|]; apply Forall_app; split;
          [by apply stepEvent_loopEvent | done]|].
  change (evStep :: es ++ es') with ([evStep] ++ es ++ es').
  rewrite !occurrences_app, Hnone. cbn.
  split; [lia|].
  destruct ((workflowLoop W next m').1) as [[e|]|reason]; [done| |done].
  destruct Hres as [-> ->]. done.
Qed.

End ChainLoop.

Lemma omap_none {A B} (f : A → option B) (l : list A) :
  Forall (λ a, f a = None) l → omap f l = [].
Proof. induction 1 as [|a l Ha _ IH]; simpl; [done|]. by rewrite Ha. Qed.

Section WellRunLoop.

Variables (W : World) (u0 : userdata).

Lemma wellRun_step m : wellRun W u0 m → wellRun W u0 (emit evStep m).2.
Proof. intros Hm. by apply (wellRun_emit W u0 evStep). Qed.

(** A dry run has uploaded nothing. *)
Lemma dry_uploadRollbacks es :
  noop u0 = true → Forall (permitted u0) es → uploadRollbacks W es = [].
Proof.
  intros Hnoop. induction 1 as [|e es He _ IH]; [done|].
  change (e :: es) with ([e] ++ es). rewrite uploadRollbacks_app, IH, app_nil_r.
  destruct e as [[]| | | | | |]; try done.
  destruct He as [He _]. by specialize (He Hnoop eq_refl).
Qed.

Lemma rollbackEvents_permitted m :
  wellRun W u0 m → Forall (permitted u0) (rollbackEvents (ctx m)).
Proof.
  intros (Hsame & Hrb & Hflag & Hp & Hdel). unfold rollbackEvents.
  constructor; [done|]. apply Forall_app. split.
  - apply Forall_fmap, Forall_forall. intros h _. permit.
  - destruct (noop u0) eqn:Hnoop.
    + rewrite Hrb, dry_uploadRollbacks by done. constructor.
    + apply Forall_fmap, Forall_forall. intros [loc] _. permit.
Qed.

Lemma rollbackEvents_uploads c : uploadRollbacks W (rollbackEvents c) = [].
Proof.
  unfold rollbackEvents. change (evRollback :: ?l) with ([evRollback] ++ l).
  rewrite !uploadRollbacks_app. unfold uploadRollbacks. simpl.
  rewrite !omap_none; [done|..].
  - apply Forall_fmap, Forall_forall. by intros [loc] _.
  - apply Forall_fmap, Forall_forall. by intros h _.
Qed.

Lemma rollbackEvents_deletes c :
  omap deletedObject (rollbackEvents c) = uploadLocationOf <$> rollbackFunctions (txn c).
Proof.
  unfold rollbackEvents. change (evRollback :: ?l) with ([evRollback] ++ l).
  rewrite !omap_app. simpl.
  rewrite omap_none; [|apply Forall_fmap, Forall_forall; by intros h _].
  cbn [app]. induction (rollbackFunctions (txn c)) as [|[loc] fs IH]; [done|].
  rewrite !fmap_cons. cbn [omap list_omap rollbackCall deletedObject uploadLocationOf].
  by rewrite <- IH.
Qed.

Lemma rollbackEvents_no_step c : occurrences is_evStep (rollbackEvents c) = 0%nat.
Proof.
  apply (occurrences_none _ (λ e, is_evStep e = false)); [done|].
  unfold rollbackEvents. constructor; [done|].
  apply Forall_app. split; apply Forall_fmap, Forall_forall; done.
Qed.

Lemma finalizerEvents_permitted c : Forall (permitted u0) (finalizerEvents c).
Proof.
  unfold finalizerEvents.
  induction (default [] (finalizerFunctions (txn c))) as [|[localPath] fs IH]; simpl;
    [constructor|].
  constructor; [done|]. constructor; [permit | done].
Qed.

Lemma finalizerEvents_uploads c : uploadRollbacks W (finalizerEvents c) = [].
Proof.
  unfold finalizerEvents, uploadRollbacks.
  induction (default [] (finalizerFunctions (txn c))) as [|[localPath] fs IH]; simpl; done.
Qed.

Lemma finalizerEvents_deletes c : omap deletedObject (finalizerEvents c) = [].
Proof.
  unfold finalizerEvents.
  induction (default [] (finalizerFunctions (txn c))) as [|[localPath] fs IH]; simpl; done.
Qed.

End WellRunLoop.

Section WellRunProvision.

Variables (W : World) (noop : bool) (serviceName serviceDescription : string)
  (lambdaAWSInfos : list LambdaAWSInfo) (api : option string) (site : option S3Site)
  (s3Bucket : string) (useCGO inPlaceUpdates : bool)
  (buildID codePipelineTrigger buildTags linkerFlags : string)
  (templateWriter : bool) (workflowHooks : option WorkflowHooks).

Local Abbreviation run :=
  (Provision W noop serviceName serviceDescription lambdaAWSInfos api site s3Bucket
     useCGO inPlaceUpdates buildID codePipelineTrigger buildTags linkerFlags
     templateWriter workflowHooks).

Local Abbreviation entry :=
  (loopEntry W noop serviceName serviceDescription lambdaAWSInfos api site s3Bucket
     useCGO inPlaceUpdates buildID codePipelineTrigger buildTags linkerFlags
     templateWriter workflowHooks).

Local Abbreviation u0 := (user (ctx entry)).

Lemma wellRun_entry : wellRun W u0 entry.
Proof.
  unfold loopEntry. repeat split; cbn [ctx trace]; try done.
  all: destruct lambdaAWSInfos; by repeat constructor.
Qed.

(** What holds of every run of [Provision] when it ends. *)
Lemma Provision_run_invariant :
  forgetWrites (envVarDiscoveryInformation W) (user (ctx run.2))
  = forgetWrites (envVarDiscoveryInformation W) u0
  ∧ rollbackFunctions (txn (ctx run.2)) = uploadRollbacks W (trace run.2)
  ∧ Forall (permitted u0) (trace run.2)
  ∧ omap deletedObject (trace run.2)
    = match run.1 with
      | Returns (Some _) => uploadLocationOf <$> uploadRollbacks W (trace run.2)
      | _ => []
      end
  ∧ (occurrences is_evStep (trace run.2) ≤ 6)%nat
  ∧ (run.1 = Returns None → occurrences is_evStep (trace run.2) = 6%nat).
Proof.
  destruct (reaches_dec W lambdaAWSInfos workflowHooks) as [Hreach|Hnot].
  - rewrite (Provision_loop _ _ _ _ _ _ _ _ _ _ _ _ _ _ _ _ Hreach).
    destruct (workflowLoop_chain W (wellRun W u0) (wellRun_step W u0) 5
                (verifyIAMRoles W) entry (chain_verifyIAMRoles W u0)
                (quietStep_verifyIAMRoles W) wellRun_entry)
      as (m1 & es & (Hsame & Hrb & Hflag & Hp & Hdel) & Ht & Hloop & Hle & Hres).
    assert (occurrences is_evStep (trace m1) = occurrences is_evStep es) as Hcount.
    { rewrite Ht, occurrences_app.
      by rewrite (entry_trace _ _ _ _ _ _ _ _ _ _ _ _ _ _ _ _ is_evStep eq_refl). }
    destruct (workflowLoop W (verifyIAMRoles W) entry) as [[[e|]|reason] m'];
      cbn [fst snd] in Hres |- *.
    + subst m'. rewrite rollback_run.
      cbn [fst snd ctx trace with_txn user txn rollbackFunctions].
      rewrite uploadRollbacks_app, rollbackEvents_uploads, app_nil_r.
      rewrite omap_app, Hdel, rollbackEvents_deletes, Hrb. cbn [app].
      rewrite occurrences_app, rollbackEvents_no_step, Hcount.
      repeat split; try done; try lia.
      apply Forall_app. split; [done|]. by apply (rollbackEvents_permitted W u0 m1).
    + destruct Hres as [-> Hsix]. rewrite runFinalizers_run. cbn [fst snd ctx trace].
      rewrite uploadRollbacks_app, finalizerEvents_uploads, app_nil_r.
      rewrite omap_app, Hdel, finalizerEvents_deletes.
      rewrite occurrences_app, finalizerEvents_none by done. rewrite Hcount.
      repeat split; try done; try lia.
      apply Forall_app. split; [done|]. apply finalizerEvents_permitted.
    + subst m'. rewrite Hcount. repeat split; try done; lia.
  - destruct (Provision_stopped W noop serviceName serviceDescription lambdaAWSInfos api
                site s3Bucket useCGO inPlaceUpdates buildID codePipelineTrigger buildTags
                linkerFlags templateWriter workflowHooks Hnot) as (e & Hres & Ht).
    rewrite Hres, Ht.
    assert (ctx run.2 = ctx entry) as ->.
    { unfold Provision.
      destruct (validateSpartaPreconditions W lambdaAWSInfos) as [err|] eqn:Hvalid;
        [done|].
      destruct lambdaAWSInfos as [|info infos]; [destruct workflowHooks as [hooks|]|].
      - destruct Hnot. split; [done|]. by right.
      - done.
      - destruct Hnot. split; [done|]. by left. }
    unfold occurrences. cbn. repeat split; try done; lia.
Qed.

End WellRunProvision.

(** ** Hooks *)


Section Hooks.

Variable W : World.

(** A loop whose body makes one call per element and leaves the function
    with the wrapped error of the first call that fails. *)
Lemma forRange_ext_all {A} (f : A → call) (wrap : error → error) (l : list A) m :
  Forall (λ a, fails W (f a) = None) l →
  forRange l (λ a, orReturn (ext W (f a)) (λ e, Some (wrap e)) (mret None)) m
  = (Returns None, {| ctx := ctx m; trace := trace m ++ ((λ a, evCall (f a)) <$> l) |}).
Proof.
  intros Hall. revert m. induction Hall as [|a l Ha _ IH]; intros m; simpl.
  - rewrite app_nil_r. by destruct m.
  - run_m. rewrite Ha. run_m. rewrite IH. cbn [ctx trace]. by rewrite <- app_assoc.
Qed.

Lemma forRange_ext_stops {A} (f : A → call) (wrap : error → error)
    (pre : list A) (h : A) (post : list A) (e : error) m :
  Forall (λ a, fails W (f a) = None) pre → fails W (f h) = Some e →
  forRange (pre ++ h :: post) (λ a, orReturn (ext W (f a)) (λ e, Some (wrap e)) (mret None)) m
  = (Returns (Some (wrap e)),
     {| ctx := ctx m; trace := trace m ++ ((λ a, evCall (f a)) <$> pre ++ [h]) |}).
Proof.
  intros Hpre Hh. revert m. induction Hpre as [|a l Ha _ IH]; intros m; simpl.
  - run_m. by rewrite Hh.
  - run_m. rewrite Ha. run_m. rewrite IH. cbn [ctx trace]. by rewrite <- app_assoc.
Qed.

(** X1.  [callWorkflowHook] runs the hooks of a phase in order, the hooks of
    the slice first and the deprecated single hook last; it stops at the
    first hook that fails and returns its error wrapped, and the hooks
    after it are not run.  The function itself writes nothing to the
    workflow context. *)
Theorem callWorkflowHook_stops_at_first_failure (hookPhase : string)
    (hook : option handler) (hooks : list handler) (m : machine) :
  let all := hooks ++ match hook with Some h => [h] | None => [] end in
  let called (hs : list handler) :=
    {| ctx := ctx m;
       trace := trace m ++ ((λ h, evCall (DecorateWorkflow hookPhase h)) <$> hs) |} in
  (Forall (λ h, fails W (DecorateWorkflow hookPhase h) = None) all →
   callWorkflowHook W hookPhase hook hooks m = (Returns None, called all))
  ∧ (∀ pre h post e,
       all = pre ++ h :: post →
       Forall (λ h, fails W (DecorateWorkflow hookPhase h) = None) pre →
       fails W (DecorateWorkflow hookPhase h) = Some e →
       callWorkflowHook W hookPhase hook hooks m
       = (Returns (Some (errors_Wrapf e "DecorateWorkflow returned an error")),
          called (pre ++ [h]))).
Proof.
  intros all called.
  assert (allHooks hook hooks = all) as Hall.
  { unfold allHooks, all. destruct hook; [done | by rewrite app_nil_r]. }
  unfold callWorkflowHook. rewrite Hall. split.
  - intros Hok. by rewrite (forRange_ext_all (DecorateWorkflow hookPhase)).
  - intros pre h post e -> Hpre Hh.
    by rewrite (forRange_ext_stops (DecorateWorkflow hookPhase) _ pre h post e).
Qed.

End Hooks.

Lemma callWorkflowHook_stops_at_first_failure_witness :
  let m := loopEntry failingHookWorld false "svc" "" [helloLambda] None None "bucket" false
                     false "b1" "" "" "" false None in
  callWorkflowHook failingHookWorld "PreBuild" (Some "legacy") ["format"; "lint"; "vet"] m
  = (Returns (Some (errors_Wrapf (errorString "lint failed")
                                 "DecorateWorkflow returned an error")),
     {| ctx := ctx m;
        trace := [evCall (DecorateWorkflow "PreBuild" "format");
                  evCall (DecorateWorkflow "PreBuild" "lint")] |}).
Proof.
  intros m.
  destruct (callWorkflowHook_stops_at_first_failure failingHookWorld "PreBuild"
              (Some "legacy") ["format"; "lint"; "vet"] m) as [_ Hstop].
  apply (Hstop ["format"] "lint" ["vet"; "legacy"] (errorString "lint failed")).
  - reflexivity.
  - by repeat constructor.
  - reflexivity.
Defined.

Section Loops.

(** A loop over a list whose body, on each element, only adds events:
    when every body returns [nil] the loop does, and when the body of an
    element returns an error the loop ends there. *)
Lemma forRange_all {A} (body : A → M (option error)) (evs : A → list event)
    (l : list A) m :
  Forall (λ a, ∀ m, body a m
                    = (Returns None, {| ctx := ctx m; trace := trace m ++ evs a |})) l →
  forRange l body m
  = (Returns None, {| ctx := ctx m; trace := trace m ++ flat_map evs l |}).
Proof.
  intros Hall. revert m. induction Hall as [|a l Ha _ IH]; intros m; cbn [forRange flat_map].
  - rewrite app_nil_r. by destruct m.
  - unfold orReturn, mbind, M_MBind, M_bind. rewrite Ha, IH. cbn [ctx trace].
    by rewrite <- app_assoc.
Qed.

Lemma forRange_stops {A} (body : A → M (option error)) (evs : A → list event)
    (pre : list A) (h : A) (post : list A) (e : error) m :
  Forall (λ a, ∀ m, body a m
                    = (Returns None, {| ctx := ctx m; trace := trace m ++ evs a |})) pre →
  (∀ m, body h m = (Returns (Some e), {| ctx := ctx m; trace := trace m ++ evs h |})) →
  forRange (pre ++ h :: post) body m
  = (Returns (Some e), {| ctx := ctx m; trace := trace m ++ flat_map evs (pre ++ [h]) |}).
Proof.
  intros Hpre Hh. revert m.
  induction Hpre as [|a l Ha _ IH]; intros m; cbn [app forRange flat_map].
  - unfold orReturn, mbind, M_MBind, M_bind. rewrite Hh. by rewrite app_nil_r.
  - unfold orReturn, mbind, M_MBind, M_bind. rewrite Ha, IH. cbn [ctx trace].
    by rewrite <- app_assoc.
Qed.

End Loops.

Section Validation.

Variable W : World.

Local Abbreviation validate :=
  (λ h, orReturn (ext W JSONUnmarshalTemplate)
          (λ e, Some (errors_Wrapf e
                        "Failed to unmarshal read-only copy of template for Validation"))
          (orReturn (ext W (ValidateService h))
             (λ e, Some (errors_Wrapf e "Service failed to pass validation"))
             (mret None))).

Lemma validate_run (h : handler) m :
  fails W JSONUnmarshalTemplate = None →
  validate h m
  = (Returns ((λ e, errors_Wrapf e "Service failed to pass validation")
              <$> fails W (ValidateService h)),
     {| ctx := ctx m; trace := trace m ++ validationCalls h |}).
Proof.
  intros Hcopy. run_m. rewrite Hcopy. run_m. rewrite <- app_assoc.
  by destruct (fails W (ValidateService h)).
Qed.

Lemma validation_loop_all (hooks : list handler) m :
  fails W JSONUnmarshalTemplate = None →
  Forall (λ h, fails W (ValidateService h) = None) hooks →
  forRange hooks validate m
  = (Returns None, {| ctx := ctx m; trace := trace m ++ flat_map validationCalls hooks |}).
Proof.
  intros Hcopy Hall. apply forRange_all.
  eapply Forall_impl; [exact Hall|]. intros h Hh m0. cbv beta.
  by rewrite validate_run, Hh.
Qed.

Lemma validation_loop_stops (pre : list handler) (h : handler) (post : list handler) e m :
  fails W JSONUnmarshalTemplate = None →
  Forall (λ h, fails W (ValidateService h) = None) pre →
  fails W (ValidateService h) = Some e →
  forRange (pre ++ h :: post) validate m
  = (Returns (Some (errors_Wrapf e "Service failed to pass validation")),
     {| ctx := ctx m; trace := trace m ++ flat_map validationCalls (pre ++ [h]) |}).
Proof.
  intros Hcopy Hpre Hh. apply forRange_stops.
  - eapply Forall_impl; [exact Hpre|]. intros a Ha m0. cbv beta.
    by rewrite validate_run, Ha.
  - intros m0. by rewrite validate_run, Hh.
Qed.

(** X2.  The validation hooks see copies of the template.  Without hooks the
    template is not even marshalled; with hooks it is marshalled once and
    every hook is handed a copy unmarshalled for it, up to the first hook
    that rejects the service, whose error is returned wrapped.  Whatever
    the hooks do to their copies, the template of the context is left as
    it was, and the function writes nothing else to the context. *)
Theorem callValidationHooks_read_only (m : machine) :
  callValidationHooks W [] m = (Returns None, m)
  ∧ (∀ hooks e,
       hooks ≠ [] → fails W JSONMarshalTemplate = Some e →
       callValidationHooks W hooks m
       = (Returns (Some (errors_Wrapf e "Failed to marshal template for validation")),
          {| ctx := ctx m; trace := trace m ++ [evCall JSONMarshalTemplate] |}))
  ∧ (fails W JSONMarshalTemplate = None → fails W JSONUnmarshalTemplate = None →
     (∀ hooks,
        hooks ≠ [] → Forall (λ h, fails W (ValidateService h) = None) hooks →
        callValidationHooks W hooks m
        = (Returns None,
           {| ctx := ctx m;
              trace := trace m ++ evCall JSONMarshalTemplate
                                  :: flat_map validationCalls hooks |}))
     ∧ (∀ pre h post e,
          Forall (λ h, fails W (ValidateService h) = None) pre →
          fails W (ValidateService h) = Some e →
          callValidationHooks W (pre ++ h :: post) m
          = (Returns (Some (errors_Wrapf e "Service failed to pass validation")),
             {| ctx := ctx m;
                trace := trace m ++ evCall JSONMarshalTemplate
                                    :: flat_map validationCalls (pre ++ [h]) |}))).
Proof.
  split; [|split].
  - unfold callValidationHooks. run_m. by destruct m.
  - intros [|h hooks] e Hne Hmarshal; [done|].
    unfold callValidationHooks. run_m. by rewrite Hmarshal.
  - intros Hmarshal Hcopy. split.
    + intros [|h hooks] Hne Hall; [done|].
      unfold callValidationHooks. run_m. rewrite Hmarshal.
      rewrite validation_loop_all by done. cbn [ctx trace]. by rewrite <- app_assoc.
    + intros pre h post e Hpre Hh.
      assert (∃ h' rest, pre ++ h :: post = h' :: rest) as (h' & rest & Heq).
      { destruct pre; simpl; eauto. }
      unfold callValidationHooks. rewrite Heq. run_m. rewrite Hmarshal. rewrite <- Heq.
      rewrite (validation_loop_stops pre h post e) by done. cbn [ctx trace].
      by rewrite <- app_assoc.
Qed.

End Validation.

Lemma callValidationHooks_read_only_witness :
  let m := loopEntry failingValidatorWorld false "svc" "" [helloLambda] None None "bucket"
                     false false "b1" "" "" "" false None in
  callValidationHooks failingValidatorWorld ["names"; "budget"; "tags"] m
  = (Returns (Some (errors_Wrapf (errorString "over budget")
                                 "Service failed to pass validation")),
     {| ctx := ctx m;
        trace := [evCall JSONMarshalTemplate;
                  evCall JSONUnmarshalTemplate; evCall (ValidateService "names");
                  evCall JSONUnmarshalTemplate; evCall (ValidateService "budget")] |}).
Proof.
  intros m.
  destruct (callValidationHooks_read_only failingValidatorWorld m) as (_ & _ & Hhooks).
  destruct (Hhooks eq_refl eq_refl) as [_ Hstop].
  apply (Hstop ["names"] "budget" ["tags"] (errorString "over budget")).
  - by repeat constructor.
  - reflexivity.
Defined.

(** ** Rollback *)

(** X3.  [rollback] starts every rollback hook and every registered rollback
    function, once each, whatever any of them returns, and nothing else;
    it always returns, and it changes nothing in the context but the list
    of step durations.  The handlers run as goroutines: the statement is
    up to their order. *)
Theorem rollback_runs_every_handler (W : World) (m : machine) :
  let c := ctx m in
  ∃ m' es,
    rollback W m = (Returns (), m')
    ∧ trace m' = trace m ++ evRollback :: es
    ∧ omap rollbackHookCall es ≡ₚ rollbackHooks (user c)
    ∧ omap deletedObject es ≡ₚ uploadLocationOf <$> rollbackFunctions (txn c)
    ∧ length es = (length (rollbackHooks (user c)) + length (rollbackFunctions (txn c)))%nat
    ∧ user (ctx m') = user c ∧ context (ctx m') = context c
    ∧ rollbackFunctions (txn (ctx m')) = rollbackFunctions (txn c)
    ∧ finalizerFunctions (txn (ctx m')) = finalizerFunctions (txn c)
    ∧ stepDurations (txn (ctx m')) = stepDurations (txn c) ++ ["Rollback"].
Proof.
  intros c. rewrite rollback_run. eexists _, _. split; [reflexivity|].
  cbn [ctx trace with_txn user context txn rollbackFunctions finalizerFunctions
       stepDurations].
  split; [reflexivity|]. fold c.
  assert (∀ hs : list handler,
            omap rollbackHookCall ((λ h, evCall (RollbackHook h)) <$> hs) = hs) as Hhooks.
  { induction hs as [|h hs IH]; [done|]. rewrite fmap_cons. cbn. by rewrite IH. }
  assert (∀ fs : list RollbackFunction,
            omap rollbackHookCall ((λ f, evCall (rollbackCall f)) <$> fs) = []) as Hnohook.
  { intros fs. apply omap_none, Forall_fmap, Forall_forall. by intros [loc] _. }
  assert (∀ hs : list handler,
            omap deletedObject ((λ h, evCall (RollbackHook h)) <$> hs) = []) as Hnodel.
  { intros hs. apply omap_none, Forall_fmap, Forall_forall. by intros h _. }
  assert (∀ fs : list RollbackFunction,
            omap deletedObject ((λ f, evCall (rollbackCall f)) <$> fs)
            = uploadLocationOf <$> fs) as Hdel.
  { induction fs as [|[loc] fs IH]; [done|]. rewrite !fmap_cons. cbn. by rewrite IH. }
  unfold rollbackHooks.
  rewrite !omap_app, Hhooks, Hnohook, Hnodel, Hdel, app_nil_r, length_app, !length_fmap.
  by repeat split.
Qed.

(** ** Uploads *)

(** X4.  What a real upload registers.  Outside a dry run
    [uploadLocalFileToS3] registers the finalizer that removes the local
    file before it calls S3, so the finalizer is on the list whether the
    upload succeeds or not (registered, not run: the function runs no
    finalizer).  The rollback function that deletes the uploaded object
    is registered only when the upload has succeeded, and then the
    returned location is the one S3 reported.  A failed upload returns
    the wrapped error and no location.  A key given by the caller is used
    as it is; the default key of a versioned bucket is the stable
    [<service>/<file name>], reached without reading the clock. *)
Theorem uploadLocalFileToS3_registers (W : World) (m : machine)
    (localPath s3ObjectKey : string) :
  let c := ctx m in
  let versioned := s3BucketVersioningEnabled (context c) in
  let defaultS3KeyName := serviceName (user c) +:+ "/" +:+ filepath_Base localPath in
  let byDefault := String.eqb s3ObjectKey "" in
  let key := if byDefault
             then (versionAwareS3KeyName defaultS3KeyName versioned
                                         (UnixNano W (length (trace m)))).1
             else s3ObjectKey in
  let clock := if byDefault && negb versioned then [evClock] else [] in
  let request := UploadLocalFileToS3 localPath (s3Bucket (user c)) key in
  let location := uploadedLocation W localPath (s3Bucket (user c)) key in
  noop (user c) = false →
  (byDefault = true → versioned = true → key = defaultS3KeyName)
  ∧ ∃ m',
      (uploadLocalFileToS3 W localPath s3ObjectKey m).2 = m'
      ∧ trace m' = trace m ++ clock ++ [evCall request]
      ∧ user (ctx m') = user c ∧ context (ctx m') = context c
      ∧ finalizerFunctions (txn (ctx m'))
        = Some (default [] (finalizerFunctions (txn c)) ++ [fileCleanup localPath])
      ∧ match fails W request with
        | None =>
            (uploadLocalFileToS3 W localPath s3ObjectKey m).1 = Returns (location, None)
            ∧ rollbackFunctions (txn (ctx m'))
              = rollbackFunctions (txn c) ++ [S3RollbackFunc location]
        | Some e =>
            (uploadLocalFileToS3 W localPath s3ObjectKey m).1
            = Returns ("", Some (errors_Wrapf e "Failed to upload local file to S3"))
            ∧ rollbackFunctions (txn (ctx m')) = rollbackFunctions (txn c)
        end.
Proof.
  intros c versioned defaultS3KeyName byDefault key clock request location Hnoop.
  split.
  { intros Hd Hv. unfold key. rewrite Hd, Hv. reflexivity. }
  eexists. split; [reflexivity|].
  unfold uploadLocalFileToS3, registerFileCleanupFinalizer, registerFinalizer,
    registerRollback, timeNow.
  run_m. fold c. fold byDefault versioned defaultS3KeyName.
  unfold request, location, key, clock.
  unfold versionAwareS3KeyName, sha1_Write.
  destruct byDefault; [destruct versioned|]; run_m; rewrite Hnoop; run_m.
  all: cbn [andb negb app fst snd].
  all: match goal with
       | |- context [fails ?w ?r] => destruct (fails w r)
       end; run_m; cbn [with_txn user context txn finalizerFunctions rollbackFunctions].
  all: rewrite <- ?app_assoc; by repeat split.
Qed.

Lemma uploadLocalFileToS3_registers_witness :
  let m := loopEntry uploadFailsWorld false "svc" "" [helloLambda] None None "bucket" false
                     false "b1" "" "" "" false None in
  let r := uploadLocalFileToS3 uploadFailsWorld ".sparta/svc-code.zip" "svc/code.zip" m in
  r.1 = Returns ("", Some (errors_Wrapf (errorString "RequestError: send request failed")
                                         "Failed to upload local file to S3"))
  ∧ finalizerFunctions (txn (ctx r.2)) = Some [fileCleanup ".sparta/svc-code.zip"]
  ∧ rollbackFunctions (txn (ctx r.2)) = [].
Proof.
  intros m r.
  destruct (uploadLocalFileToS3_registers uploadFailsWorld m ".sparta/svc-code.zip"
              "svc/code.zip" eq_refl) as (_ & m' & Hm' & _ & _ & _ & Hfin & Hres).
  cbn in Hres. destruct Hres as [Hres Hrb].
  unfold r. rewrite Hm', Hres, Hfin, Hrb. by repeat split.
Defined.

(** ** The precondition step, continued *)

(** X5.  A CodePipeline trigger needs a versioned bucket.  In a run that is
    not a dry run and has lambda functions, the precondition step of a
    service with a CodePipeline trigger fails when the bucket has no
    versioning policy, right after the versioning lookup and without
    looking up the region; the flag of the context then records that the
    bucket is not versioned. *)
Theorem verifyAWSPreconditions_trigger_needs_versioning (W : World) (m : machine) :
  let c := ctx m in
  let bucket := s3Bucket (user c) in
  noop (user c) = false →
  lambdaAWSInfos (user c) ≠ [] →
  codePipelineTrigger (user c) ≠ "" →
  fails W (BucketVersioningEnabled bucket) = None →
  versioningEnabled W bucket = false →
  ∃ m',
    runStep (verifyAWSPreconditions W) m
    = (Returns (None, Some (errorString
         ("s3 Bucket (" +:+ bucket
          +:+ ") for CodePipeline trigger doesn't have a versioning policy enabled"))), m')
    ∧ trace m' = trace m ++ [evCall (BucketVersioningEnabled bucket)]
    ∧ s3BucketVersioningEnabled (context (ctx m')) = false.
Proof.
  intros c bucket Hnoop Hinfos Htrigger Hlookup Hversioned.
  unfold runStep, verifyAWSPreconditions. run_m. fold c bucket. rewrite Hnoop.
  destruct (lambdaAWSInfos (user c)) as [|info infos]; [done|]. run_m.
  rewrite Hlookup. run_m. rewrite Hversioned.
  rewrite (eqb_neq_false _ _ Htrigger). cbn [negb andb]. run_m.
  eexists. split; [reflexivity|]. by split.
Qed.

Lemma verifyAWSPreconditions_trigger_needs_versioning_witness :
  ∃ m',
    runStep (verifyAWSPreconditions calmWorld)
      (loopEntry calmWorld false "svc" "" [helloLambda] None None "bucket" false false "b1"
                 "pipeline.zip" "" "" false None)
    = (Returns (None, Some (errorString
         "s3 Bucket (bucket) for CodePipeline trigger doesn't have a versioning policy enabled")),
       m').
Proof.
  destruct (verifyAWSPreconditions_trigger_needs_versioning calmWorld
              (loopEntry calmWorld false "svc" "" [helloLambda] None None "bucket" false
                         false "b1" "pipeline.zip" "" "" false None))
    as (m' & Hrun & _); [reflexivity | discriminate | discriminate | reflexivity
                         | reflexivity |].
  exists m'. exact Hrun.
Defined.

(** X6.  What a passed precondition step has established.  The step hands
    over to the packaging step only.  When it does so in a run that is not
    a dry run and has lambda functions, both lookups have succeeded, the
    bucket lives in the session's region, the flag of the context holds
    the versioning state S3 reported, and a CodePipeline trigger has found
    the bucket versioned. *)
Theorem verifyAWSPreconditions_passed (W : World) (m m' : machine)
    (next : workflowStep) :
  let c := ctx m in
  let bucket := s3Bucket (user c) in
  runStep (verifyAWSPreconditions W) m = (Returns (Some next, None), m') →
  next = createPackageStep W
  ∧ (noop (user c) = false → lambdaAWSInfos (user c) ≠ [] →
     fails W (BucketVersioningEnabled bucket) = None
     ∧ fails W (BucketRegion bucket) = None
     ∧ bucketRegion W bucket = Region (awsSession (context c))
     ∧ s3BucketVersioningEnabled (context (ctx m')) = versioningEnabled W bucket
     ∧ (codePipelineTrigger (user c) ≠ "" → versioningEnabled W bucket = true)
     ∧ trace m' = trace m ++ [evCall (BucketVersioningEnabled bucket);
                              evCall (BucketRegion bucket)]).
Proof.
  intros c bucket. unfold runStep, verifyAWSPreconditions. run_m. fold c bucket.
  destruct (noop (user c)) eqn:Hnoop; run_m.
  { intros [= <- <-]. by split. }
  destruct (lambdaAWSInfos (user c)) as [|info infos] eqn:Hinfos; run_m.
  { intros [= <- <-]. by split. }
  destruct (fails W (BucketVersioningEnabled bucket)) eqn:Hversioning; run_m; [done|].
  destruct (String.eqb (codePipelineTrigger (user c)) "") eqn:Htrigger;
    destruct (versioningEnabled W bucket) eqn:Hversioned; cbn [negb andb]; run_m;
    try done.
  all: destruct (fails W (BucketRegion bucket)) eqn:Hregion; run_m; [done|].
  all: destruct (String.eqb (bucketRegion W bucket) (Region (awsSession (context c))))
         eqn:Hsame; cbn [negb]; run_m; [|done].
  all: apply String.eqb_eq in Hsame.
  all: intros [= <- <-]; split; [done|]; intros _ _; cbn [ctx trace context
         set_s3BucketVersioningEnabled with_context with_txn s3BucketVersioningEnabled].
  all: rewrite <- app_assoc; repeat split; try done.
  all: intros Hne; apply String.eqb_eq in Htrigger; done.
Qed.

Lemma verifyAWSPreconditions_passed_witness :
  let m := loopEntry calmWorld false "svc" "" [helloLambda] None None "bucket" false false
                     "b1" "" "" "" false None in
  bucketRegion calmWorld "bucket" = "us-west-2"
  ∧ trace (runStep (verifyAWSPreconditions calmWorld) m).2
    = [evCall (BucketVersioningEnabled "bucket"); evCall (BucketRegion "bucket")].
Proof.
  intros m.
  destruct (verifyAWSPreconditions_passed calmWorld m
              (runStep (verifyAWSPreconditions calmWorld) m).2
              (createPackageStep calmWorld) eq_refl) as [_ Hok].
  destruct (Hok eq_refl) as (_ & _ & Hregion & _ & _ & Htrace); [discriminate|].
  split; [exact Hregion | exact Htrace].
Defined.

(** ** In-place updates, continued *)

Section InPlaceUpdates.

Variables (W : World) (templateURL : string).

Lemma workerPool_Run_ok (tasks : list (M (option string * option error)))
    (evs : list event) m :
  Forall2 (λ task e, ∀ m, task m = (Returns (Some "", None),
                                    {| ctx := ctx m; trace := trace m ++ [e] |}))
          tasks evs →
  workerPool_Run tasks m
  = (Returns (replicate (length tasks) (Some ""), []),
     {| ctx := ctx m; trace := trace m ++ evs |}).
Proof.
  intros Hall. revert m. induction Hall as [|task e tasks evs Htask _ IH]; intros m.
  - cbn. rewrite app_nil_r. by destruct m.
  - cbn [workerPool_Run]. unfold mbind, M_MBind, M_bind. rewrite Htask, IH.
    cbn [ctx trace fst snd length replicate]. unfold mret, M_MRet, M_ret.
    by rewrite <- app_assoc.
Qed.

(** X7.  An in-place update that goes through.  When every change of the
    change set is a modification of a lambda function, the code archive
    has been uploaded and every call succeeds, the operation sends one
    code update per change -- for the function the change names, with the
    bucket, key and version of the uploaded archive -- and deletes the
    change set; it then describes the stack and returns the first stack
    of the answer.  Nothing in the context changes. *)
Theorem applyInPlaceFunctionUpdates_updates_each_function (m : machine)
    (changes : list ResourceChange) (u : s3UploadURL) (stack : Stack) (stacks : list Stack) :
  let c := ctx m in
  let name := CloudFormationResourceName W (serviceName (user c) +:+ "InPlaceChangeSet") in
  let create := CreateStackChangeSet name (serviceName (user c)) templateURL in
  let requests := updateRequest c u <$> changes in
  changeSet W = Some changes → changes ≠ [] →
  Forall (λ change, isFunctionCodeChange change = true) changes →
  s3CodeZipURL (context c) = Some u →
  describedStacks W = stack :: stacks →
  fails W create = None →
  Forall (λ request, fails W (UpdateFunctionCode request) = None) requests →
  fails W (DeleteChangeSet (serviceName (user c)) name) = None →
  fails W (DescribeStacks (serviceName (user c))) = None →
  ∃ es,
    applyInPlaceFunctionUpdates W templateURL m
    = (Returns (Some stack, None),
       {| ctx := c;
          trace := trace m ++ evCall create :: es
                           ++ [evCall (DescribeStacks (serviceName (user c)))] |})
    ∧ es ≡ₚ (evCall ∘ UpdateFunctionCode <$> requests)
            ++ [evCall (DeleteChangeSet (serviceName (user c)) name)]
    ∧ omap updateRequestOf es ≡ₚ requests.
Proof.
  intros c name create requests Hchanges Hne Hall Hurl Hstacks Hcreate Hupdates Hdelete
    Hdescribe.
  exists ((evCall ∘ UpdateFunctionCode <$> requests)
          ++ [evCall (DeleteChangeSet (serviceName (user c)) name)]).
  split; [|split; [done|]].
  - unfold applyInPlaceFunctionUpdates. run_m. fold c name create.
    rewrite Hcreate, Hchanges. destruct changes as [|change rest]; [done|].
    run_m. rewrite classifyChanges_returns by (left; cbn [ctx]; fold c; by rewrite Hurl).
    cbn [ctx trace app]. fold c. rewrite Hurl.
    assert (List.filter isFunctionCodeChange (change :: rest) = change :: rest) as ->.
    { clear -Hall. induction Hall as [|ch chs Hch _ IH]; [done|].
      cbn [List.filter]. by rewrite Hch, IH. }
    assert (List.filter (λ ch, negb (isFunctionCodeChange ch)) (change :: rest) = [])
      as ->.
    { clear -Hall. induction Hall as [|ch chs Hch _ IH]; [done|].
      cbn [List.filter]. by rewrite Hch, IH. }
    fold requests. change (describeChange <$> []) with (@nil string).
    cbn [app]. cbv beta.
    rewrite (workerPool_Run_ok _ ((evCall ∘ UpdateFunctionCode <$> requests)
               ++ [evCall (DeleteChangeSet (serviceName (user c)) name)])).
    + cbn [ctx trace fst snd]. rewrite Hdescribe, Hstacks.
      by rewrite <- !app_assoc.
    + apply Forall2_app.
      * apply Forall2_fmap, Forall_Forall2_diag.
        eapply Forall_impl; [exact Hupdates|]. intros request Hok m0. cbv beta.
        by rewrite Hok.
      * constructor; [|constructor]. intros m0. by rewrite Hdelete.
  - rewrite omap_app. cbn. rewrite app_nil_r.
    assert (∀ rs, omap updateRequestOf (evCall ∘ UpdateFunctionCode <$> rs) = rs) as ->;
      [|done].
    induction rs as [|request rs IH]; [done|]. rewrite fmap_cons. cbn. by rewrite IH.
Qed.

(** X8.  An in-place update that is turned down.  An empty change set is
    the error ["no changes detected"].  A change set with a change that is
    not a modification of a lambda function is the error that lists every
    such change, provided the code archive has been uploaded or no change
    is a modification of a lambda function.  Either way the change set
    request is the only call made: no function code is updated, and the
    change set is not deleted. *)
Theorem applyInPlaceFunctionUpdates_turned_down (m : machine) :
  let c := ctx m in
  let name := CloudFormationResourceName W (serviceName (user c) +:+ "InPlaceChangeSet") in
  let create := CreateStackChangeSet name (serviceName (user c)) templateURL in
  let after := {| ctx := c; trace := trace m ++ [evCall create] |} in
  fails W create = None →
  (changeSet W = None ∨ changeSet W = Some [] →
   applyInPlaceFunctionUpdates W templateURL m
   = (Returns (None, Some (errorString "no changes detected")), after))
  ∧ (∀ changes,
       changeSet W = Some changes →
       s3CodeZipURL (context c) ≠ None
       ∨ Forall (λ change, isFunctionCodeChange change = false) changes →
       Exists (λ change, isFunctionCodeChange change = false) changes →
       applyInPlaceFunctionUpdates W templateURL m
       = (Returns (None, Some (unsupportedChanges changes)), after)).
Proof.
  intros c name create after Hcreate. split.
  - intros Hnone. unfold applyInPlaceFunctionUpdates. run_m. fold c name create.
    rewrite Hcreate. by destruct Hnone as [-> | ->].
  - intros changes Hchanges Hok Hex.
    by apply applyInPlaceFunctionUpdates_rejects.
Qed.

End InPlaceUpdates.

Lemma applyInPlaceFunctionUpdates_updates_each_function_witness :
  (applyInPlaceFunctionUpdates codeChangesWorld "https://bucket.s3.amazonaws.com/t.json"
     (afterUpload codeChangesWorld)).1
  = Returns (Some {| StackName := "svc"; StackId := "stack/1" |}, None).
Proof.
  destruct (applyInPlaceFunctionUpdates_updates_each_function codeChangesWorld
              "https://bucket.s3.amazonaws.com/t.json" (afterUpload codeChangesWorld)
              [functionChange; worldChange] uploadedArchive
              {| StackName := "svc"; StackId := "stack/1" |} []
              eq_refl ltac:(discriminate) ltac:(by repeat constructor) eq_refl eq_refl
              eq_refl ltac:(by repeat constructor) eq_refl eq_refl)
    as (es & Hrun & _).
  by rewrite Hrun.
Defined.

Lemma applyInPlaceFunctionUpdates_turned_down_witness :
  (applyInPlaceFunctionUpdates mixedChangesWorld "https://bucket.s3.amazonaws.com/t.json"
     (afterUpload mixedChangesWorld)).1
  = Returns (None, Some (unsupportedChanges [functionChange; bucketChange])).
Proof.
  destruct (applyInPlaceFunctionUpdates_turned_down mixedChangesWorld
              "https://bucket.s3.amazonaws.com/t.json" (afterUpload mixedChangesWorld)
              eq_refl) as [_ Hreject].
  rewrite (Hreject [functionChange; bucketChange] eq_refl); [done| |].
  - left. discriminate.
  - right. by left.
Defined.

(** ** The stack operation timeout *)

(** X9.  The timeout of the stack operation is 60 minutes exactly when the
    template holds a CloudFront distribution, and 20 minutes otherwise. *)
Theorem maximumStackOperationTimeout_cloudfront (template : Template) :
  let distribution :=
    ∃ id properties, Resources template !! id = Some properties
                     ∧ CfnResourceType properties = "AWS::CloudFront::Distribution" in
  (distribution → maximumStackOperationTimeout template = 60)
  ∧ (¬ distribution → maximumStackOperationTimeout template = 20).
Proof.
  intros distribution. unfold maximumStackOperationTimeout.
  destruct (existsb _ _) eqn:Hex.
  - split; [done|]. intros Hnot. destruct Hnot.
    apply existsb_exists in Hex as ([id properties] & Hin & Htype).
    exists id, properties. split.
    + by apply elem_of_map_to_list, list_elem_of_In.
    + by apply String.eqb_eq.
  - split; [|done]. intros (id & properties & Hlookup & Htype).
    assert (existsb (λ r, String.eqb (CfnResourceType r.2) "AWS::CloudFront::Distribution")
                    (map_to_list (Resources template)) = true) as Htrue; [|congruence].
    apply existsb_exists. exists (id, properties). split.
    + by apply list_elem_of_In, elem_of_map_to_list.
    + by apply String.eqb_eq.
Qed.

Lemma maximumStackOperationTimeout_cloudfront_witness :
  maximumStackOperationTimeout siteTemplate = 60.
Proof.
  apply (maximumStackOperationTimeout_cloudfront siteTemplate).
  exists "CDN", (OtherResource "AWS::CloudFront::Distribution"). by split.
Defined.

(** ** Whole runs *)

Section WholeRuns.

Variables (W : World) (noop : bool) (serviceName serviceDescription : string)
  (lambdaAWSInfos : list LambdaAWSInfo) (api : option string) (site : option S3Site)
  (s3Bucket : string) (useCGO inPlaceUpdates : bool)
  (buildID codePipelineTrigger buildTags linkerFlags : string)
  (templateWriter : bool) (workflowHooks : option WorkflowHooks).

Local Abbreviation run :=
  (Provision W noop serviceName serviceDescription lambdaAWSInfos api site s3Bucket
     useCGO inPlaceUpdates buildID codePipelineTrigger buildTags linkerFlags
     templateWriter workflowHooks).

Local Abbreviation invariant :=
  (Provision_run_invariant W noop serviceName serviceDescription lambdaAWSInfos api site
     s3Bucket useCGO inPlaceUpdates buildID codePipelineTrigger buildTags linkerFlags
     templateWriter workflowHooks).

Lemma permitted_occurrences (kind : event → bool) (es : list event) u0 :
  (∀ e, permitted u0 e → kind e = false) → Forall (permitted u0) es →
  occurrences kind es = 0%nat.
Proof. intros Hkind. by apply occurrences_none. Qed.

(** X10.  With a CodePipeline trigger the stack is left alone.  A run of
    [Provision] for a service with a CodePipeline trigger only builds the
    trigger package: it never converges the stack, creates or deletes a
    change set, updates function code or describes the stack. *)
Theorem Provision_trigger_leaves_stack :
  codePipelineTrigger ≠ "" → occurrences is_stackCall (trace run.2) = 0%nat.
Proof.
  intros Htrigger. destruct invariant as (_ & _ & Hp & _).
  eapply permitted_occurrences; [|exact Hp].
  intros [c| | | | | |] He; try done. destruct He as (_ & He & _). by apply He.
Qed.

(** X11.  The two ways of applying a template exclude each other.  An
    in-place run never converges the stack through CloudFormation; any
    other run never creates or deletes a change set, updates function
    code or describes the stack. *)
Theorem Provision_in_place_or_converge :
  (inPlaceUpdates = true → occurrences is_convergeCall (trace run.2) = 0%nat)
  ∧ (inPlaceUpdates = false → occurrences is_inPlaceEvent (trace run.2) = 0%nat).
Proof.
  destruct invariant as (_ & _ & Hp & _). split; intros HinPlace.
  - eapply permitted_occurrences; [|exact Hp].
    intros [c| | | | | |] He; try done. destruct He as (_ & _ & He & _). by apply He.
  - eapply permitted_occurrences; [|exact Hp].
    intros [c| | | | | |] He; try done. destruct He as (_ & _ & _ & He). by apply He.
Qed.

(** X12.  The workflow has six steps.  No run of [Provision] invokes more
    than six steps, and a run that returns no error has invoked exactly
    six. *)
Theorem Provision_six_steps :
  (occurrences is_evStep (trace run.2) ≤ 6)%nat
  ∧ (run.1 = Returns None → occurrences is_evStep (trace run.2) = 6%nat).
Proof. by destruct invariant as (_ & _ & _ & _ & Hle & Hsix). Qed.

(** X13.  Rollback deletes what the run uploaded.  In a run that returns an
    error the objects S3 is asked to delete are exactly the objects the
    run has uploaded with success, each once; a run that returns no
    error, or panics, asks for no delete.  When the run ends the
    registered rollback functions are those of the uploads that
    succeeded. *)
Theorem Provision_rollback_deletes_uploads :
  omap deletedObject (trace run.2)
  ≡ₚ match run.1 with
     | Returns (Some _) => uploadedObjects W (trace run.2)
     | _ => []
     end
  ∧ rollbackFunctions (txn (ctx run.2)) = uploadRollbacks W (trace run.2).
Proof. destruct invariant as (_ & Hrb & _ & Hdel & _). by rewrite Hdel. Qed.

Lemma omap_finalizerOf_none (es : list event) :
  occurrences is_evFinalizer es = 0%nat → omap finalizerOf es = [].
Proof.
  unfold occurrences. induction es as [|e es IH]; [done|].
  destruct e; cbn; try done; apply IH.
Qed.

Lemma omap_finalizerOf_finalizerEvents (c : workflowContext) :
  omap finalizerOf (finalizerEvents c) = default [] (finalizerFunctions (txn c)).
Proof.
  unfold finalizerEvents.
  induction (default [] (finalizerFunctions (txn c))) as [|f fs IH]; [done|].
  cbn. by rewrite IH.
Qed.

(** X14.  A run that succeeds runs the finalizers.  When [Provision] returns
    no error, every registered finalizer has been invoked exactly once, in
    registration order, and all of them after the last step: what the
    steps did comes first in the trace, the finalizer block is its end.
    The rollback has not been entered. *)
Theorem Provision_success_finalizers :
  run.1 = Returns None →
  omap finalizerOf (trace run.2) = default [] (finalizerFunctions (txn (ctx run.2)))
  ∧ (∃ es, trace run.2 = es ++ finalizerEvents (ctx run.2)
           ∧ occurrences is_evFinalizer es = 0%nat)
  ∧ occurrences is_evRollback (trace run.2) = 0%nat.
Proof.
  intros Hnil.
  destruct (reaches_dec W lambdaAWSInfos workflowHooks) as [Hreach|Hnot].
  - destruct (Provision_cases W noop serviceName serviceDescription lambdaAWSInfos api site
                s3Bucket useCGO inPlaceUpdates buildID codePipelineTrigger buildTags
                linkerFlags templateWriter workflowHooks Hreach)
      as [(k & next & err & m1 & _ & Hrun)|[(k & m1 & Hret & Hrun)
                                           |(reason & m1 & es & Hrun & _)]].
    + rewrite Hrun in Hnil. discriminate.
    + destruct (Provision_success_runs_finalizers _ _ _ _ _ _ _ _ _ _ _ _ _ _ _ _ _ _ Hret)
        as (_ & Ht & Hnone & Hrollback).
      assert (ctx run.2 = ctx m1) as Hctx by (by rewrite Hrun, runFinalizers_run).
      rewrite Hctx, Ht. split; [|split; [|by rewrite <- Ht]].
      * by rewrite omap_app, omap_finalizerOf_none, omap_finalizerOf_finalizerEvents.
      * by exists (trace m1).
    + rewrite Hrun in Hnil. discriminate.
  - destruct (Provision_stopped W noop serviceName serviceDescription lambdaAWSInfos api
                site s3Bucket useCGO inPlaceUpdates buildID codePipelineTrigger buildTags
                linkerFlags templateWriter workflowHooks Hnot) as (e & Hres & _).
    rewrite Hres in Hnil. discriminate.
Qed.

End WholeRuns.

(** Equal images under a map, element by element. *)
Lemma fmap_eq_Forall2 {A B} (f : A → B) (l1 l2 : list A) :
  f <$> l1 = f <$> l2 → Forall2 (λ a b, f a = f b) l1 l2.
Proof.
  revert l2. induction l1 as [|a l1 IH]; intros [|b l2] Heq; try discriminate Heq.
  - constructor.
  - injection Heq as Hhead Htail. constructor; [done | by apply IH].
Qed.

(** X15.  What [Provision] writes in the user data it was called with.  When
    the run ends -- with success, with an error or with a panic -- every
    field of [ctx.userdata] still holds the argument it was built from,
    but for two things the steps assign to: the upload location of the
    site archive, and, in the descriptors of the custom resources, the
    discovery entry of [options.Environment].  The descriptors are as
    many as before and in the same order, every other field of them is as
    it was, and so is every other entry of the environment.  (What the
    collaborators of other files do with the descriptors they are handed
    is outside the model.) *)
Theorem Provision_keeps_user_data (W : World) (dryRun : bool) (name description : string)
    (infos : list LambdaAWSInfo) (restAPI : option string) (site : option S3Site)
    (bucket : string) (cgo inPlaceUpdates : bool) (build trigger tags linkerFlags : string)
    (templateWriter : bool) (hooks : option WorkflowHooks) :
  let run := Provision W dryRun name description infos restAPI site bucket cgo
               inPlaceUpdates build trigger tags linkerFlags templateWriter hooks in
  let u := user (ctx run.2) in
  let sameResource (r' r : customResourceInfo) :=
    roleName r' = roleName r ∧ roleDefinition r' = roleDefinition r
    ∧ userFunctionName r' = userFunctionName r
    ∧ delete (envVarDiscoveryInformation W) <$> options_Environment r'
      = delete (envVarDiscoveryInformation W) <$> options_Environment r in
  let sameFunction (info' info : LambdaAWSInfo) :=
    functionName info' = functionName info ∧ RoleName info' = RoleName info
    ∧ RoleDefinition info' = RoleDefinition info
    ∧ Forall2 sameResource (customResources info') (customResources info) in
  noop u = dryRun ∧ useCGO u = cgo ∧ inPlace u = inPlaceUpdates
  ∧ buildID u = build ∧ buildTags u = tags ∧ linkFlags u = linkerFlags
  ∧ serviceName u = name ∧ serviceDescription u = description
  ∧ workflowHooks u = hooks
  ∧ codePipelineTrigger u = trigger ∧ api u = restAPI
  ∧ s3Site (siteContext u) = site ∧ s3Bucket u = bucket
  ∧ Forall2 sameFunction (lambdaAWSInfos u) infos.
Proof.
  intros run u sameResource sameFunction.
  destruct (Provision_run_invariant W dryRun name description infos restAPI site bucket cgo
              inPlaceUpdates build trigger tags linkerFlags templateWriter hooks)
    as (Hsame & _).
  fold run in Hsame. fold u in Hsame.
  repeat match goal with |- _ ∧ _ => split end.
  - exact (f_equal noop Hsame).
  - exact (f_equal useCGO Hsame).
  - exact (f_equal inPlace Hsame).
  - exact (f_equal buildID Hsame).
  - exact (f_equal buildTags Hsame).
  - exact (f_equal linkFlags Hsame).
  - exact (f_equal serviceName Hsame).
  - exact (f_equal serviceDescription Hsame).
  - exact (f_equal workflowHooks Hsame).
  - exact (f_equal codePipelineTrigger Hsame).
  - exact (f_equal api Hsame).
  - exact (f_equal (λ u, s3Site (siteContext u)) Hsame).
  - exact (f_equal s3Bucket Hsame).
  - apply (f_equal lambdaAWSInfos) in Hsame. cbn [forgetWrites lambdaAWSInfos] in Hsame.
    apply fmap_eq_Forall2 in Hsame.
    eapply Forall2_impl; [exact Hsame|].
    intros info' info Hinfo. unfold set_customResources in Hinfo.
    injection Hinfo as Hname Hrole Hdefinition Hcustoms.
    repeat split; try done.
    apply fmap_eq_Forall2 in Hcustoms.
    eapply Forall2_impl; [exact Hcustoms|].
    intros r' r Hr. unfold forgetDiscovery in Hr.
    injection Hr as H1 H2 H3 H4. by repeat split.
Qed.

(** The assignment at work: after a run for [workerLambda] the
    environment of its custom resource holds the discovery entry beside
    the entry it came with. *)
Lemma Provision_annotates_custom_resource :
  let run := Provision calmWorld false "svc" "" [helloLambda; workerLambda] None None
                       "bucket" false false "b1" "" "" "" false None in
  run.1 = Returns None
  ∧ (customResources <$> lambdaAWSInfos (user (ctx run.2)))
    = [[];
       [{| roleName := "lambdaRole"; roleDefinition := None; userFunctionName := "helper";
           options_Environment :=
             Some {[ "SPARTA_DISCOVERY_INFO" := gocf_String "discovery:helper";
                     "STAGE" := gocf_String "test" ]} |}]].
Proof. split; by vm_compute. Qed.

(** X16.  A dry run stays local.  The only remote calls of a dry run of
    [Provision] are the IAM role lookups of the first step: nothing is
    asked of S3 or of CloudFormation, and no function code is updated. *)
Theorem Provision_dry_run_is_local (W : World) (serviceName serviceDescription : string)
    (lambdaAWSInfos : list LambdaAWSInfo) (api : option string) (site : option S3Site)
    (s3Bucket : string) (useCGO inPlaceUpdates : bool)
    (buildID codePipelineTrigger buildTags linkerFlags : string)
    (templateWriter : bool) (workflowHooks : option WorkflowHooks) :
  let run := Provision W true serviceName serviceDescription lambdaAWSInfos api site s3Bucket
                       useCGO inPlaceUpdates buildID codePipelineTrigger buildTags
                       linkerFlags templateWriter workflowHooks in
  Forall (λ e, is_remoteCall e = true → ∃ name, e = evCall (GetRole name)) (trace run.2)
  ∧ rollbackFunctions (txn (ctx run.2)) = [].
Proof.
  intros run.
  destruct (Provision_run_invariant W true serviceName serviceDescription lambdaAWSInfos
              api site s3Bucket useCGO inPlaceUpdates buildID codePipelineTrigger buildTags
              linkerFlags templateWriter workflowHooks) as (_ & Hrb & Hp & _).
  fold run in Hrb, Hp. split.
  - eapply Forall_impl; [exact Hp|]. intros [c| | | | | |] He Hremote; try done.
    destruct He as (He & _). specialize (He eq_refl Hremote).
    destruct c; try done. by eexists.
  - rewrite Hrb. eapply dry_uploadRollbacks; [|exact Hp]. reflexivity.
Qed.

Lemma Provision_success_finalizers_witness :
  let run := Provision calmWorld false "svc" "" [helloLambda] None None "bucket" false false
                       "b1" "" "" "" false None in
  omap finalizerOf (trace run.2)
  = [fileCleanup ".sparta/svc-code.zip"; fileCleanup ".sparta/svc-cftemplate.json"].
Proof.
  intros run.
  destruct (Provision_success_finalizers calmWorld false "svc" "" [helloLambda] None None
              "bucket" false false "b1" "" "" "" false None) as (Hfinal & _).
  { vm_compute. reflexivity. }
  fold run in Hfinal. rewrite Hfinal. vm_compute. reflexivity.
Defined.

Lemma Provision_trigger_leaves_stack_witness :
  occurrences is_stackCall
    (trace (Provision calmWorld false "svc" "" [helloLambda] None None "bucket" false false
                      "b1" "pipeline.zip" "" "" false None).2) = 0%nat.
Proof.
  apply (Provision_trigger_leaves_stack calmWorld false "svc" "" [helloLambda] None None
           "bucket" false false "b1" "pipeline.zip" "" "" false None).
  discriminate.
Defined.

Lemma Provision_in_place_or_converge_witness :
  occurrences is_convergeCall
    (trace (Provision codeChangesWorld false "svc" "" [helloLambda] None None "bucket" false
                      true "b1" "" "" "" false None).2) = 0%nat.
Proof.
  apply (Provision_in_place_or_converge codeChangesWorld false "svc" "" [helloLambda] None
           None "bucket" false true "b1" "" "" "" false None).
  reflexivity.
Defined.

Lemma Provision_six_steps_witness :
  occurrences is_evStep
    (trace (Provision calmWorld false "svc" "" [helloLambda] None None "bucket" false false
                      "b1" "" "" "" false None).2) = 6%nat.
Proof.
  apply (Provision_six_steps calmWorld false "svc" "" [helloLambda] None None "bucket" false
           false "b1" "" "" "" false None).
  vm_compute. reflexivity.
Defined.

(** ** The packaging step *)

Section Packaging.

Variable W : World.

(** The shape of the packaging step: hooks, build, and the rest of the
    step under the deferred removal of the binary. *)
Lemma createPackageStep_shape (m : machine) :
  let c := ctx m in
  let fail := λ e : error, (@None workflowStep, Some e) in
  ∃ rest,
    runStep (createPackageStep W) m
    = defer (recordDuration "Creating code bundle")
        (orReturn (match workflowHooks (user c) with
                   | Some hooks =>
                       callWorkflowHook W "PreBuild" (PreBuild hooks) (PreBuilds hooks)
                   | None => mret None
                   end)
           fail
           (orReturn (ext W (BuildGoBinary (serviceName (user c)) (binaryName (context c))))
              fail
              (defer (ext W (OsRemove (binaryName (context c)));; mret ()) rest))) m
    ∧ emits stepEvent (λ _, True) rest.
Proof.
  intros c fail. eexists. split; [reflexivity|].
  emits_go; first [apply emits_ext | apply emits_callWorkflowHook | apply emits_callArchiveHook].
Qed.

(** X17.  The packaging step removes the binary it has built, and only then.
    The step calls the [PreBuild] hooks in order and then the build.  When
    a hook fails the step returns its wrapped error: the later hooks and
    the build are not called and nothing is removed.  When the hooks pass
    and the build fails the step returns the error of the build, and
    nothing is removed.  When the hooks pass and the build succeeds, the
    last call of the step, whatever happens in between (a failing hook, a
    failing archive), is the removal of the binary. *)
Theorem createPackageStep_removes_binary (m : machine) :
  let c := ctx m in
  let bin := binaryName (context c) in
  let build := BuildGoBinary (serviceName (user c)) bin in
  let hooks := match workflowHooks (user c) with
               | Some hooks => allHooks (PreBuild hooks) (PreBuilds hooks)
               | None => []
               end in
  let passes h := fails W (DecorateWorkflow "PreBuild" h) = None in
  let step := runStep (createPackageStep W) m in
  (∀ pre h post e,
     hooks = pre ++ h :: post → Forall passes pre →
     fails W (DecorateWorkflow "PreBuild" h) = Some e →
     step.1 = Returns (None, Some (errors_Wrapf e "DecorateWorkflow returned an error"))
     ∧ trace step.2 = trace m ++ hookCalls "PreBuild" (pre ++ [h]))
  ∧ (Forall passes hooks →
     (∀ e, fails W build = Some e →
           step.1 = Returns (None, Some e)
           ∧ trace step.2 = trace m ++ hookCalls "PreBuild" hooks ++ [evCall build])
     ∧ (fails W build = None →
        ∃ es, trace step.2 = trace m ++ hookCalls "PreBuild" hooks ++ [evCall build]
                              ++ es ++ [evCall (OsRemove bin)])).
Proof.
  intros c bin build hooks passes step. unfold step.
  destruct (createPackageStep_shape m) as (rest & -> & Hemits). fold c bin build.
  set (preBuild := match workflowHooks (user c) with
                   | Some hooks => callWorkflowHook W "PreBuild" (PreBuild hooks)
                                                    (PreBuilds hooks)
                   | None => mret None
                   end).
  assert (preBuild = forRange hooks
            (λ h, orReturn (ext W (DecorateWorkflow "PreBuild" h))
                    (λ e, Some (errors_Wrapf e "DecorateWorkflow returned an error"))
                    (mret None))) as Hloop.
  { unfold preBuild, hooks. by destruct (workflowHooks (user c)). }
  split.
  - intros pre h post e Hsplit Hpre Hfail.
    assert (preBuild m
            = (Returns (Some (errors_Wrapf e "DecorateWorkflow returned an error")),
               {| ctx := c; trace := trace m ++ hookCalls "PreBuild" (pre ++ [h]) |}))
      as Hrun.
    { rewrite Hloop, Hsplit.
      by apply (forRange_ext_stops W (DecorateWorkflow "PreBuild")
                  (λ e, errors_Wrapf e "DecorateWorkflow returned an error")). }
    run_m. rewrite Hrun. by run_m.
  - intros Hall.
    assert (preBuild m
            = (Returns None,
               {| ctx := c; trace := trace m ++ hookCalls "PreBuild" hooks |})) as Hrun.
    { rewrite Hloop.
      by apply (forRange_ext_all W (DecorateWorkflow "PreBuild")
                  (λ e, errors_Wrapf e "DecorateWorkflow returned an error")). }
    split.
    + intros e Hbuild. run_m. rewrite Hrun. run_m. fold c bin build. rewrite Hbuild.
      run_m. by rewrite <- app_assoc.
    + intros Hbuild. run_m. rewrite Hrun. run_m. fold c bin build. rewrite Hbuild.
      destruct (Hemits {| ctx := c;
                          trace := (trace m ++ hookCalls "PreBuild" hooks)
                                   ++ [evCall build] |}) as (es & Ht & _).
      exists es.
      destruct (rest _) as [r m']. cbn [fst snd trace] in Ht |- *. rewrite Ht.
      by rewrite <- !app_assoc.
Qed.

End Packaging.

Lemma createPackageStep_removes_binary_witness :
  ((runStep (createPackageStep failingHookWorld)
      (loopEntry failingHookWorld false "svc" "" [helloLambda] None None "bucket" false
                 false "b1" "" "" "" false (Some lintHooks))).1
   = Returns (None, Some (errors_Wrapf (errorString "lint failed")
                                       "DecorateWorkflow returned an error"))
   ∧ trace (runStep (createPackageStep failingHookWorld)
              (loopEntry failingHookWorld false "svc" "" [helloLambda] None None "bucket"
                         false false "b1" "" "" "" false (Some lintHooks))).2
     = [evCall (DecorateWorkflow "PreBuild" "format");
        evCall (DecorateWorkflow "PreBuild" "lint")])
  ∧ ((runStep (createPackageStep buildFailsWorld)
        (loopEntry buildFailsWorld false "svc" "" [helloLambda] None None "bucket" false
                   false "b1" "" "" "" false None)).1
     = Returns (None, Some (errorString "exit status 2"))
     ∧ trace (runStep (createPackageStep buildFailsWorld)
                (loopEntry buildFailsWorld false "svc" "" [helloLambda] None None "bucket"
                           false false "b1" "" "" "" false None)).2
       = [evCall (BuildGoBinary "svc" "Sparta.lambda.amd64")])
  ∧ ∃ es,
      trace (runStep (createPackageStep calmWorld)
               (loopEntry calmWorld false "svc" "" [helloLambda] None None "bucket" false
                          false "b1" "" "" "" false None)).2
      = [evCall (BuildGoBinary "svc" "Sparta.lambda.amd64")] ++ es
        ++ [evCall (OsRemove "Sparta.lambda.amd64")].
Proof.
  split; [|split].
  - apply (proj1 (createPackageStep_removes_binary failingHookWorld
                    (loopEntry failingHookWorld false "svc" "" [helloLambda] None None
                               "bucket" false false "b1" "" "" "" false (Some lintHooks)))
             ["format"] "lint" ["vet"; "legacy"] (errorString "lint failed")).
    + reflexivity.
    + by repeat constructor.
    + reflexivity.
  - apply (proj1 (proj2 (createPackageStep_removes_binary buildFailsWorld
                           (loopEntry buildFailsWorld false "svc" "" [helloLambda] None None
                                      "bucket" false false "b1" "" "" "" false None))
                    (Forall_nil_2 _))
             (errorString "exit status 2")).
    reflexivity.
  - apply (proj2 (proj2 (createPackageStep_removes_binary calmWorld
                           (loopEntry calmWorld false "svc" "" [helloLambda] None None
                                      "bucket" false false "b1" "" "" "" false None))
                    (Forall_nil_2 _))).
    reflexivity.
Defined.

(** ** The role map *)

Section RoleMap.

Variable W : World.

Local Abbreviation roleMap m := (lambdaIAMRoleNameMap (context (ctx m))).

Lemma registerRoleDefinition_resolved definition fn m (A : gset string) :
  let name := logicalName W definition (serviceName (user (ctx m))) fn in
  rolesResolved W A ∅ m →
  rolesResolved W ({[name]} ∪ A) ∅ (registerRoleDefinition W definition fn m).2.
Proof.
  intros name (Hdom & Hin & _). rewrite (right_id_L ∅ (∪)) in Hdom.
  unfold registerRoleDefinition. run_m. fold name.
  destruct (roleMap m !! name) as [expr|] eqn:Hlookup; run_m.
  - assert (name ∈ A) as Hname by (rewrite <- Hdom; apply elem_of_dom; eauto).
    assert ({[name]} ∪ A = A) as -> by set_solver.
    split; [by rewrite (right_id_L ∅ (∪))|]. split; [done|]. set_solver.
  - assert (name ∉ A) as Hname by (rewrite <- Hdom; by apply not_elem_of_dom).
    split; [|split; [|set_solver]].
    + cbn. rewrite dom_insert_L, Hdom. set_solver.
    + intros n Hn. cbn. destruct (decide (n = name)) as [->|Hne].
      * rewrite !lookup_insert_eq. split; [done|]. by eexists.
      * rewrite !lookup_insert_ne by done. apply Hin. set_solver.
Qed.

Lemma registerCustomRoles_resolved customs : ∀ m (A : gset string),
  rolesResolved W A ∅ m →
  rolesResolved W (list_to_set (customRoleNames W (serviceName (user (ctx m))) customs) ∪ A)
                ∅ (registerCustomRoles W customs m).2.
Proof.
  induction customs as [|custom customs IH]; intros m A HA.
  - cbn. by rewrite (left_id_L ∅ (∪)).
  - change (registerCustomRoles W (custom :: customs))
      with (orReturn (match roleDefinition custom with
                      | Some definition =>
                          registerRoleDefinition W definition (userFunctionName custom);;
                          mret None
                      | None => mret None
                      end) Some (registerCustomRoles W customs)).
    unfold customRoleNames. simpl flat_map.
    fold (customRoleNames W (serviceName (user (ctx m))) customs).
    destruct (roleDefinition custom) as [definition|].
    + pose proof (registerRoleDefinition_resolved definition (userFunctionName custom)
                    m A HA) as H1.
      destruct (registerRoleDefinition_run W definition (userFunctionName custom) m)
        as (m1 & Hrun & Huser & _).
      rewrite Hrun in H1. cbn [snd] in H1.
      specialize (IH m1 _ H1). rewrite Huser in IH.
      run_m. rewrite Hrun. run_m.
      match goal with
      | H : rolesResolved _ ?S1 _ _ |- rolesResolved _ ?S2 _ _ =>
          assert (S2 = S1) as -> by set_solver
      end.
      exact IH.
    + specialize (IH m A HA). run_m. exact IH.
Qed.

Lemma registerInlineRoles_resolved info m (A : gset string) :
  rolesResolved W A ∅ m →
  rolesResolved W (list_to_set (inlineRoleNamesOf W (serviceName (user (ctx m))) info) ∪ A)
                ∅ (registerInlineRoles W info m).2.
Proof.
  intros HA. unfold registerInlineRoles, inlineRoleNamesOf.
  destruct (RoleDefinition info) as [definition|].
  - pose proof (registerRoleDefinition_resolved definition (functionName info) m A HA) as H1.
    destruct (registerRoleDefinition_run W definition (functionName info) m)
      as (m1 & Hrun & Huser & _).
    rewrite Hrun in H1. cbn [snd] in H1.
    pose proof (registerCustomRoles_resolved (customResources info) m1 _ H1) as H2.
    rewrite Huser in H2. run_m. rewrite Hrun.
    match goal with
    | H : rolesResolved _ ?S1 _ _ |- rolesResolved _ ?S2 _ _ =>
        assert (S2 = S1) as -> by set_solver
    end.
    exact H2.
  - pose proof (registerCustomRoles_resolved (customResources info) m A HA) as H2.
    run_m. exact H2.
Qed.

Lemma assembleRoleNames_resolved infos : ∀ acc m (A : gset string) names m',
  rolesResolved W A ∅ m →
  assembleRoleNames W infos acc m = (Returns (names, None), m') →
  rolesResolved W (list_to_set (inlineRoleNames W (serviceName (user (ctx m))) infos) ∪ A)
                ∅ m'
  ∧ user (ctx m') = user (ctx m).
Proof.
  induction infos as [|info rest IH]; intros acc m A names m' HA.
  - cbn. intros [= _ <-]. by rewrite (left_id_L ∅ (∪)).
  - cbn [assembleRoleNames]. unfold orReturn at 1. unfold mbind, M_MBind, M_bind.
    match goal with
    | |- context [assembleRoleNames _ rest ?a] => set (acc' := a)
    end.
    assert (∀ m1, rolesResolved W A ∅ m1 → user (ctx m1) = user (ctx m) →
                  (registerInlineRoles W info ≫= λ _, assembleRoleNames W rest acc') m1
                  = (Returns (names, None), m') →
                  rolesResolved W
                    (list_to_set (inlineRoleNames W (serviceName (user (ctx m)))
                                    (info :: rest)) ∪ A) ∅ m'
                  ∧ user (ctx m') = user (ctx m)) as Hcont.
    { intros m1 H1 Huser1. unfold mbind, M_MBind, M_bind.
      pose proof (registerInlineRoles_resolved info m1 A H1) as H2.
      destruct (registerInlineRoles_run W info m1) as (m2 & Hrun & Huser2 & _).
      rewrite Hrun in H2 |- *. cbn [snd] in H2. intros Hrest.
      destruct (IH acc' m2 _ names m' H2 Hrest) as [H3 Huser3].
      rewrite Huser2, Huser1 in H3, Huser3. split; [|done].
      unfold inlineRoleNames in H3 |- *. cbn [flat_map].
      match goal with
      | H : rolesResolved _ ?S1 _ _ |- rolesResolved _ ?S2 _ _ =>
          assert (S2 = S1) as -> by set_solver
      end.
      exact H3. }
    destruct (profileDecorator W).
    + unfold ext. run_m.
      destruct (fails W (ProfileDecorator (functionName info))); [done|].
      apply Hcont; [exact HA | done].
    + run_m. by apply Hcont.
Qed.

Lemma rolesResolved_more (A L : gset string) (name : string) m :
  name ∈ A ∪ L → rolesResolved W A L m → rolesResolved W A ({[name]} ∪ L) m.
Proof.
  intros Hname (Hdom & Hin & Hlit). split; [|split; [done|]].
  - rewrite Hdom. set_solver.
  - intros n Hn HnA. apply Hlit; [|done]. set_solver.
Qed.

Lemma checkRoleNames_resolved names : ∀ m (A L : gset string) m',
  rolesResolved W A L m →
  forRange names (checkRoleName W) m = (Returns None, m') →
  rolesResolved W A (list_to_set names ∪ L) m'.
Proof.
  induction names as [|name rest IH]; intros m A L m' HAL.
  - cbn. intros [= <-]. by rewrite (left_id_L ∅ (∪)).
  - rewrite forRange_cons, checkRoleName_run.
    destruct (roleMap m !! name) as [expr|] eqn:Hlookup.
    + intros Hrest.
      assert (name ∈ A ∪ L) as Hname.
      { destruct HAL as (Hdom & _). rewrite <- Hdom. apply elem_of_dom. eauto. }
      pose proof (IH m A _ m' (rolesResolved_more A L name m Hname HAL) Hrest) as H1.
      match goal with
      | H : rolesResolved _ _ ?S1 _ |- rolesResolved _ _ ?S2 _ =>
          assert (S2 = S1) as -> by set_solver
      end.
      exact H1.
    + destruct (fails W (GetRole name)); [done|]. intros Hrest.
      assert (name ∉ A ∪ L) as Hname.
      { destruct HAL as (Hdom & _). rewrite <- Hdom. by apply not_elem_of_dom. }
      eassert (rolesResolved W A ({[name]} ∪ L) _) as H1; [|pose proof (IH _ A _ m' H1 Hrest) as H2].
      { destruct HAL as (Hdom & Hin & Hlit). split; [|split].
        - cbn. rewrite dom_insert_L, Hdom. set_solver.
        - intros n Hn. cbn. rewrite lookup_insert_ne by set_solver. by apply Hin.
        - intros n Hn HnA. cbn. destruct (decide (n = name)) as [->|Hne].
          + by rewrite lookup_insert_eq.
          + rewrite lookup_insert_ne by done. apply Hlit; [set_solver | done]. }
      match goal with
      | H : rolesResolved _ _ ?S1 _ |- rolesResolved _ _ ?S2 _ =>
          assert (S2 = S1) as -> by set_solver
      end.
      exact H2.
Qed.

(** X18.  What role resolution leaves in the role map.  When the step has
    passed, it hands over to the precondition step, and the role map holds
    exactly the roles the lambda functions refer to: the logical name of
    every inline role definition maps to the [Arn] attribute of the role
    resource of that name, which the template now holds; every other
    literal role name maps to the ARN IAM reported for it; no other name is
    in the map. *)
Theorem verifyIAMRoles_fills_role_map (m m' : machine) (next : workflowStep) :
  let service := serviceName (user (ctx m)) in
  let infos := lambdaAWSInfos (user (ctx m)) in
  let inline := inlineRoleNames W service infos in
  let literal := literalRoleNames infos in
  runStep (verifyIAMRoles W) m = (Returns (Some next, None), m') →
  next = verifyAWSPreconditions W
  ∧ (∀ n, n ∈ inline →
          roleMap m' !! n = Some (gocf_GetAtt n "Arn")
          ∧ ∃ definition,
              Resources (cfTemplate (context (ctx m'))) !! n = Some (IAMRole definition))
  ∧ (∀ n, n ∈ literal → n ∉ inline → roleMap m' !! n = Some (gocf_String (roleArn W n)))
  ∧ (∀ n, n ∉ inline → n ∉ literal → roleMap m' !! n = None).
Proof.
  intros service infos inline literal.
  unfold runStep, verifyIAMRoles. run_m. fold infos.
  set (m0 := {| ctx := set_lambdaIAMRoleNameMap ∅ (ctx m); trace := trace m |}).
  assert (rolesResolved W ∅ ∅ m0) as H0.
  { split; [|split]; [|set_solver..].
    cbn. by rewrite dom_empty_L, (left_id_L ∅ (∪)). }
  destruct (assembleRoleNames_run W infos [] m0)
    as (m1 & r1 & done1 & es1 & Hrun1 & _ & _ & _ & _ & _ & _ & Hok1 & _).
  rewrite Hrun1. destruct r1 as [names [e|]]; run_m; [done|].
  destruct (Hok1 eq_refl) as [_ Hnames]. cbn in Hnames. subst names.
  destruct (assembleRoleNames_resolved infos [] m0 ∅ _ m1 H0 Hrun1) as [H1 _].
  cbn [m0 ctx set_lambdaIAMRoleNameMap with_context user] in H1. fold service inline in H1.
  destruct (forRange (literalRoleNames infos) (checkRoleName W) m1)
    as [[[e|]|reason] m2] eqn:Hrun2; run_m; [done| |done].
  pose proof (checkRoleNames_resolved _ m1 _ ∅ m2 H1 Hrun2) as (Hdom & Hin & Hlit).
  fold literal in Hdom, Hlit.
  intros [= <- <-]. cbn [ctx context with_txn].
  split; [done|]. split; [|split].
  - intros n Hn. apply Hin. set_solver.
  - intros n Hn Hout. apply Hlit; set_solver.
  - intros n Hout1 Hout2. apply not_elem_of_dom. rewrite Hdom. set_solver.
Qed.

End RoleMap.

Lemma verifyIAMRoles_fills_role_map_witness :
  let m := loopEntry calmWorld false "svc" "" [inlineRoleLambda; helloLambda] None None
                     "bucket" false false "b1" "" "" "" false None in
  let roles := lambdaIAMRoleNameMap (context (ctx (runStep (verifyIAMRoles calmWorld) m).2)) in
  roles !! "IAMRolesvchello" = Some (gocf_GetAtt "IAMRolesvchello" "Arn")
  ∧ roles !! "lambdaRole" = Some (gocf_String "arn:aws:iam::000000000000:role/lambdaRole").
Proof.
  intros m roles.
  destruct (verifyIAMRoles_fills_role_map calmWorld m
              (runStep (verifyIAMRoles calmWorld) m).2 (verifyAWSPreconditions calmWorld)
              eq_refl) as (_ & Hinline & Hliteral & _).
  split.
  - apply Hinline. vm_compute. by left.
  - apply Hliteral; vm_compute; [by left|].
    intros H. apply list_elem_of_In in H. by destruct H.
Defined.

(** ** Applying the template *)

(** X19.  The normal way of applying the template.  In a run that is not a
    dry run, has no CodePipeline trigger and is not in place, once the
    template is written to its scratch file it is uploaded, and the stack
    is converged from the uploaded location with the timeout the template
    calls for; the operation returns the error of the convergence, if
    any, and never a further step. *)
Theorem applyCloudFormationOperation_converges (W : World) (m : machine) :
  let c := ctx m in
  let templateName := sanitizedName W (serviceName (user c)) +:+ "-cftemplate.json" in
  let templateFile := temporaryFileName W templateName in
  let written := [evCall JSONMarshalTemplate; evCall (TemporaryFile templateName);
                  evCall (FileWrite templateFile); evCall (FileClose templateFile)]
                 ++ (if templateWriter (context c)
                     then [evCall (FileWrite "templateWriter")] else []) in
  let m1 := {| ctx := c; trace := trace m ++ written |} in
  let uploaded := uploadLocalFileToS3 W templateFile "" m1 in
  noop (user c) = false → codePipelineTrigger (user c) = "" → inPlace (user c) = false →
  Forall (λ e, match e with evCall call => fails W call = None | _ => True end) written →
  ∀ uploadURL,
    uploaded.1 = Returns (uploadURL, None) →
    let converge := ConvergeStackState (serviceName (user c)) uploadURL
                      (maximumStackOperationTimeout (cfTemplate (context c))) in
    applyCloudFormationOperation W m
    = (Returns (None, fails W converge),
       {| ctx := ctx uploaded.2; trace := trace uploaded.2 ++ [evCall converge] |}).
Proof.
  intros c templateName templateFile written m1 uploaded Hnoop Htrigger HinPlace Hok
    uploadURL Hupload converge.
  unfold written in Hok. apply Forall_app in Hok as [Hfile Hwriter].
  apply Forall_cons in Hfile as [Hmarshal Hfile].
  apply Forall_cons in Hfile as [Htemp Hfile].
  apply Forall_cons in Hfile as [Hwrite Hfile].
  apply Forall_cons in Hfile as [Hclose _].
  unfold applyCloudFormationOperation. run_m.
  fold c templateName templateFile. rewrite Hmarshal, Htemp, Hwrite, Hclose.
  rewrite Htrigger, Hnoop, HinPlace. cbn [String.eqb].
  destruct (templateWriter (context c)) eqn:Hw.
  - apply Forall_cons in Hwriter as [Hwriter _]. rewrite Hwriter. cbn [ctx trace].
    replace (((((trace m ++ [evCall JSONMarshalTemplate])
                ++ [evCall (TemporaryFile templateName)])
               ++ [evCall (FileWrite templateFile)])
              ++ [evCall (FileClose templateFile)]) ++ [evCall (FileWrite "templateWriter")])
      with (trace m ++ written) by (unfold written; by rewrite <- !app_assoc).
    fold m1 uploaded. destruct uploaded as [o m']. cbn [fst snd] in Hupload |- *.
    rewrite Hupload. cbn [fst snd]. fold converge. by destruct (fails W converge).
  - cbn [ctx trace].
    replace ((((trace m ++ [evCall JSONMarshalTemplate])
               ++ [evCall (TemporaryFile templateName)])
              ++ [evCall (FileWrite templateFile)])
             ++ [evCall (FileClose templateFile)])
      with (trace m ++ written) by (unfold written; by rewrite app_nil_r, <- !app_assoc).
    fold m1 uploaded. destruct uploaded as [o m']. cbn [fst snd] in Hupload |- *.
    rewrite Hupload. cbn [fst snd]. fold converge. by destruct (fails W converge).
Qed.

Lemma applyCloudFormationOperation_converges_witness :
  let m := loopEntry calmWorld false "svc" "" [helloLambda] None None "bucket" false false
                     "b1" "" "" "" false None in
  (applyCloudFormationOperation calmWorld m).1 = Returns (None, None)
  ∧ last (trace (applyCloudFormationOperation calmWorld m).2)
    = Some (evCall (ConvergeStackState "svc"
        "https://bucket.s3.amazonaws.com/svc/svc-cftemplate-7d369cd233f5909c227b26c8ba8ba0ee98b6f272.json"
        20)).
Proof.
  intros m.
  rewrite (applyCloudFormationOperation_converges calmWorld m eq_refl eq_refl eq_refl
             ltac:(by repeat constructor)
             "https://bucket.s3.amazonaws.com/svc/svc-cftemplate-7d369cd233f5909c227b26c8ba8ba0ee98b6f272.json"
             ltac:(vm_compute; reflexivity)).
  split; [reflexivity|]. cbn [snd trace]. by rewrite last_snoc.
Defined.


(** ** The upload step *)

(** X20.  The upload step records where the code archive went.  Without a
    site to upload: a service without lambda functions uploads nothing and
    the step hands over at once, leaving the location of the code archive
    as it was; with lambda functions the archive is uploaded under the
    default key, the step hands over to the post-condition step when the
    upload has succeeded, and the context then holds the location of the
    archive, parsed from the location the upload returned; when the upload
    has failed the step returns an error and the location is left as it
    was. *)
Theorem createUploadStep_records_archive (W : World) (m : machine) (packagePath : string) :
  let c := ctx m in
  let uploaded := uploadLocalFileToS3 W packagePath "" m in
  let step := runStep (createUploadStep W packagePath) m in
  s3Site (siteContext (user c)) = None →
  (lambdaAWSInfos (user c) = [] →
   step.1 = Returns (Some (validateSpartaPostconditions W), None)
   ∧ trace step.2 = trace m
   ∧ context (ctx step.2) = context c)
  ∧ (lambdaAWSInfos (user c) ≠ [] →
     trace step.2 = trace uploaded.2
     ∧ (∀ url, uploaded.1 = Returns (url, None) →
               step.1 = Returns (Some (validateSpartaPostconditions W), None)
               ∧ s3CodeZipURL (context (ctx step.2)) = newS3UploadURL W url)
     ∧ (∀ url e, uploaded.1 = Returns (url, Some e) →
                 (∃ err, step.1 = Returns (None, Some err))
                 ∧ s3CodeZipURL (context (ctx step.2)) = s3CodeZipURL (context (ctx uploaded.2)))).
Proof.
  intros c uploaded step Hsite. unfold step, runStep, createUploadStep.
  run_m. fold c. rewrite Hsite. split.
  - intros ->. cbn [app workerPool_Run]. run_m. by repeat split.
  - intros Hinfos. destruct (lambdaAWSInfos (user c)) as [|info infos]; [done|].
    cbn [app workerPool_Run]. run_m. fold uploaded.
    destruct uploaded as [[[url [e|]]|reason] m']; cbn [fst snd ctx trace];
      (split; [done|]); split; try done.
    + intros url' e' [= -> ->]. split; [by eexists | done].
    + intros url' [= ->]. by split.
Qed.

Lemma createUploadStep_records_archive_witness :
  let m := loopEntry calmWorld true "svc" "" [helloLambda] None None "bucket" false false
                     "b1" "" "" "" false None in
  s3CodeZipURL (context (ctx (runStep (createUploadStep calmWorld ".sparta/code.zip") m).2))
  = Some {| location := "https://bucket-s3.amazonaws.com/svc/code-558b801028ef84485e83d633dcdc6866d4c26299.zip";
            path := "svc/code-558b801028ef84485e83d633dcdc6866d4c26299.zip";
            version := "" |}.
Proof.
  intros m.
  destruct (createUploadStep_records_archive calmWorld m ".sparta/code.zip" eq_refl)
    as [_ Hupload].
  destruct Hupload as (_ & Hok & _); [discriminate|].
  destruct (Hok "https://bucket-s3.amazonaws.com/svc/code-558b801028ef84485e83d633dcdc6866d4c26299.zip")
    as [_ Hurl]; [vm_compute; reflexivity|].
  rewrite Hurl. vm_compute. reflexivity.
Defined.

(** ** The artifact naming policy *)

Section Extension.

Lemma string_append_assoc (a b c : string) : (a +:+ b) +:+ c = a +:+ (b +:+ c).
Proof.
  apply StringFacts.list_ascii_of_string_inj.
  by rewrite !StringFacts.list_of_append, app_assoc.
Qed.

Lemma string_append_empty (a : string) : a +:+ "" = a.
Proof.
  apply StringFacts.list_ascii_of_string_inj.
  by rewrite StringFacts.list_of_append, app_nil_r.
Qed.

Lemma get_is_Some (s : string) (n : nat) :
  (n < String.length s)%nat → ∃ c, String.get n s = Some c.
Proof.
  revert n. induction s as [|x s IH]; intros [|n] Hn; simpl in *; try lia; eauto.
  apply IH. lia.
Qed.

Lemma get_append_l (a b : string) (n : nat) :
  (n < String.length a)%nat → String.get n (a +:+ b) = String.get n a.
Proof. intros Hn. symmetry. by apply String.append_correct1. Qed.

Lemma get_append_r (a b : string) (k : nat) :
  String.get (String.length a + k) (a +:+ b) = String.get k b.
Proof. rewrite Nat.add_comm. symmetry. apply String.append_correct2. Qed.

(** [(a + b)[len(a):] = b] *)
Lemma substring_append_r (a b : string) :
  String.substring (String.length a) (String.length (a +:+ b) - String.length a) (a +:+ b) = b.
Proof.
  induction a as [|x a IH]; simpl.
  - rewrite Nat.sub_0_r. apply StringFacts.substring_all.
  - done.
Qed.

Lemma get_substring_tail (p : string) (i k : nat) :
  (i ≤ String.length p)%nat →
  String.get k (String.substring i (String.length p - i) p) = String.get (i + k) p.
Proof.
  revert i. induction p as [|x p IH]; intros [|i] Hi; simpl in *; try lia; try done.
  - by rewrite StringFacts.substring_all.
  - apply IH. lia.
Qed.

(** The scan of [path.Ext] passes a plain tail. *)
Lemma path_Ext_loop_skip (a b : string) (k : nat) :
  plain b → (k ≤ String.length b)%nat →
  path_Ext_loop (a +:+ b) (String.length a + k) = path_Ext_loop (a +:+ b) (String.length a).
Proof.
  intros Hb. induction k as [|k IH]; intros Hk.
  - by rewrite Nat.add_0_r.
  - rewrite Nat.add_succ_r. simpl. rewrite get_append_r.
    destruct (get_is_Some b k) as [c Hc]; [lia|]. rewrite Hc.
    destruct (Hb k c Hc) as [-> ->]. apply IH. lia.
Qed.

(** A path without an extension has none after a suffix is appended, once
    the scan has passed the suffix. *)
Lemma path_Ext_loop_none (a b : string) (n : nat) :
  (n ≤ String.length a)%nat → path_Ext_loop a n = "" → path_Ext_loop (a +:+ b) n = "".
Proof.
  induction n as [|n IH]; intros Hn; simpl; [done|].
  rewrite get_append_l by lia.
  destruct (String.get n a) as [c|] eqn:Hc; [|done].
  destruct (Ascii.eqb c "/"); [done|].
  destruct (Ascii.eqb c "."); [|apply IH; lia].
  intros Hempty. apply (f_equal String.length) in Hempty.
  rewrite StringFacts.length_substring_tail in Hempty by lia. simpl in Hempty. lia.
Qed.

(** What [path.Ext] returns: nothing, or a dot and a plain rest. *)
Lemma path_Ext_loop_shape (p : string) (n : nat) :
  (n ≤ String.length p)%nat →
  (∀ j c, (n ≤ j)%nat → String.get j p = Some c →
          Ascii.eqb c "/" = false ∧ Ascii.eqb c "." = false) →
  path_Ext_loop p n = "" ∨ ∃ rest, path_Ext_loop p n = String "." rest ∧ plain rest.
Proof.
  induction n as [|n IH]; intros Hn Htail; simpl; [by left|].
  destruct (String.get n p) as [c|] eqn:Hc; [|by left].
  destruct (Ascii.eqb c "/") eqn:Hslash; [by left|].
  destruct (Ascii.eqb_spec c ".") as [->|Hdot].
  - right.
    pose proof (get_substring_tail p n 0 ltac:(lia)) as Hhead.
    rewrite Nat.add_0_r, Hc in Hhead.
    pose proof (λ k, get_substring_tail p n (S k) ltac:(lia)) as Hrest.
    destruct (String.substring n (String.length p - n) p) as [|x rest]; [done|].
    simpl in Hhead. injection Hhead as ->. exists rest. split; [done|].
    intros k c Hk. apply (Htail (n + S k)%nat); [lia|]. by rewrite <- Hrest.
  - apply IH; [lia|]. intros j c' Hj Hget.
    destruct (decide (j = n)) as [->|]; [|apply (Htail j); [lia|done]].
    rewrite Hc in Hget. injection Hget as <-. split; [done|].
    by apply Ascii.eqb_neq.
Qed.

Lemma path_Ext_shape (p : string) :
  path_Ext p = "" ∨ ∃ rest, path_Ext p = String "." rest ∧ plain rest.
Proof.
  apply path_Ext_loop_shape; [done|]. intros j c Hj Hget.
  exfalso. revert j Hj Hget. induction p as [|x p IH]; intros [|j] Hj Hget; simpl in *; try done; try lia.
  apply (IH j); [lia|done].
Qed.

Lemma hex_digit_plain (n : N) :
  Ascii.eqb (hex_digit n) "/" = false ∧ Ascii.eqb (hex_digit n) "." = false.
Proof.
  destruct n as [|p]; [done|].
  do 4 (destruct p as [p|p|]; try done).
Qed.

Lemma hex_EncodeToString_plain (s : string) : plain (hex_EncodeToString s).
Proof.
  induction s as [|x s IH]; intros k c; simpl; [done|].
  destruct k as [|[|k]]; simpl.
  - intros [= <-]. apply hex_digit_plain.
  - intros [= <-]. apply hex_digit_plain.
  - apply IH.
Qed.

(** A path that ends in a dot and a plain rest has them as extension. *)
Lemma path_Ext_dotted (a rest : string) :
  plain rest → path_Ext (a +:+ String "." rest) = String "." rest.
Proof.
  intros Hrest. unfold path_Ext.
  replace (a +:+ String "." rest) with ((a +:+ ".") +:+ rest)
    by by rewrite string_append_assoc.
  rewrite StringFacts.length_append, path_Ext_loop_skip by done.
  rewrite StringFacts.length_append, Nat.add_1_r, string_append_assoc.
  change ("." +:+ rest) with (String "." rest). cbn [path_Ext_loop].
  pose proof (get_append_r a (String "." rest) 0) as Hget.
  rewrite Nat.add_0_r in Hget. rewrite Hget. simpl.
  apply (substring_append_r a (String "." rest)).
Qed.

(** A path without an extension has none after a plain suffix is appended. *)
Lemma path_Ext_plain_suffix (p suffix : string) :
  plain suffix → path_Ext p = "" → path_Ext (p +:+ suffix) = "".
Proof.
  intros Hsuffix Hnone. unfold path_Ext.
  rewrite StringFacts.length_append, path_Ext_loop_skip by done.
  by apply path_Ext_loop_none.
Qed.

End Extension.

(** X21.  The key that [versionAwareS3KeyName] returns has the extension of the
    default key, with and without bucket versioning: the hash is put
    before the extension, so an archive named [.zip] stays a [.zip]. *)
Theorem versionAwareS3KeyName_keeps_extension (s3DefaultKey : string)
    (s3VersioningEnabled : bool) (now : Z) :
  path_Ext (versionAwareS3KeyName s3DefaultKey s3VersioningEnabled now).1
  = path_Ext s3DefaultKey.
Proof.
  unfold versionAwareS3KeyName, sha1_Write.
  destruct s3VersioningEnabled; [done|]. cbn [negb fst].
  generalize (hex_EncodeToString_plain (sha1.Sum (keySalt s3DefaultKey now))).
  generalize (hex_EncodeToString (sha1.Sum (keySalt s3DefaultKey now))).
  intros hash Hhash.
  pose proof (StringFacts.TrimSuffix_Ext s3DefaultKey) as Hsplit.
  revert Hsplit. generalize (strings_TrimSuffix s3DefaultKey (path_Ext s3DefaultKey)).
  intros pre Hsplit.
  assert (plain ("-" +:+ hash)) as Hmid.
  { intros [|k] c; simpl; [by intros [= <-]|]. apply Hhash. }
  destruct (path_Ext_shape s3DefaultKey) as [Hnone|(rest & Hext & Hrest)].
  - rewrite Hnone in Hsplit |- *. rewrite string_append_empty in Hsplit. subst pre.
    rewrite string_append_empty. by apply path_Ext_plain_suffix.
  - rewrite Hext.
    rewrite <- (string_append_assoc "-" hash), <- (string_append_assoc pre).
    by apply path_Ext_dotted.
Qed.

(** X22.  The keys of the naming policy.  With versioning enabled the policy
    returns the default key unchanged.  With versioning disabled it
    returns [<prefix>-<hex hash><extension>]: prefix and extension split
    the default key, the hash is the 40-digit hexadecimal SHA-1 digest of a
    salt made of the default key and the clock reading.  Different clock
    readings give different salts, and two calls with the same default key
    return the same key exactly when the SHA-1 digests of their salts are
    equal: the keys of two clock readings differ unless SHA-1 collides on
    the two salts, and nothing rules such a collision out. *)
Theorem versionAwareS3KeyName_policy (s3DefaultKey : string) (t1 t2 : Z) :
  let extension := path_Ext s3DefaultKey in
  let prefixString := strings_TrimSuffix s3DefaultKey extension in
  let hash t := hex_EncodeToString (sha1.Sum (keySalt s3DefaultKey t)) in
  versionAwareS3KeyName s3DefaultKey true t1 = (s3DefaultKey, None)
  ∧ versionAwareS3KeyName s3DefaultKey false t1
    = (prefixString +:+ "-" +:+ hash t1 +:+ extension, None)
  ∧ prefixString +:+ extension = s3DefaultKey
  ∧ String.length (hash t1) = 40%nat
  ∧ (t1 ≠ t2 → keySalt s3DefaultKey t1 ≠ keySalt s3DefaultKey t2)
  ∧ ((versionAwareS3KeyName s3DefaultKey false t1).1
     = (versionAwareS3KeyName s3DefaultKey false t2).1
     ↔ sha1.Sum (keySalt s3DefaultKey t1) = sha1.Sum (keySalt s3DefaultKey t2)).
Proof.
  intros extension prefixString hash. repeat split.
  - apply StringFacts.TrimSuffix_Ext.
  - unfold hash. rewrite StringFacts.length_hex_EncodeToString.
    by rewrite StringFacts.length_sha1_Sum.
  - intros Hne Heq. apply Hne. unfold keySalt in Heq.
    do 2 apply StringFacts.append_inv_head in Heq. by apply StringFacts.fmt_d_inj.
  - intros Heq. unfold versionAwareS3KeyName in Heq. simpl in Heq.
    do 2 apply StringFacts.append_inv_head in Heq.
    apply StringFacts.append_inv_tail in Heq.
    by apply StringFacts.hex_EncodeToString_inj.
  - intros Heq. unfold versionAwareS3KeyName. simpl. by rewrite Heq.
Qed.

Lemma versionAwareS3KeyName_policy_witness :
  keySalt "svc/code.zip" 1572764400000000000 ≠ keySalt "svc/code.zip" 1572764400000000001
  ∧ (versionAwareS3KeyName "svc/code.zip" false 1572764400000000000).1
    ≠ (versionAwareS3KeyName "svc/code.zip" false 1572764400000000001).1.
Proof.
  destruct (versionAwareS3KeyName_policy "svc/code.zip"
              1572764400000000000 1572764400000000001)
    as (_ & _ & _ & _ & Hsalt & Hkey).
  split.
  - apply Hsalt. discriminate.
  - intros Heq. apply Hkey in Heq. vm_compute in Heq. discriminate Heq.
Defined.
